(** * Exact arithmetic of the matrix calculator: big integers and fractions

    A shallow embedding of [high-accuracy-integer.c] (struct [ha_int]) and
    [high-accuracy-fraction.c] (struct [ha_frac]), followed by the properties
    their specification states; then of [high-accuracy-complex.c] (struct
    [ha_comp]) and [read-input.c], with further properties of the four
    modules.

    Conventions of the embedding:
    - a C string is the list of its characters before the terminating NUL,
      so [strlen] is [length];
    - a [char] is an [ascii], compared through its code;
    - a C [int] holding a length or an index is a [nat] (these are never
      negative in the code), an [int] holding digit arithmetic is a [Z],
      with C's truncating [/] and [%] as [Z.quot] and [Z.rem];
    - a heap buffer written by index is a list updated with [upd];
    - a function returning a pointer that may be [NULL], may trip an
      [assert], or contains a [while] loop or a recursion, returns a
      [result];
    - the assertions that a pointer argument is not [NULL] hold by typing
      (an argument is a value), and [get_digit]'s [assert(len > 0)] holds
      for every buffer with at least one digit; the other assertions
      ([get_gcd], [ha_frac_reduc], [ha_frac_div]) are modelled;
    - [malloc], [realloc] and [free] are not modelled: every function
      returns a fresh value and never writes to its arguments;
    - a function that prints returns the list of the characters it writes
      to the standard output. *)

From Stdlib Require Import String Ascii QArith ZArith List Bool Lia Arith.
Import ListNotations.

Local Open Scope Z_scope.

(* ================================================================== *)
(** * Outcomes of a call *)
(* ================================================================== *)

Inductive result (A : Type) : Type :=
| Value (a : A)   (* a pointer to a freshly allocated result *)
| Null            (* the error message was printed and NULL returned *)
| Aborted           (* an assert failed, or NULL was dereferenced *)
| OutOfFuel.      (* the loop or recursion did not finish within the fuel *)

Arguments Value {A} a.
Arguments Null {A}.
Arguments Aborted {A}.
Arguments OutOfFuel {A}.

(** [use r k] passes the pointer [r] to code that asserts it non-NULL
    (every [ha_int_*] function starts with [assert(n)]). *)
Definition use {A B : Type} (r : result A) (k : A -> result B) : result B :=
  match r with
  | Value a => k a
  | Null => Aborted
  | Aborted => Aborted
  | OutOfFuel => OutOfFuel
  end.

Notation "x <- r ;; k" := (use r (fun x => k))
  (at level 61, r at next level, right associativity).

(* ================================================================== *)
(** * Characters and buffers *)
(* ================================================================== *)

Definition code (c : ascii) : nat := nat_of_ascii c.

(** ['0'], ['1'], ['9'] and ['-'] *)
Definition ch0 : ascii := "0"%char.
Definition ch1 : ascii := "1"%char.
Definition ch9 : ascii := "9"%char.
Definition chminus : ascii := "-"%char.
Definition chnul : ascii := "000"%char.

(** [a < b] on characters.  The code compares a character only with
    another digit or with '0', '1', '9': a character above 127, negative
    where [char] is signed, falls outside '0'..'9' either way. *)
Definition char_lt (a b : ascii) : bool := (code a <? code b)%nat.
Definition char_eq (a b : ascii) : bool := Ascii.eqb a b.

(** [s[i]]; reading the position [strlen s] gives the terminator *)
Definition at_ (s : list ascii) (i : nat) : ascii := nth i s chnul.

(** an [int] stored into a [char] *)
Definition char_of_int (z : Z) : ascii := ascii_of_nat (Z.to_nat (z mod 256)).

(** [c - '0'] *)
Definition digit_of_char (c : ascii) : Z := Z.of_nat (code c) - 48.

(** [buf[i] = x] *)
Fixpoint upd {A : Type} (l : list A) (i : nat) (x : A) : list A :=
  match l, i with
  | [], _ => []
  | _ :: tl, O => x :: tl
  | y :: tl, S i' => y :: upd tl i' x
  end.

Definition cstr (s : string) : list ascii := list_ascii_of_string s.

(* ================================================================== *)
(** * high-accuracy-integer.c *)
(* ================================================================== *)

Record ha_int : Type := mk_int {
  sign : bool;            (* true for positive and 0, false for negative *)
  digits : list ascii     (* stored in a reverse order *)
}.

(** ** ha_int_create *)

Definition ha_int_create (s : list ascii) : option ha_int :=
  let s_len := length s in
  if (s_len =? 0)%nat then None
  else
    let neg := char_eq (at_ s 0) chminus in
    if neg && ((s_len =? 1)%nat || char_lt (at_ s 1) ch1 || char_lt ch9 (at_ s 1))
    then None
    else
      let s_idx := if neg then 1%nat else 0%nat in
      if char_eq (at_ s 0) ch0 && (1 <? s_len)%nat then None
      else if existsb (fun c => char_lt c ch0 || char_lt ch9 c) (skipn s_idx s)
      then None
      else
        (* digits[j] = s[s_idx++] for j from digit_num - 1 down to 0 *)
        Some (mk_int (negb neg) (rev (skipn s_idx s))).

(** a literal such as [ha_int_create("0")], which is never NULL *)
Definition lit (s : string) : ha_int :=
  match ha_int_create (cstr s) with
  | Some v => v
  | None => mk_int true []
  end.

(** ** ha_int_copy *)

Definition ha_int_copy (n : ha_int) : ha_int := mk_int (sign n) (digits n).

(** ** ha_int_eq *)

(** the loop [for (i = len - 1; i >= 0; --i)], with [k = i + 1] *)
Fixpoint eq_loop (nd md : list ascii) (k : nat) : bool :=
  match k with
  | O => true
  | S i => if negb (char_eq (at_ nd i) (at_ md i)) then false
           else eq_loop nd md i
  end.

Definition ha_int_eq (n m : ha_int) : bool :=
  if negb (Bool.eqb (sign n) (sign m)) then false
  else
    let n_len := length (digits n) in
    let m_len := length (digits m) in
    if negb (n_len =? m_len)%nat then false
    else eq_loop (digits n) (digits m) n_len.

(** ** abs_gt, ha_int_gt *)

Fixpoint abs_gt_loop (nd md : list ascii) (k : nat) : bool :=
  match k with
  | O => false
  | S i => if char_lt (at_ md i) (at_ nd i) then true
           else if char_lt (at_ nd i) (at_ md i) then false
           else abs_gt_loop nd md i
  end.

Definition abs_gt (n m : ha_int) : bool :=
  let n_len := length (digits n) in
  let m_len := length (digits m) in
  if (m_len <? n_len)%nat then true
  else if (n_len <? m_len)%nat then false
  else abs_gt_loop (digits n) (digits m) n_len.

Definition ha_int_gt (n m : ha_int) : bool :=
  if sign n && negb (sign m) then true
  else if negb (sign n) && sign m then false
  else if sign n then abs_gt n m
  else abs_gt m n.

(** ** get_digit, remove_leading_zeros, init_new_int *)

Definition get_digit (s : list ascii) (len pos : nat) : Z :=
  if (len <=? pos)%nat then 0 else digit_of_char (at_ s pos).

(** [while (num[len - 1] == '0' && len > 1) --len;] *)
Fixpoint rlz_len (num : list ascii) (len : nat) : nat :=
  match len with
  | S (S _ as len') =>
      if char_eq (at_ num (len - 1)) ch0 then rlz_len num len' else len
  | _ => len
  end.

Definition remove_leading_zeros (num : list ascii) : list ascii :=
  firstn (rlz_len num (length num)) num.

Definition init_new_int (len : nat) : list ascii := repeat ch0 len.

(** ** abs_add *)

(** [for (j = 0; j < new_int_len; ++j)], [cnt] iterations left *)
Fixpoint abs_add_loop (nd md : list ascii) (cnt j : nat) (carry : Z)
    (new : list ascii) : list ascii :=
  match cnt with
  | O => new
  | S cnt' =>
      let sum := carry + get_digit md (length md) j + get_digit nd (length nd) j in
      abs_add_loop nd md cnt' (S j) (Z.quot sum 10)
        (upd new j (char_of_int (Z.rem sum 10 + 48)))
  end.

Definition abs_add (n m : ha_int) : ha_int :=
  let n_len := length (digits n) in
  let m_len := length (digits m) in
  let new_int_len := (Nat.max n_len m_len + 1)%nat in
  let new := init_new_int new_int_len in
  mk_int true
    (remove_leading_zeros (abs_add_loop (digits n) (digits m) new_int_len 0 0 new)).

(** ** abs_big_sub_small *)

Fixpoint abs_sub_loop (big small : list ascii) (cnt i : nat) (carry : Z)
    (new : list ascii) : list ascii :=
  match cnt with
  | O => new
  | S cnt' =>
      let sub := carry + get_digit big (length big) i
                 - get_digit small (length small) i in
      let sub' := if sub <? 0 then sub + 10 else sub in
      let carry' := if sub <? 0 then -1 else 0 in
      abs_sub_loop big small cnt' (S i) carry'
        (upd new i (char_of_int (Z.rem sub' 10 + 48)))
  end.

Definition abs_big_sub_small (n m : ha_int) : ha_int :=
  let n_len := length (digits n) in
  let m_len := length (digits m) in
  let new_int_len := Nat.max n_len m_len in
  let new := init_new_int new_int_len in
  let big := if abs_gt n m then digits n else digits m in
  let small := if abs_gt n m then digits m else digits n in
  mk_int true
    (remove_leading_zeros (abs_sub_loop big small new_int_len 0 0 new)).

(** ** ha_int_add, ha_int_sub *)

Definition ha_int_add (n m : ha_int) : ha_int :=
  if Bool.eqb (sign n) (sign m) then
    mk_int (sign n) (digits (abs_add n m))
  else
    let new_int := abs_big_sub_small n m in
    if abs_gt n m then
      if negb (sign n) then mk_int false (digits new_int) else new_int
    else if abs_gt m n then
      if sign n then mk_int false (digits new_int) else new_int
    else new_int.

Definition ha_int_sub (n m : ha_int) : ha_int :=
  if negb (Bool.eqb (sign n) (sign m)) then
    mk_int (sign n) (digits (abs_add n m))
  else
    let new_int := abs_big_sub_small n m in
    if abs_gt n m then
      if negb (sign n) then mk_int false (digits new_int) else new_int
    else if abs_gt m n then
      if sign n then mk_int false (digits new_int) else new_int
    else new_int.

(** ** is_zero, mult_div_sign, ha_int_mult *)

Definition is_zero (n : ha_int) : bool :=
  (length (digits n) =? 1)%nat && char_eq (at_ (digits n) 0) ch0.

Definition mult_div_sign (n m : ha_int) : bool :=
  if is_zero n || is_zero m then true
  else if Bool.eqb (sign n) (sign m) then true else false.

(** the inner loop [for (j = 0; j < m_len; ++j)] of row [i]; it returns the
    buffer and the carry *)
Fixpoint mult_row (nd md : list ascii) (new_int_len i cnt j : nat) (carry : Z)
    (new : list ascii) : list ascii * Z :=
  match cnt with
  | O => (new, carry)
  | S cnt' =>
      let mult := get_digit nd (length nd) i * get_digit md (length md) j
                  + get_digit new new_int_len (i + j) + carry in
      mult_row nd md new_int_len i cnt' (S j) (Z.quot mult 10)
        (upd new (i + j) (char_of_int (Z.rem mult 10 + 48)))
  end.

(** the outer loop [for (i = 0; i < n_len; ++i)] *)
Fixpoint mult_rows (nd md : list ascii) (new_int_len cnt i : nat)
    (new : list ascii) : list ascii :=
  match cnt with
  | O => new
  | S cnt' =>
      let '(new1, carry) := mult_row nd md new_int_len i (length md) 0 0 new in
      mult_rows nd md new_int_len cnt' (S i)
        (upd new1 (length md + i) (char_of_int (carry + 48)))
  end.

Definition ha_int_mult (n m : ha_int) : ha_int :=
  let n_len := length (digits n) in
  let m_len := length (digits m) in
  let new_int_len := (n_len + m_len)%nat in
  let new := init_new_int new_int_len in
  mk_int (mult_div_sign n m)
    (remove_leading_zeros (mult_rows (digits n) (digits m) new_int_len n_len 0 new)).

(** ** ha_int_quotient *)

(** [while (!divisor_is_bigger)]: the dividend loses the scaled divisor as
    many times as possible; each iteration costs one unit of fuel *)
Fixpoint sub_loop (fuel : nat) (modified_divisor dividend : ha_int)
    (quotient : Z) {struct fuel} : result (ha_int * Z) :=
  if abs_gt modified_divisor dividend then Value (dividend, quotient)
  else
    match fuel with
    | O => OutOfFuel
    | S fuel' =>
        sub_loop fuel' modified_divisor (ha_int_sub dividend modified_divisor)
          (quotient + 1)
    end.

(** [for (i = m_len; i <= n_len; ++i)], [cnt] iterations left; the state is
    [dividend_len], [idx], [dividend] and the buffer [new_int->digits] *)
Fixpoint quotient_loop (fuel : nat) (m : ha_int) (cnt dividend_len idx : nat)
    (dividend : ha_int) (new : list ascii) : result (list ascii * nat) :=
  match cnt with
  | O => Value (new, idx)
  | S cnt' =>
      let len_differ := (dividend_len - length (digits m))%nat in
      let ten_to_power := ch1 :: repeat ch0 len_differ in
      match ha_int_create ten_to_power with
      | None => Aborted
      | Some multiplier =>
          let modified_divisor := mk_int true (digits (ha_int_mult m multiplier)) in
          match sub_loop fuel modified_divisor dividend 0 with
          | Value (dividend', quotient) =>
              quotient_loop fuel m cnt' (dividend_len - 1) (S idx) dividend'
                (upd new idx (char_of_int (quotient + 48)))
          | Null => Null
          | Aborted => Aborted
          | OutOfFuel => OutOfFuel
          end
      end
  end.

(** [for (k = 0; k < idx / 2; ++k)]: swap [digits[k]] and [digits[idx-1-k]] *)
Fixpoint reverse_loop (new : list ascii) (idx cnt k : nat) : list ascii :=
  match cnt with
  | O => new
  | S cnt' =>
      let temp := at_ new k in
      let new1 := upd new k (at_ new (idx - 1 - k)) in
      let new2 := upd new1 (idx - 1 - k) temp in
      reverse_loop new2 idx cnt' (S k)
  end.

Definition ha_int_quotient (fuel : nat) (n m : ha_int) : result ha_int :=
  if is_zero m then Null
  else
    let n_len := length (digits n) in
    let m_len := length (digits m) in
    let new_int_len := n_len in
    let new_sign := if abs_gt m n then true else mult_div_sign n m in
    let new := if abs_gt m n then [ch0] else init_new_int new_int_len in
    let dividend := mk_int true (digits (ha_int_copy n)) in
    let dividend_len := length (digits dividend) in
    match quotient_loop fuel m (n_len + 1 - m_len) dividend_len 0 dividend new with
    | Value (new', idx) =>
        Value (mk_int new_sign
                 (remove_leading_zeros (reverse_loop new' idx (idx / 2) 0)))
    | Null => Null
    | Aborted => Aborted
    | OutOfFuel => OutOfFuel
    end.

(** ** ha_int_remainder *)

Definition ha_int_remainder (fuel : nat) (n m : ha_int) : result ha_int :=
  if is_zero m then Null
  else
    quotient <- ha_int_quotient fuel n m ;;
    let mult := ha_int_mult m quotient in
    Value (ha_int_sub n mult).

(** ** ha_int_to_str *)

Definition ha_int_to_str (n : ha_int) : list ascii :=
  (if sign n then [] else [chminus]) ++ rev (digits n).

(* ================================================================== *)
(** * high-accuracy-fraction.c *)
(* ================================================================== *)

Record ha_frac : Type := mk_frac {
  nega : bool;
  nume : ha_int;
  denom : ha_int
}.

Definition ha_int_cmp (n m : ha_int) : Z :=
  if ha_int_gt n m then 1
  else if ha_int_eq n m then 0
  else -1.

Definition ha_int_sign (n : ha_int) : Z := ha_int_cmp n (lit "0").

(** ** get_gcd *)

(** the recursion of [get_gcd]; [depth] bounds its depth, [fuel] is handed
    to the divisions *)
Fixpoint get_gcd_rec (fuel depth : nat) (small big : ha_int) : result ha_int :=
  match depth with
  | O => OutOfFuel
  | S depth' =>
      if negb (0 <? ha_int_sign small) then Aborted
      else if negb (0 <? ha_int_sign big) then Aborted
      else
        remain <- ha_int_remainder fuel big small ;;
        if ha_int_sign remain =? 0 then Value (ha_int_copy small)
        else get_gcd_rec fuel depth' remain small
  end.

Definition get_gcd (fuel : nat) (small big : ha_int) : result ha_int :=
  get_gcd_rec fuel fuel small big.

(** ** posi_copy, ha_frac_reduc, ha_frac_create *)

Definition posi_copy (n : ha_int) : ha_int :=
  if ha_int_sign n <? 0 then ha_int_sub (lit "0") n else ha_int_copy n.

Definition ha_frac_reduc (fuel : nat) (nume denom : ha_int) : result ha_frac :=
  if ha_int_sign denom =? 0 then Aborted
  else
    let n_sign := ha_int_sign nume in
    let d_sign := ha_int_sign denom in
    if n_sign =? 0 then Value (mk_frac false (lit "0") (lit "1"))
    else
      let result_nega :=
        if ((0 <? n_sign) && (0 <? d_sign)) || ((n_sign <? 0) && (d_sign <? 0))
        then false else true in
      let n_cpy := posi_copy nume in
      let d_cpy := posi_copy denom in
      let cmp := ha_int_cmp n_cpy d_cpy in
      if cmp =? 0 then Value (mk_frac result_nega (lit "1") (lit "1"))
      else
        gcd <- (if cmp =? 1 then get_gcd fuel d_cpy n_cpy
                else get_gcd fuel n_cpy d_cpy) ;;
        result_nume <- ha_int_quotient fuel n_cpy gcd ;;
        result_denom <- ha_int_quotient fuel d_cpy gcd ;;
        Value (mk_frac result_nega result_nume result_denom).

(** [ha_int_destroy] asserts its argument, so a NULL numerator or
    denominator aborts; only a zero denominator returns NULL *)
Definition ha_frac_create (fuel : nat) (numerator denominator : list ascii)
    : result ha_frac :=
  match ha_int_create numerator, ha_int_create denominator with
  | Some nume, Some denom =>
      if ha_int_sign denom =? 0 then Null
      else ha_frac_reduc fuel nume denom
  | _, _ => Aborted
  end.

(** ** ha_frac_add, ha_frac_sub, ha_frac_mult, ha_frac_div, ha_frac_cmp *)

Definition ha_frac_add (fuel : nat) (n m : ha_frac) : result ha_frac :=
  let cmp := ha_int_cmp (denom n) (denom m) in
  parts <-
    (if cmp =? 0 then
       Value (ha_int_copy (nume n), ha_int_copy (nume m), ha_int_copy (denom n))
     else
       gcd <- (if 0 <? cmp then get_gcd fuel (denom m) (denom n)
               else get_gcd fuel (denom n) (denom m)) ;;
       n_mult <- ha_int_quotient fuel (denom m) gcd ;;
       m_mult <- ha_int_quotient fuel (denom n) gcd ;;
       Value (ha_int_mult n_mult (nume n), ha_int_mult m_mult (nume m),
              ha_int_mult n_mult (denom n))) ;;
  let '(new_n_nume, new_m_nume, new_denom) := parts in
  let new_nume :=
    if (nega n && nega m) || (negb (nega n) && negb (nega m))
    then ha_int_add new_n_nume new_m_nume
    else if nega n then ha_int_sub new_m_nume new_n_nume
    else ha_int_sub new_n_nume new_m_nume in
  match ha_frac_create fuel (ha_int_to_str new_nume) (ha_int_to_str new_denom) with
  | Value result =>
      Value (if nega n && nega m
             then mk_frac true (nume result) (denom result)
             else result)
  | Null => if nega n && nega m then Aborted else Null
  | Aborted => Aborted
  | OutOfFuel => OutOfFuel
  end.

Definition ha_frac_sub (fuel : nat) (n m : ha_frac) : result ha_frac :=
  let m_cpy :=
    mk_frac (if negb (nega m) then true else false)
      (ha_int_copy (nume m)) (ha_int_copy (denom m)) in
  ha_frac_add fuel n m_cpy.

Definition ha_frac_mult (fuel : nat) (n m : ha_frac) : result ha_frac :=
  let new_nume := ha_int_mult (nume n) (nume m) in
  let new_denom := ha_int_mult (denom n) (denom m) in
  result <- ha_frac_create fuel (ha_int_to_str new_nume) (ha_int_to_str new_denom) ;;
  if Bool.eqb (nega n) (nega m) || (ha_int_sign (nume n) =? 0)
     || (ha_int_sign (nume m) =? 0)
  then Value (mk_frac false (nume result) (denom result))
  else Value (mk_frac true (nume result) (denom result)).

Definition ha_frac_div (fuel : nat) (n m : ha_frac) : result ha_frac :=
  if negb (negb (ha_int_sign (nume m) =? 0)) then Aborted
  else
    let m_reci :=
      mk_frac (nega m) (ha_int_copy (denom m)) (ha_int_copy (nume m)) in
    ha_frac_mult fuel n m_reci.

Definition ha_frac_cmp (fuel : nat) (n m : ha_frac) : result Z :=
  n_sub_m <- ha_frac_sub fuel n m ;;
  Value (if nega n_sub_m then -1
         else if ha_int_sign (nume n_sub_m) =? 0 then 0
         else 1).

Definition ha_frac_is_frac (num : ha_frac) : bool :=
  negb (ha_int_eq (denom num) (lit "1")).

(** ** ha_int_print, ha_frac_print, ha_frac_copy *)

Definition chnl : ascii := "010"%char.
Definition chplus : ascii := "+"%char.
Definition chslash : ascii := "/"%char.
Definition chlpar : ascii := "("%char.
Definition chrpar : ascii := ")"%char.
Definition chi : ascii := "i"%char.

(** A printing function returns the characters it writes to the standard
    output.  [for (i = len - 1; i >= 0; --i) printf("%c", digits[i])], with
    [k = i + 1]: *)
Fixpoint print_digits (d : list ascii) (k : nat) : list ascii :=
  match k with
  | O => []
  | S i => at_ d i :: print_digits d i
  end.

Definition ha_int_print (integer : ha_int) (newline : bool) : list ascii :=
  (if negb (sign integer) then [chminus] else [])
  ++ print_digits (digits integer) (length (digits integer))
  ++ (if newline then [chnl] else []).

Definition ha_frac_print (num : ha_frac) (newline : bool) : list ascii :=
  (if nega num then [chminus] else [])
  ++ ha_int_print (nume num) false
  ++ (if negb (ha_int_cmp (lit "1") (denom num) =? 0)
      then chslash :: ha_int_print (denom num) false else [])
  ++ (if newline then [chnl] else []).

(** [result->nega = num->nega] dereferences the result of [ha_frac_create] *)
Definition ha_frac_copy (fuel : nat) (num : ha_frac) : result ha_frac :=
  result <- ha_frac_create fuel (ha_int_to_str (nume num))
              (ha_int_to_str (denom num)) ;;
  Value (mk_frac (nega num) (nume result) (denom result)).

(* ================================================================== *)
(** * high-accuracy-complex.c *)
(* ================================================================== *)

Record ha_comp : Type := mk_comp {
  real : ha_frac;
  ima : ha_frac
}.

(** [after r k]: the call that gave [r] returned (a pointer or NULL), and
    the caller goes on with [k]; an abort or a loop that does not end stops
    the caller there *)
Definition after {A B : Type} (r : result A) (k : result B) : result B :=
  match r with
  | Aborted => Aborted
  | OutOfFuel => OutOfFuel
  | _ => k
  end.

(** the caller has computed [real], then [ima]; both are asserted *)
Definition ha_comp_create_with_ha_frac (real ima : result ha_frac)
    : result ha_comp :=
  after real
    (after ima
       match real, ima with
       | Value r, Value i => Value (mk_comp r i)
       | _, _ => Aborted
       end).

Definition ha_comp_create (fuel : nat)
    (real_nume real_denom ima_nume ima_denom : list ascii) : result ha_comp :=
  let real := ha_frac_create fuel real_nume real_denom in
  after real
    (let ima := ha_frac_create fuel ima_nume ima_denom in
     after ima
       match real, ima with
       | Value r, Value i => Value (mk_comp r i)
       | _, _ => Null
       end).

Definition ha_frac_cmp_with_n (fuel : nat) (num : ha_frac) (n : list ascii)
    : result Z :=
  temp <- ha_frac_create fuel n (cstr "1") ;;
  ha_frac_cmp fuel num temp.

Definition ha_frac_sign (fuel : nat) (num : ha_frac) : result Z :=
  ha_frac_cmp_with_n fuel num (cstr "0").

(** [!ha_frac_sign(real) && !ha_frac_sign(ima)], the second operand
    evaluated only when the first holds *)
Definition ha_comp_is_zero (fuel : nat) (num : ha_comp) : result bool :=
  real_sign <- ha_frac_sign fuel (real num) ;;
  if negb (real_sign =? 0) then Value false
  else
    ima_sign <- ha_frac_sign fuel (ima num) ;;
    if negb (ima_sign =? 0) then Value false else Value true.

Definition ha_comp_is_one (fuel : nat) (num : ha_comp) : result bool :=
  ima_sign <- ha_frac_sign fuel (ima num) ;;
  if negb (ima_sign =? 0) then Value false
  else
    cmp <- ha_frac_cmp_with_n fuel (real num) (cstr "1") ;;
    if cmp =? 0 then Value true else Value false.

Definition ha_comp_add (fuel : nat) (n m : ha_comp) : result ha_comp :=
  let new_real := ha_frac_add fuel (real n) (real m) in
  after new_real
    (let new_ima := ha_frac_add fuel (ima n) (ima m) in
     ha_comp_create_with_ha_frac new_real new_ima).

Definition ha_comp_sub (fuel : nat) (n m : ha_comp) : result ha_comp :=
  let new_real := ha_frac_sub fuel (real n) (real m) in
  after new_real
    (let new_ima := ha_frac_sub fuel (ima n) (ima m) in
     ha_comp_create_with_ha_frac new_real new_ima).

(** [ha_frac_mult] never returns NULL (it dereferences its own result), so
    binding its result with [use] loses nothing *)
Definition ha_comp_mult (fuel : nat) (n m : ha_comp) : result ha_comp :=
  real_real <- ha_frac_mult fuel (real n) (real m) ;;
  ima_ima <- ha_frac_mult fuel (ima n) (ima m) ;;
  let new_real := ha_frac_sub fuel real_real ima_ima in
  after new_real
    (real_ima <- ha_frac_mult fuel (real n) (ima m) ;;
     ima_real <- ha_frac_mult fuel (ima n) (real m) ;;
     let new_ima := ha_frac_add fuel real_ima ima_real in
     ha_comp_create_with_ha_frac new_real new_ima).

Definition ha_comp_div (fuel : nat) (n m : ha_comp) : result ha_comp :=
  is_zero_m <- ha_comp_is_zero fuel m ;;
  if negb (negb is_zero_m) then Aborted
  else
    zero <- ha_frac_create fuel (cstr "0") (cstr "1") ;;
    let nega_m_ima := ha_frac_sub fuel zero (ima m) in
    after nega_m_ima
      (m_conju <- ha_comp_create_with_ha_frac (ha_frac_copy fuel (real m))
                    nega_m_ima ;;
       m_mult_m_conju <- ha_comp_mult fuel m m_conju ;;
       let div := real m_mult_m_conju in
       n_mult_m_conju <- ha_comp_mult fuel n m_conju ;;
       let new_real := ha_frac_div fuel (real n_mult_m_conju) div in
       after new_real
         (let new_ima := ha_frac_div fuel (ima n_mult_m_conju) div in
          ha_comp_create_with_ha_frac new_real new_ima)).

(** [ha_comp_print], in the version that prints the two parts itself *)
Definition ha_comp_print (fuel : nat) (num : ha_comp) (newline : bool)
    : result (list ascii) :=
  real_sign <- ha_frac_sign fuel (real num) ;;
  let out_real :=
    if negb (real_sign =? 0) then ha_frac_print (real num) false else [] in
  ima_sign <- ha_frac_sign fuel (ima num) ;;
  out_ima <-
    (if negb (ima_sign =? 0) then
       let out_sign :=
         if (ima_sign =? 1) && negb (real_sign =? 0) then [chplus]
         else if ima_sign =? -1 then [chminus] else [] in
       let is_frac := ha_frac_is_frac (ima num) in
       cmp_1 <- ha_frac_cmp_with_n fuel (ima num) (cstr "1") ;;
       not_unit <-
         (if negb (cmp_1 =? 0) then
            cmp_m1 <- ha_frac_cmp_with_n fuel (ima num) (cstr "-1") ;;
            Value (negb (cmp_m1 =? 0))
          else Value false) ;;
       out_coe <-
         (if not_unit : bool then
            if ima_sign =? 1 then Value (ha_frac_print (ima num) false)
            else
              zero <- ha_frac_create fuel (cstr "0") (cstr "1") ;;
              posi_ima <- ha_frac_sub fuel zero (ima num) ;;
              Value (ha_frac_print posi_ima false)
          else Value []) ;;
       Value (out_sign ++ (if is_frac then [chlpar] else []) ++ out_coe
              ++ (if is_frac then [chrpar] else []) ++ [chi])
     else Value []) ;;
  Value (out_real ++ out_ima
         ++ (if (ima_sign =? 0) && (real_sign =? 0) then [ch0] else [])
         ++ (if newline then [chnl] else [])).

(* ================================================================== *)
(** * read-input.c *)
(* ================================================================== *)

Module ReadInput.

(** a buffer read as a C string: the characters before the first NUL *)
Fixpoint c_str (buf : list ascii) : list ascii :=
  match buf with
  | [] => []
  | c :: tl => if char_eq c chnul then [] else c :: c_str tl
  end.

Definition only_real (num : list ascii) : bool :=
  negb (existsb (fun c => char_eq c chi) num).

(** [for (i = 0; i < len; ++i) if (num[i] == 'i') { i_idx = i; break; }],
    with [i_idx] initialised to 0 *)
Fixpoint find_i (num : list ascii) (cnt i : nat) : nat :=
  match cnt with
  | O => O
  | S cnt' => if char_eq (at_ num i) chi then i else find_i num cnt' (S i)
  end.

(** [for (j = i_idx - 1; j >= 0; --j)], with [k = j + 1] *)
Fixpoint scan_back (num : list ascii) (k : nat) : bool :=
  match k with
  | O => true
  | S j =>
      if char_eq (at_ num j) chplus then false
      else if char_eq (at_ num j) chminus then (j =? 0)%nat
      else scan_back num j
  end.

Definition only_imaginary (num : list ascii) : bool :=
  if only_real num then false
  else scan_back num (find_i num (length num) 0).

Definition real (num : list ascii) : list ascii :=
  if only_real num then num
  else if only_imaginary num then []
  else
    c_str (match num with
           | [] => []
           | c :: tl =>
               c :: map (fun x => if char_eq x chplus || char_eq x chminus
                                  then chnul else x) tl
           end).

(** the [while] loop of [imaginary]; the argument is what [curpos] points
    to, the result what it points to after the loop *)
Fixpoint skip_to_sign (curpos : list ascii) : list ascii :=
  match curpos with
  | [] => []
  | c :: tl =>
      if char_eq c chplus then tl
      else if char_eq c chminus then c :: tl
      else skip_to_sign tl
  end.

Definition imaginary (num : list ascii) : list ascii :=
  if only_imaginary num then num
  else if only_real num then []
  else skip_to_sign (tl num).

Definition coefficient (num : list ascii) : list ascii :=
  let len := length num in
  if (len =? 1)%nat && char_eq (at_ num 0) chi then [ch1]
  else if (len =? 2)%nat && char_eq (at_ num 0) chminus
          && char_eq (at_ num 1) chi then [chminus; ch1]
  else
    filter (fun c => negb (char_eq c chlpar || char_eq c chrpar
                           || char_eq c chi)) num.

Definition numerator (num : list ascii) : list ascii :=
  let coe := coefficient num in
  let nume :=
    c_str (map (fun c => if char_eq c chslash then chnul else c) coe) in
  if (length nume =? 0)%nat then [ch0] else nume.

(** the [while] loop of [denominator] *)
Fixpoint skip_slash (curpos : list ascii) : list ascii :=
  match curpos with
  | [] => []
  | c :: tl => if char_eq c chslash then tl else skip_slash tl
  end.

Definition denominator (num : list ascii) : list ascii :=
  let coe := coefficient num in
  let denom := skip_slash coe in
  if (length denom =? 0)%nat then [ch1] else denom.

Definition read_input (fuel : nat) (num : list ascii) : result ha_comp :=
  let real_part := real num in
  let imaginary_part := imaginary num in
  ha_comp_create fuel (numerator real_part) (denominator real_part)
    (numerator imaginary_part) (denominator imaginary_part).

End ReadInput.

(* ================================================================== *)
(** * What the representation means *)
(* ================================================================== *)

Definition is_digit (c : ascii) : bool := (48 <=? code c)%nat && (code c <=? 57)%nat.

(** the magnitude denoted by a digit buffer, least significant digit first *)
Fixpoint abs_val (l : list ascii) : Z :=
  match l with
  | [] => 0
  | c :: tl => digit_of_char c + 10 * abs_val tl
  end.

Definition to_Z (n : ha_int) : Z :=
  if sign n then abs_val (digits n) else - abs_val (digits n).

(** a digit buffer in normal form: at least one digit, every character in
    '0'..'9', no redundant leading zero (the last one in storage order) *)
Definition norm (l : list ascii) : bool :=
  (1 <=? length l)%nat
  && forallb is_digit l
  && ((length l =? 1)%nat || negb (char_eq (last l ch0) ch0)).

(** the invariants of a BigInt: a normal digit buffer and no negative zero *)
Definition wf_int (n : ha_int) : bool :=
  norm (digits n) && (sign n || negb (is_zero n)).

Definition pow10 (k : nat) : Z := 10 ^ Z.of_nat k.

(** the strings the specification calls valid: an optional leading '-', one
    or more decimal digits, no superfluous leading zero, and not "-0" *)
Definition valid_decimal (s : list ascii) : Prop :=
  exists (neg : bool) (ds : list ascii),
    s = (if neg then [chminus] else []) ++ ds
    /\ ds <> []
    /\ forallb is_digit ds = true
    /\ (hd ch0 ds = ch0 -> ds = [ch0])
    /\ (neg = true -> ds <> [ch0]).

(** ** Fractions *)

(** the signed numerator and the denominator a fraction denotes *)
Definition frac_num (f : ha_frac) : Z :=
  if nega f then - to_Z (nume f) else to_Z (nume f).

Definition frac_den (f : ha_frac) : Z := to_Z (denom f).

Definition frac_Q (f : ha_frac) : Q := Qmake (frac_num f) (Z.to_pos (frac_den f)).

(** what the arithmetic needs of an operand: two well-formed magnitudes, the
    numerator not negative and the denominator positive *)
Definition frac_ok (f : ha_frac) : Prop :=
  wf_int (nume f) = true /\ wf_int (denom f) = true
  /\ 0 <= to_Z (nume f) /\ 0 < to_Z (denom f).

(** the invariants of a Fraction *)
Definition canonical (f : ha_frac) : Prop :=
  wf_int (nume f) = true /\ wf_int (denom f) = true
  /\ sign (nume f) = true /\ sign (denom f) = true
  /\ 0 < to_Z (denom f)
  /\ Z.gcd (to_Z (nume f)) (to_Z (denom f)) = 1
  /\ (to_Z (nume f) = 0 -> nega f = false /\ denom f = lit "1").

(** fuel that lets every loop of an operation on [n] and [m] finish *)
Definition enough (fuel : nat) (n m : ha_frac) : Prop :=
  (9 <= fuel)%nat /\ to_Z (denom n) * to_Z (denom m) < Z.of_nat fuel.

(** [r] denotes the rational [a / b] *)
Definition denotes (r : ha_frac) (a b : Z) : Prop :=
  frac_num r * b = a * frac_den r.

(** the size of a fraction: numerator plus denominator *)
Definition sz (f : ha_frac) : Z := to_Z (nume f) + to_Z (denom f).

(** fuel for one operation on fractions of sizes [a] and [b] *)
Definition fuel_for (fuel : nat) (bound : Z) : Prop :=
  (9 <= fuel)%nat /\ bound < Z.of_nat fuel.

Definition comp_canonical (c : ha_comp) : Prop :=
  canonical (real c) /\ canonical (ima c).

(** the product of the sizes of the two parts *)
Definition csz (c : ha_comp) : Z := sz (real c) * sz (ima c).

(** ** The written forms of read-input.c *)

Definition minus_if (b : bool) : list ascii := if b then [chminus] else [].

(** an optional denominator, as written and as handed to [ha_frac_create] *)
Definition opt_denom (d : option (list ascii)) : list ascii :=
  match d with Some D => chslash :: D | None => [] end.

Definition denom_or_1 (d : option (list ascii)) : list ascii :=
  match d with Some D => D | None => [ch1] end.

(** a real part: 12, -123, 1/2, -2/3 *)
Definition real_form (neg : bool) (N : list ascii) (d : option (list ascii))
    : list ascii :=
  minus_if neg ++ N ++ opt_denom d.

(** an imaginary part without its sign: i, 3i, (2/3)i, 2/3i; the empty [N]
    stands for the coefficient 1 that is not written *)
Definition ima_body (paren : bool) (N : list ascii) (d : option (list ascii))
    : list ascii :=
  (if paren then [chlpar] else []) ++ N ++ opt_denom d
  ++ (if paren then [chrpar] else []).

Definition ima_form (paren : bool) (N : list ascii) (d : option (list ascii))
    : list ascii :=
  ima_body paren N d ++ [chi].

Definition ima_nume (N : list ascii) : list ascii :=
  match N with [] => [ch1] | _ => N end.

Definition digit_str (N : list ascii) : Prop :=
  N <> [] /\ forallb is_digit N = true.

Definition denom_ok (d : option (list ascii)) : Prop :=
  match d with Some D => digit_str D | None => True end.

Definition ima_ok (paren : bool) (N : list ascii) (d : option (list ascii))
    : Prop :=
  forallb is_digit N = true /\ denom_ok d
  /\ (N = [] -> paren = false /\ d = None).

(** the denominator of a fraction as it is written: left out when it is 1 *)
Definition den_opt (f : ha_frac) : option (list ascii) :=
  if frac_den f =? 1 then None else Some (ha_int_to_str (denom f)).

(** the written form of a complex number with canonical parts *)
Definition comp_text (c : ha_comp) : list ascii :=
  let r := real c in
  let i := ima c in
  let re := real_form (nega r) (ha_int_to_str (nume r)) (den_opt r) in
  let im :=
    ima_form (negb (frac_den i =? 1))
      (if (to_Z (nume i) =? 1) && (frac_den i =? 1) then []
       else ha_int_to_str (nume i))
      (den_opt i) in
  if to_Z (nume i) =? 0 then re
  else if to_Z (nume r) =? 0 then minus_if (nega i) ++ im
  else re ++ [if nega i then chminus else chplus] ++ im.

#[local] Arguments Z.mul : simpl never.
#[local] Arguments Z.add : simpl never.
#[local] Arguments Z.sub : simpl never.
#[local] Arguments Z.opp : simpl never.
#[local] Arguments Z.quot : simpl never.
#[local] Arguments Z.rem : simpl never.
#[local] Arguments Z.pow : simpl never.
#[local] Arguments Z.of_nat : simpl never.
#[local] Arguments Z.ltb : simpl never.
#[local] Arguments Z.eqb : simpl never.
#[local] Arguments Nat.ltb : simpl never.
#[local] Arguments Nat.leb : simpl never.
#[local] Arguments Nat.eqb : simpl never.
#[local] Arguments Nat.sub : simpl never.
#[local] Arguments Nat.div : simpl never.

(* ================================================================== *)
(** * Characters *)
(* ================================================================== *)

Lemma code_inj (a b : ascii) : code a = code b -> a = b.
Proof.
  unfold code; intro H.
  rewrite <- (ascii_nat_embedding a), <- (ascii_nat_embedding b), H.
  reflexivity.
Qed.

Lemma digit_of_char_inj (a b : ascii) :
  digit_of_char a = digit_of_char b -> a = b.
Proof. unfold digit_of_char; intro H; apply code_inj; lia. Qed.

Lemma is_digit_range (c : ascii) :
  is_digit c = true -> 0 <= digit_of_char c <= 9.
Proof.
  unfold is_digit, digit_of_char; intro H.
  apply andb_true_iff in H as [H1 H2].
  apply Nat.leb_le in H1, H2; lia.
Qed.

Lemma digit_cases (d : Z) :
  0 <= d <= 9 ->
  d = 0 \/ d = 1 \/ d = 2 \/ d = 3 \/ d = 4 \/ d = 5 \/ d = 6 \/ d = 7
  \/ d = 8 \/ d = 9.
Proof. lia. Qed.

Lemma digit_char_val (d : Z) :
  0 <= d <= 9 -> digit_of_char (char_of_int (d + 48)) = d.
Proof.
  intro H; apply digit_cases in H.
  repeat (destruct H as [H | H]; [subst d; reflexivity |]).
  subst d; reflexivity.
Qed.

Lemma digit_char_is_digit (d : Z) :
  0 <= d <= 9 -> is_digit (char_of_int (d + 48)) = true.
Proof.
  intro H; apply digit_cases in H.
  repeat (destruct H as [H | H]; [subst d; reflexivity |]).
  subst d; reflexivity.
Qed.

Lemma char_lt_digit (a b : ascii) :
  char_lt a b = (digit_of_char a <? digit_of_char b).
Proof.
  unfold char_lt, digit_of_char.
  destruct (Nat.ltb_spec (code a) (code b)); symmetry;
    [apply Z.ltb_lt | apply Z.ltb_ge]; lia.
Qed.

Lemma char_eq_true (a b : ascii) : char_eq a b = true <-> a = b.
Proof. apply Ascii.eqb_eq. Qed.

Lemma char_eq_false (a b : ascii) : char_eq a b = false <-> a <> b.
Proof. apply Ascii.eqb_neq. Qed.

Lemma char_eq_sym (a b : ascii) : char_eq a b = char_eq b a.
Proof. apply Ascii.eqb_sym. Qed.

Lemma digit_ch0 : digit_of_char ch0 = 0.
Proof. reflexivity. Qed.

Lemma digit_zero_ch0 (c : ascii) : digit_of_char c = 0 -> c = ch0.
Proof. intro H; apply digit_of_char_inj; rewrite H; reflexivity. Qed.

(* ================================================================== *)
(** * Buffers *)
(* ================================================================== *)

Lemma length_upd {A : Type} (l : list A) (i : nat) (x : A) :
  length (upd l i x) = length l.
Proof.
  revert i; induction l as [| y tl IH]; intros [| i]; simpl; auto.
Qed.

Lemma nth_upd_eq {A : Type} (l : list A) (i : nat) (x d : A) :
  (i < length l)%nat -> nth i (upd l i x) d = x.
Proof.
  revert i; induction l as [| y tl IH]; intros [| i] H; simpl in *;
    try lia; auto.
  apply IH; lia.
Qed.

Lemma nth_upd_neq {A : Type} (l : list A) (i j : nat) (x d : A) :
  i <> j -> nth j (upd l i x) d = nth j l d.
Proof.
  revert i j; induction l as [| y tl IH]; intros [| i] [| j] H; simpl;
    auto; try lia; apply IH; lia.
Qed.

Lemma firstn_upd_le {A : Type} (l : list A) (i k : nat) (x : A) :
  (k <= i)%nat -> firstn k (upd l i x) = firstn k l.
Proof.
  revert i k; induction l as [| y tl IH]; intros [| i] [| k] H; simpl;
    auto; try lia.
  f_equal; apply IH; lia.
Qed.

Lemma firstn_upd_S {A : Type} (l : list A) (i : nat) (x : A) :
  (i < length l)%nat -> firstn (S i) (upd l i x) = firstn i l ++ [x].
Proof.
  revert i; induction l as [| y tl IH]; intros [| i] H; simpl in *;
    try lia; auto.
  f_equal; apply IH; lia.
Qed.

Lemma skipn_upd_gt {A : Type} (l : list A) (i k : nat) (x : A) :
  (i < k)%nat -> skipn k (upd l i x) = skipn k l.
Proof.
  revert i k; induction l as [| y tl IH]; intros [| i] [| k] H; simpl;
    auto; try lia.
  apply IH; lia.
Qed.

Lemma forallb_upd {A : Type} (p : A -> bool) (l : list A) (i : nat) (x : A) :
  forallb p l = true -> p x = true -> forallb p (upd l i x) = true.
Proof.
  revert i; induction l as [| y tl IH]; intros [| i] Hl Hx; simpl in *; auto.
  - apply andb_true_iff in Hl as [_ Hl]; rewrite Hx, Hl; reflexivity.
  - apply andb_true_iff in Hl as [Hy Hl]; rewrite Hy; simpl; auto.
Qed.

Lemma forallb_repeat {A : Type} (p : A -> bool) (x : A) (k : nat) :
  p x = true -> forallb p (repeat x k) = true.
Proof. intro H; induction k; simpl; auto; rewrite H; auto. Qed.

Lemma forallb_firstn {A : Type} (p : A -> bool) (l : list A) (k : nat) :
  forallb p l = true -> forallb p (firstn k l) = true.
Proof.
  revert k; induction l as [| y tl IH]; intros [| k] H; simpl in *; auto.
  apply andb_true_iff in H as [Hy H]; rewrite Hy; simpl; auto.
Qed.

Lemma forallb_nth {A : Type} (p : A -> bool) (l : list A) (i : nat) (d : A) :
  forallb p l = true -> (i < length l)%nat -> p (nth i l d) = true.
Proof.
  revert i; induction l as [| y tl IH]; intros [| i] H Hi; simpl in *;
    try lia; apply andb_true_iff in H as [Hy H]; auto.
  apply IH; auto; lia.
Qed.

Lemma firstn_S_nth {A : Type} (l : list A) (i : nat) (d : A) :
  (i < length l)%nat -> firstn (S i) l = firstn i l ++ [nth i l d].
Proof.
  revert i; induction l as [| y tl IH]; intros [| i] H; simpl in *;
    try lia; auto.
  f_equal; apply IH; lia.
Qed.

(* ================================================================== *)
(** * Magnitudes *)
(* ================================================================== *)

Lemma pow10_0 : pow10 0 = 1.
Proof. reflexivity. Qed.

Lemma pow10_S (k : nat) : pow10 (S k) = 10 * pow10 k.
Proof.
  unfold pow10; rewrite Nat2Z.inj_succ, Z.pow_succ_r by lia; reflexivity.
Qed.

Lemma pow10_pos (k : nat) : 0 < pow10 k.
Proof. unfold pow10; apply Z.pow_pos_nonneg; lia. Qed.

Lemma pow10_add (a b : nat) : pow10 (a + b) = pow10 a * pow10 b.
Proof.
  unfold pow10; rewrite Nat2Z.inj_add, Z.pow_add_r by lia; reflexivity.
Qed.

Lemma pow10_le (a b : nat) : (a <= b)%nat -> pow10 a <= pow10 b.
Proof. intro H; unfold pow10; apply Z.pow_le_mono_r; lia. Qed.

Lemma abs_val_app (l1 l2 : list ascii) :
  abs_val (l1 ++ l2) = abs_val l1 + pow10 (length l1) * abs_val l2.
Proof.
  induction l1 as [| c tl IH]; simpl abs_val; simpl length.
  - rewrite pow10_0; lia.
  - rewrite IH, pow10_S; lia.
Qed.

Lemma abs_val_bounds (l : list ascii) :
  forallb is_digit l = true -> 0 <= abs_val l < pow10 (length l).
Proof.
  induction l as [| c tl IH]; simpl; intro H.
  - rewrite pow10_0; lia.
  - apply andb_true_iff in H as [Hc H].
    apply is_digit_range in Hc; specialize (IH H).
    rewrite pow10_S; lia.
Qed.

Lemma abs_val_repeat0 (k : nat) : abs_val (repeat ch0 k) = 0.
Proof. induction k; simpl; auto; rewrite IHk; reflexivity. Qed.

Lemma abs_val_upd (l : list ascii) (i : nat) (c : ascii) :
  (i < length l)%nat ->
  abs_val (upd l i c)
  = abs_val l + (digit_of_char c - digit_of_char (at_ l i)) * pow10 i.
Proof.
  unfold at_; revert i; induction l as [| y tl IH]; intros [| i] H;
    simpl in *; try lia.
  - rewrite pow10_0; lia.
  - rewrite IH, pow10_S by lia; lia.
Qed.

Lemma abs_val_firstn_S (l : list ascii) (j : nat) :
  abs_val (firstn (S j) l)
  = abs_val (firstn j l) + get_digit l (length l) j * pow10 j.
Proof.
  unfold get_digit.
  destruct (Nat.leb_spec (length l) j) as [H | H].
  - rewrite !firstn_all2 by lia; lia.
  - rewrite (firstn_S_nth l j chnul H), abs_val_app; simpl.
    rewrite length_firstn, Nat.min_l by lia.
    unfold at_; lia.
Qed.

Lemma get_digit_range (l : list ascii) (j : nat) :
  forallb is_digit l = true -> 0 <= get_digit l (length l) j <= 9.
Proof.
  intro H; unfold get_digit.
  destruct (Nat.leb_spec (length l) j); [lia |].
  apply is_digit_range, forallb_nth; auto.
Qed.

Lemma abs_val_cons (c : ascii) (tl : list ascii) :
  abs_val (c :: tl) = digit_of_char c + 10 * abs_val tl.
Proof. reflexivity. Qed.

Lemma abs_val_single (c : ascii) : abs_val [c] = digit_of_char c.
Proof. simpl; lia. Qed.

Lemma pow10_lt_inv (a b : nat) (v : Z) :
  pow10 a <= v -> v < pow10 b -> (a < b)%nat.
Proof.
  intros H1 H2.
  destruct (Nat.lt_ge_cases a b) as [H | H]; auto.
  apply pow10_le in H; lia.
Qed.

Lemma norm_parts (l : list ascii) :
  norm l = true ->
  (1 <= length l)%nat /\ forallb is_digit l = true
  /\ (length l = 1%nat \/ last l ch0 <> ch0).
Proof.
  unfold norm; intro H.
  apply andb_true_iff in H as [H H3]; apply andb_true_iff in H as [H1 H2].
  apply Nat.leb_le in H1; repeat split; auto.
  apply orb_true_iff in H3 as [H3 | H3].
  - left; apply Nat.eqb_eq; auto.
  - right; apply char_eq_false; apply negb_true_iff; auto.
Qed.

Lemma norm_intro (l : list ascii) :
  (1 <= length l)%nat -> forallb is_digit l = true ->
  (length l = 1%nat \/ last l ch0 <> ch0) -> norm l = true.
Proof.
  intros H1 H2 H3; unfold norm.
  apply andb_true_iff; split; [apply andb_true_iff; split |]; auto.
  - apply Nat.leb_le; auto.
  - apply orb_true_iff; destruct H3 as [H3 | H3].
    + left; apply Nat.eqb_eq; auto.
    + right; apply negb_true_iff, char_eq_false; auto.
Qed.

Lemma top_digit_lower (l : list ascii) :
  forallb is_digit l = true -> l <> [] -> last l ch0 <> ch0 ->
  pow10 (length l - 1) <= abs_val l.
Proof.
  intros Hd Hne Hl.
  rewrite (app_removelast_last ch0 Hne) in Hd |- *.
  rewrite forallb_app in Hd; apply andb_true_iff in Hd as [Hd1 Hd2].
  simpl in Hd2; rewrite andb_true_r in Hd2.
  rewrite abs_val_app, length_app; simpl length.
  replace (length (removelast l) + 1 - 1)%nat with (length (removelast l)) by lia.
  rewrite abs_val_cons; simpl abs_val.
  pose proof (abs_val_bounds _ Hd1) as Hb.
  pose proof (is_digit_range _ Hd2) as Hr.
  assert (digit_of_char (last l ch0) <> 0)
    by (intro Hz; apply Hl, digit_zero_ch0; auto).
  pose proof (pow10_pos (length (removelast l))); nia.
Qed.

Lemma norm_nonzero_lower (l : list ascii) :
  norm l = true -> abs_val l <> 0 -> pow10 (length l - 1) <= abs_val l.
Proof.
  intros H Hnz; apply norm_parts in H as (H1 & H2 & [H3 | H3]).
  - pose proof (abs_val_bounds _ H2); rewrite H3; simpl.
    change (pow10 (1 - 1)) with 1; lia.
  - apply top_digit_lower; auto; destruct l; simpl in *; [lia | discriminate].
Qed.

Lemma norm_zero (l : list ascii) :
  norm l = true -> abs_val l = 0 -> l = [ch0].
Proof.
  intros H Hz; pose proof H as H'.
  apply norm_parts in H as (H1 & H2 & [H3 | H3]).
  - destruct l as [| c [| c' tl]]; simpl in *; try lia.
    f_equal; apply digit_zero_ch0; lia.
  - assert (Hne : l <> []) by (destruct l; simpl in *; [lia | discriminate]).
    pose proof (top_digit_lower _ H2 Hne H3).
    pose proof (pow10_pos (length l - 1)); lia.
Qed.

Lemma same_length_unique (l1 l2 : list ascii) :
  forallb is_digit l1 = true -> forallb is_digit l2 = true ->
  length l1 = length l2 -> abs_val l1 = abs_val l2 -> l1 = l2.
Proof.
  revert l2; induction l1 as [| a tl IH]; intros [| b tl2] H1 H2 Hl Hv;
    simpl in Hl; try discriminate; auto.
  simpl in H1, H2.
  apply andb_true_iff in H1 as [Ha H1]; apply andb_true_iff in H2 as [Hb H2].
  rewrite !abs_val_cons in Hv.
  apply is_digit_range in Ha, Hb.
  assert (digit_of_char a = digit_of_char b /\ abs_val tl = abs_val tl2)
    as [Hab Ht] by lia.
  f_equal; [apply digit_of_char_inj; auto | apply IH; auto].
Qed.

Lemma norm_unique (l1 l2 : list ascii) :
  norm l1 = true -> norm l2 = true -> abs_val l1 = abs_val l2 -> l1 = l2.
Proof.
  intros H1 H2 Hv.
  destruct (Z.eq_dec (abs_val l1) 0) as [Hz | Hnz].
  - rewrite (norm_zero l1), (norm_zero l2); auto; lia.
  - pose proof (norm_nonzero_lower _ H1 Hnz) as L1.
    assert (Hnz2 : abs_val l2 <> 0) by lia.
    pose proof (norm_nonzero_lower _ H2 Hnz2) as L2.
    apply norm_parts in H1 as (A1 & B1 & _), H2 as (A2 & B2 & _).
    pose proof (abs_val_bounds _ B1) as U1.
    pose proof (abs_val_bounds _ B2) as U2.
    assert (length l1 - 1 < length l2)%nat
      by (apply (pow10_lt_inv _ _ (abs_val l1)); lia).
    assert (length l2 - 1 < length l1)%nat
      by (apply (pow10_lt_inv _ _ (abs_val l2)); lia).
    apply same_length_unique; auto; lia.
Qed.

(** ** Comparison loops *)

Lemma eq_loop_firstn (nd md : list ascii) (k : nat) :
  (k <= length nd)%nat -> (k <= length md)%nat ->
  (eq_loop nd md k = true <-> firstn k nd = firstn k md).
Proof.
  induction k as [| i IH]; intros Hn Hm.
  - simpl; tauto.
  - cbn [eq_loop].
    rewrite (firstn_S_nth nd i chnul), (firstn_S_nth md i chnul) by lia.
    fold (at_ nd i); fold (at_ md i).
    destruct (char_eq (at_ nd i) (at_ md i)) eqn:E; simpl.
    + apply char_eq_true in E; rewrite E, IH by lia.
      split; [intros ->; reflexivity | intro H; apply app_inj_tail in H; tauto].
    + apply char_eq_false in E; split; [discriminate |].
      intro H; apply app_inj_tail in H; tauto.
Qed.

Lemma ha_int_eq_true (n m : ha_int) : ha_int_eq n m = true <-> n = m.
Proof.
  unfold ha_int_eq; destruct n as [s1 d1], m as [s2 d2]; simpl.
  destruct (Bool.eqb s1 s2) eqn:Es; simpl.
  - apply eqb_prop in Es; subst s2.
    destruct (Nat.eqb_spec (length d1) (length d2)) as [El | El]; simpl.
    + rewrite eq_loop_firstn by lia.
      rewrite firstn_all, El, firstn_all.
      split; [intros ->; reflexivity | intro H; injection H; auto].
    + split; [discriminate | intro H; injection H; intros; subst; lia].
  - split; [discriminate |].
    intro H; injection H; intros; subst.
    rewrite eqb_reflx in Es; discriminate.
Qed.

Lemma eq_loop_sym (nd md : list ascii) (k : nat) :
  eq_loop nd md k = eq_loop md nd k.
Proof.
  induction k as [| i IH]; simpl; auto.
  rewrite (char_eq_sym (at_ nd i)), IH; reflexivity.
Qed.

Lemma abs_gt_loop_trichotomy (nd md : list ascii) (k : nat) :
  abs_gt_loop nd md k = negb (abs_gt_loop md nd k) && negb (eq_loop nd md k).
Proof.
  induction k as [| i IH]; simpl; auto.
  unfold char_lt, char_eq.
  destruct (Nat.ltb_spec (code (at_ md i)) (code (at_ nd i))) as [H1 | H1];
  destruct (Nat.ltb_spec (code (at_ nd i)) (code (at_ md i))) as [H2 | H2];
    try lia.
  - destruct (Ascii.eqb_spec (at_ nd i) (at_ md i)) as [E | E]; simpl; auto.
    rewrite E in H1; lia.
  - assert (E : at_ nd i = at_ md i) by (apply code_inj; lia).
    rewrite E, Ascii.eqb_refl; simpl; apply IH.
Qed.

Lemma abs_gt_loop_val (nd md : list ascii) (k : nat) :
  forallb is_digit nd = true -> forallb is_digit md = true ->
  (k <= length nd)%nat -> (k <= length md)%nat ->
  abs_gt_loop nd md k = (abs_val (firstn k md) <? abs_val (firstn k nd)).
Proof.
  intros Dn Dm; induction k as [| i IH]; intros Hn Hm.
  - reflexivity.
  - cbn [abs_gt_loop].
    rewrite !abs_val_firstn_S, !char_lt_digit, IH by lia.
    unfold get_digit.
    destruct (Nat.leb_spec (length nd) i); [lia |].
    destruct (Nat.leb_spec (length md) i); [lia |].
    pose proof (abs_val_bounds _ (forallb_firstn _ _ i Dn)) as Bn.
    pose proof (abs_val_bounds _ (forallb_firstn _ _ i Dm)) as Bm.
    rewrite length_firstn, Nat.min_l in Bn, Bm by lia.
    pose proof (pow10_pos i).
    destruct (Z.ltb_spec (digit_of_char (at_ md i)) (digit_of_char (at_ nd i)));
      [symmetry; apply Z.ltb_lt; nia |].
    destruct (Z.ltb_spec (digit_of_char (at_ nd i)) (digit_of_char (at_ md i)));
      [symmetry; apply Z.ltb_ge; nia |].
    assert (E : digit_of_char (at_ nd i) = digit_of_char (at_ md i)) by lia.
    rewrite E.
    destruct (Z.ltb_spec (abs_val (firstn i md)) (abs_val (firstn i nd)));
      symmetry; [apply Z.ltb_lt | apply Z.ltb_ge]; lia.
Qed.

Lemma abs_gt_val (n m : ha_int) :
  norm (digits n) = true -> norm (digits m) = true ->
  abs_gt n m = (abs_val (digits m) <? abs_val (digits n)).
Proof.
  intros Hn Hm; unfold abs_gt.
  pose proof Hn as Hn'; pose proof Hm as Hm'.
  apply norm_parts in Hn' as (A1 & B1 & C1), Hm' as (A2 & B2 & C2).
  pose proof (abs_val_bounds _ B1) as U1.
  pose proof (abs_val_bounds _ B2) as U2.
  destruct (Nat.ltb_spec (length (digits m)) (length (digits n))) as [H | H].
  - symmetry; apply Z.ltb_lt.
    destruct C1 as [C1 | C1]; [lia |].
    assert (Hne : digits n <> [])
      by (destruct (digits n); simpl in *; [lia | discriminate]).
    pose proof (top_digit_lower _ B1 Hne C1).
    pose proof (pow10_le (length (digits m)) (length (digits n) - 1)); lia.
  - destruct (Nat.ltb_spec (length (digits n)) (length (digits m))) as [H' | H'].
    + symmetry; apply Z.ltb_ge.
      destruct C2 as [C2 | C2]; [lia |].
      assert (Hne : digits m <> [])
        by (destruct (digits m); simpl in *; [lia | discriminate]).
      pose proof (top_digit_lower _ B2 Hne C2).
      pose proof (pow10_le (length (digits n)) (length (digits m) - 1)); lia.
    + rewrite abs_gt_loop_val by (auto; lia).
      assert (E : length (digits n) = length (digits m)) by lia.
      rewrite firstn_all, E, firstn_all; reflexivity.
Qed.

(** ** remove_leading_zeros *)

Lemma last_firstn (l : list ascii) (k : nat) (d : ascii) :
  (1 <= k <= length l)%nat -> last (firstn k l) d = nth (k - 1) l d.
Proof.
  intros [H1 H2].
  replace k with (S (k - 1)) at 1 by lia.
  rewrite (firstn_S_nth l (k - 1) d) by lia.
  apply last_last.
Qed.

Lemma rlz_len_SS (num : list ascii) (len : nat) :
  rlz_len num (S (S len))
  = if char_eq (at_ num (S len)) ch0 then rlz_len num (S len) else S (S len).
Proof. reflexivity. Qed.

Lemma rlz_len_spec (num : list ascii) (len : nat) :
  (1 <= len <= length num)%nat ->
  forallb is_digit num = true ->
  let k := rlz_len num len in
  (1 <= k <= len)%nat
  /\ abs_val (firstn k num) = abs_val (firstn len num)
  /\ (k = 1%nat \/ nth (k - 1) num ch0 <> ch0).
Proof.
  intros Hlen Hd; induction len as [| len IH]; [lia |].
  destruct len as [| len].
  - simpl; repeat split; auto.
  - rewrite rlz_len_SS.
    destruct (char_eq (at_ num (S len)) ch0) eqn:E.
    + apply char_eq_true in E.
      destruct IH as (A & B & C); [lia |].
      repeat split; try lia; auto.
      rewrite B, (abs_val_firstn_S num (S len)).
      unfold get_digit; destruct (Nat.leb_spec (length num) (S len)); [lia |].
      rewrite E, digit_ch0; lia.
    + apply char_eq_false in E.
      repeat split; try lia.
      right; replace (S (S len) - 1)%nat with (S len) by lia.
      unfold at_ in E; rewrite (nth_indep num chnul ch0) in E by lia; auto.
Qed.

Lemma remove_leading_zeros_spec (num : list ascii) :
  (1 <= length num)%nat -> forallb is_digit num = true ->
  norm (remove_leading_zeros num) = true
  /\ abs_val (remove_leading_zeros num) = abs_val num.
Proof.
  intros Hlen Hd; unfold remove_leading_zeros.
  destruct (rlz_len_spec num (length num)) as (A & B & C); auto; try lia.
  split.
  - apply norm_intro.
    + rewrite length_firstn; lia.
    + apply forallb_firstn; auto.
    + rewrite length_firstn, Nat.min_l by lia.
      destruct C as [C | C]; [left; auto | right].
      rewrite last_firstn by lia; auto.
  - rewrite B, firstn_all; reflexivity.
Qed.

(** ** abs_add *)

Lemma length_init (len : nat) : length (init_new_int len) = len.
Proof. apply repeat_length. Qed.

Lemma digits_init (len : nat) : forallb is_digit (init_new_int len) = true.
Proof. apply forallb_repeat; reflexivity. Qed.

Lemma quot_rem_10 (s : Z) :
  0 <= s -> s = 10 * (Z.quot s 10) + Z.rem s 10 /\ 0 <= Z.rem s 10 < 10.
Proof.
  intro H; split; [apply Z.quot_rem'; lia | apply Z.rem_bound_pos; lia].
Qed.

Lemma abs_add_loop_inv (nd md : list ascii) :
  forallb is_digit nd = true -> forallb is_digit md = true ->
  forall (cnt j : nat) (carry : Z) (new : list ascii),
    (j + cnt <= length new)%nat ->
    forallb is_digit new = true ->
    0 <= carry <= 1 ->
    abs_val (firstn j new) + carry * pow10 j
    = abs_val (firstn j nd) + abs_val (firstn j md) ->
    let new' := abs_add_loop nd md cnt j carry new in
    exists carry',
      0 <= carry' <= 1
      /\ length new' = length new
      /\ forallb is_digit new' = true
      /\ abs_val (firstn (j + cnt) new') + carry' * pow10 (j + cnt)
         = abs_val (firstn (j + cnt) nd) + abs_val (firstn (j + cnt) md).
Proof.
  intros Dn Dm; induction cnt as [| cnt IH]; intros j carry new Hlen Dnew Hc Hinv.
  - simpl; exists carry; rewrite Nat.add_0_r; auto.
  - cbn [abs_add_loop].
    set (sum := carry + get_digit md (length md) j + get_digit nd (length nd) j).
    pose proof (get_digit_range nd j Dn) as Rn.
    pose proof (get_digit_range md j Dm) as Rm.
    assert (Hs : 0 <= sum) by (unfold sum; lia).
    destruct (quot_rem_10 sum Hs) as [Hqr Hr].
    specialize (IH (S j) (Z.quot sum 10)
                  (upd new j (char_of_int (Z.rem sum 10 + 48)))).
    destruct IH as (carry' & A & B & C & D).
    + rewrite length_upd; lia.
    + apply forallb_upd; auto; apply digit_char_is_digit; lia.
    + unfold sum in *; lia.
    + rewrite firstn_upd_S, abs_val_app by lia.
      rewrite length_firstn, Nat.min_l by lia.
      rewrite abs_val_single, digit_char_val by lia.
      rewrite !abs_val_firstn_S, pow10_S.
      fold sum in Hqr; unfold sum in Hqr |- *; nia.
    + exists carry'; rewrite length_upd in B.
      replace (j + S cnt)%nat with (S j + cnt)%nat by lia; auto.
Qed.

Lemma abs_add_spec (n m : ha_int) :
  norm (digits n) = true -> norm (digits m) = true ->
  norm (digits (abs_add n m)) = true
  /\ abs_val (digits (abs_add n m)) = abs_val (digits n) + abs_val (digits m).
Proof.
  intros Hn Hm.
  apply norm_parts in Hn as (A1 & B1 & _), Hm as (A2 & B2 & _).
  unfold abs_add; cbn [digits].
  set (L := (Nat.max (length (digits n)) (length (digits m)) + 1)%nat).
  destruct (abs_add_loop_inv (digits n) (digits m) B1 B2 L 0 0 (init_new_int L))
    as (carry' & A & B & C & D).
  - rewrite length_init; lia.
  - apply digits_init.
  - lia.
  - simpl; lia.
  - rewrite length_init in B.
    simpl Nat.add in D.
    set (new' := abs_add_loop (digits n) (digits m) L 0 0 (init_new_int L)) in *.
    destruct (remove_leading_zeros_spec new') as [N V]; auto; [lia |].
    split; auto.
    rewrite V.
    rewrite <- B, firstn_all in D.
    rewrite !firstn_all2 in D by lia.
    pose proof (abs_val_bounds _ B1) as U1.
    pose proof (abs_val_bounds _ B2) as U2.
    pose proof (abs_val_bounds _ C) as U3.
    assert (pow10 (length (digits n)) <= pow10 (L - 1))
      by (apply pow10_le; lia).
    assert (pow10 (length (digits m)) <= pow10 (L - 1))
      by (apply pow10_le; lia).
    assert (E : pow10 (length new') = 10 * pow10 (L - 1))
      by (rewrite B; replace L with (S (L - 1)) at 1 by lia; apply pow10_S).
    assert (carry' = 0) by nia.
    subst carry'; lia.
Qed.

(** ** abs_big_sub_small *)

Lemma abs_sub_loop_inv (big small : list ascii) :
  forallb is_digit big = true -> forallb is_digit small = true ->
  forall (cnt i : nat) (carry : Z) (new : list ascii),
    (i + cnt <= length new)%nat ->
    forallb is_digit new = true ->
    -1 <= carry <= 0 ->
    abs_val (firstn i new) + carry * pow10 i
    = abs_val (firstn i big) - abs_val (firstn i small) ->
    let new' := abs_sub_loop big small cnt i carry new in
    exists carry',
      -1 <= carry' <= 0
      /\ length new' = length new
      /\ forallb is_digit new' = true
      /\ abs_val (firstn (i + cnt) new') + carry' * pow10 (i + cnt)
         = abs_val (firstn (i + cnt) big) - abs_val (firstn (i + cnt) small).
Proof.
  intros Db Ds; induction cnt as [| cnt IH]; intros i carry new Hlen Dnew Hc Hinv.
  - simpl; exists carry; rewrite Nat.add_0_r; auto.
  - cbn [abs_sub_loop].
    set (sub := carry + get_digit big (length big) i
                - get_digit small (length small) i).
    pose proof (get_digit_range big i Db) as Rb.
    pose proof (get_digit_range small i Ds) as Rs.
    set (sub' := if sub <? 0 then sub + 10 else sub).
    set (carry1 := if sub <? 0 then -1 else 0).
    assert (Hs : 0 <= sub' <= 9 /\ sub = sub' + 10 * carry1 /\ -1 <= carry1 <= 0).
    { unfold sub', carry1; destruct (Z.ltb_spec sub 0); unfold sub in *; lia. }
    destruct Hs as (Hs1 & Hs2 & Hs3).
    destruct (quot_rem_10 sub' (proj1 Hs1)) as [Hqr Hr].
    assert (Hrem : Z.rem sub' 10 = sub').
    { apply Z.rem_small; lia. }
    specialize (IH (S i) carry1 (upd new i (char_of_int (Z.rem sub' 10 + 48)))).
    destruct IH as (carry' & A & B & C & D).
    + rewrite length_upd; lia.
    + apply forallb_upd; auto; apply digit_char_is_digit; lia.
    + lia.
    + rewrite firstn_upd_S, abs_val_app by lia.
      rewrite length_firstn, Nat.min_l by lia.
      rewrite abs_val_single, digit_char_val by lia.
      rewrite !abs_val_firstn_S, pow10_S, Hrem.
      unfold sub in Hs2; nia.
    + exists carry'; rewrite length_upd in B.
      replace (i + S cnt)%nat with (S i + cnt)%nat by lia; auto.
Qed.

Lemma abs_big_sub_small_spec (n m : ha_int) :
  norm (digits n) = true -> norm (digits m) = true ->
  norm (digits (abs_big_sub_small n m)) = true
  /\ abs_val (digits (abs_big_sub_small n m))
     = Z.abs (abs_val (digits n) - abs_val (digits m)).
Proof.
  intros Hn Hm.
  pose proof (abs_gt_val n m Hn Hm) as G.
  apply norm_parts in Hn as (A1 & B1 & _), Hm as (A2 & B2 & _).
  unfold abs_big_sub_small; cbn [digits].
  set (L := Nat.max (length (digits n)) (length (digits m))).
  set (big := if abs_gt n m then digits n else digits m).
  set (small := if abs_gt n m then digits m else digits n).
  assert (Hbs : forallb is_digit big = true /\ forallb is_digit small = true
                /\ (length big <= L)%nat /\ (length small <= L)%nat
                /\ abs_val small <= abs_val big
                /\ abs_val big - abs_val small
                   = Z.abs (abs_val (digits n) - abs_val (digits m))).
  { unfold big, small, L; rewrite G.
    destruct (Z.ltb_spec (abs_val (digits m)) (abs_val (digits n)));
      repeat split; auto; lia. }
  destruct Hbs as (Db & Ds & Lb & Ls & Hle & Habs).
  destruct (abs_sub_loop_inv big small Db Ds L 0 0 (init_new_int L))
    as (carry' & A & B & C & D).
  - rewrite length_init; lia.
  - apply digits_init.
  - lia.
  - simpl; lia.
  - rewrite length_init in B.
    simpl Nat.add in D.
    set (new' := abs_sub_loop big small L 0 0 (init_new_int L)) in *.
    destruct (remove_leading_zeros_spec new') as [N V]; auto; [lia |].
    split; auto.
    rewrite V, <- Habs.
    rewrite <- B, firstn_all in D.
    rewrite !firstn_all2 in D by lia.
    pose proof (abs_val_bounds _ C) as U3.
    pose proof (pow10_pos (length new')).
    assert (carry' = 0) by nia.
    subst carry'; lia.
Qed.

(** ** Well-formed big integers *)

Lemma is_zero_val (n : ha_int) :
  norm (digits n) = true -> is_zero n = (abs_val (digits n) =? 0).
Proof.
  intro H; unfold is_zero, at_.
  destruct (Z.eqb_spec (abs_val (digits n)) 0) as [E | E].
  - rewrite (norm_zero _ H E); reflexivity.
  - destruct (digits n) as [| c [| c' tl]]; simpl in *; auto.
    destruct (char_eq c ch0) eqn:Ec; auto.
    apply char_eq_true in Ec; subst c; exfalso; apply E; reflexivity.
Qed.

Lemma wf_int_parts (n : ha_int) :
  wf_int n = true ->
  norm (digits n) = true /\ (sign n = false -> abs_val (digits n) <> 0).
Proof.
  unfold wf_int; intro H; apply andb_true_iff in H as [H1 H2].
  split; auto; intros Hs He.
  rewrite Hs, (is_zero_val _ H1) in H2; simpl in H2.
  apply negb_true_iff, Z.eqb_neq in H2; auto.
Qed.

Lemma wf_int_intro (s : bool) (d : list ascii) :
  norm d = true -> (s = false -> abs_val d <> 0) -> wf_int (mk_int s d) = true.
Proof.
  intros H1 H2; unfold wf_int; cbn [digits sign].
  rewrite H1, (is_zero_val (mk_int s d) H1); cbn [digits]; simpl.
  destruct s; simpl; auto.
  apply negb_true_iff, Z.eqb_neq; auto.
Qed.

Lemma norm_val_nonneg (l : list ascii) : norm l = true -> 0 <= abs_val l.
Proof.
  intro H; apply norm_parts in H as (_ & H & _).
  apply abs_val_bounds in H; lia.
Qed.

Lemma wf_int_unique (n m : ha_int) :
  wf_int n = true -> wf_int m = true -> to_Z n = to_Z m -> n = m.
Proof.
  intros Hn Hm; apply wf_int_parts in Hn as [Nn Zn], Hm as [Nm Zm].
  pose proof (norm_val_nonneg _ Nn); pose proof (norm_val_nonneg _ Nm).
  unfold to_Z; destruct n as [s1 d1], m as [s2 d2]; cbn [sign digits] in *.
  destruct s1, s2; intro E;
    try (f_equal; apply norm_unique; auto; lia);
    try (specialize (Zn eq_refl)); try (specialize (Zm eq_refl)); lia.
Qed.

Lemma to_Z_sign (n : ha_int) :
  wf_int n = true -> sign n = (0 <=? to_Z n).
Proof.
  intro H; apply wf_int_parts in H as [Nn Zn].
  pose proof (norm_val_nonneg _ Nn).
  unfold to_Z; destruct (sign n); symmetry;
    [apply Z.leb_le | apply Z.leb_gt]; lia.
Qed.

Lemma to_Z_abs (n : ha_int) :
  wf_int n = true -> abs_val (digits n) = Z.abs (to_Z n).
Proof.
  intro H; apply wf_int_parts in H as [Nn Zn].
  pose proof (norm_val_nonneg _ Nn).
  unfold to_Z; destruct (sign n); lia.
Qed.

Lemma ha_int_copy_id (n : ha_int) : ha_int_copy n = n.
Proof. destruct n; reflexivity. Qed.

(** ** ha_int_add, ha_int_sub *)

Ltac sign_cases n m Nn Nm :=
  rewrite ?(abs_gt_val n m Nn Nm), ?(abs_gt_val m n Nm Nn);
  repeat match goal with
         | |- context [Z.ltb ?a ?b] => destruct (Z.ltb_spec a b)
         end;
  cbn [negb sign digits].

Lemma ha_int_add_spec (n m : ha_int) :
  wf_int n = true -> wf_int m = true ->
  wf_int (ha_int_add n m) = true
  /\ to_Z (ha_int_add n m) = to_Z n + to_Z m.
Proof.
  intros Hn Hm; apply wf_int_parts in Hn as [Nn Zn], Hm as [Nm Zm].
  pose proof (norm_val_nonneg _ Nn); pose proof (norm_val_nonneg _ Nm).
  destruct (abs_add_spec n m Nn Nm) as [Na Va].
  destruct (abs_big_sub_small_spec n m Nn Nm) as [Ns Vs].
  unfold ha_int_add, to_Z.
  destruct (sign n) eqn:Sn, (sign m) eqn:Sm; cbn [Bool.eqb sign digits];
    try (specialize (Zn eq_refl)); try (specialize (Zm eq_refl));
    sign_cases n m Nn Nm;
    (split; [first [ apply wf_int_intro; [assumption | intros; lia]
                   | apply wf_int_intro; [apply Ns | intros; discriminate]
                   | destruct (abs_big_sub_small n m) as [s d]; cbn in *;
                     apply wf_int_intro; auto; intros; discriminate ]
            | try (unfold abs_big_sub_small in *; cbn [sign digits] in * ); lia ]).
Qed.

Lemma ha_int_sub_spec (n m : ha_int) :
  wf_int n = true -> wf_int m = true ->
  wf_int (ha_int_sub n m) = true
  /\ to_Z (ha_int_sub n m) = to_Z n - to_Z m.
Proof.
  intros Hn Hm; apply wf_int_parts in Hn as [Nn Zn], Hm as [Nm Zm].
  pose proof (norm_val_nonneg _ Nn); pose proof (norm_val_nonneg _ Nm).
  destruct (abs_add_spec n m Nn Nm) as [Na Va].
  destruct (abs_big_sub_small_spec n m Nn Nm) as [Ns Vs].
  unfold ha_int_sub, to_Z.
  destruct (sign n) eqn:Sn, (sign m) eqn:Sm; cbn [Bool.eqb sign digits negb];
    try (specialize (Zn eq_refl)); try (specialize (Zm eq_refl));
    sign_cases n m Nn Nm;
    (split; [first [ apply wf_int_intro; [assumption | intros; lia]
                   | apply wf_int_intro; [apply Ns | intros; discriminate]
                   | destruct (abs_big_sub_small n m) as [s d]; cbn in *;
                     apply wf_int_intro; auto; intros; discriminate ]
            | try (unfold abs_big_sub_small in *; cbn [sign digits] in * ); lia ]).
Qed.

(** ** ha_int_mult *)

Lemma mult_row_inv (nd md : list ascii) (L i : nat) :
  forallb is_digit nd = true -> forallb is_digit md = true ->
  (i < length nd)%nat ->
  forall (cnt j : nat) (carry : Z) (new : list ascii),
    length new = L ->
    (i + j + cnt < L)%nat ->
    forallb is_digit new = true ->
    0 <= carry <= 9 ->
    let '(new', carry') := mult_row nd md L i cnt j carry new in
    0 <= carry' <= 9
    /\ length new' = L
    /\ forallb is_digit new' = true
    /\ (forall p, (i + j + cnt <= p)%nat -> at_ new' p = at_ new p)
    /\ abs_val new' + carry' * pow10 (i + j + cnt)
       = abs_val new + carry * pow10 (i + j)
         + digit_of_char (at_ nd i) * pow10 i
           * (abs_val (firstn (j + cnt) md) - abs_val (firstn j md)).
Proof.
  intros Dn Dm Hi; induction cnt as [| cnt IH]; intros j carry new Hlen Hb Dnew Hc.
  - cbn [mult_row]; rewrite !Nat.add_0_r; repeat split; auto; try lia.
  - cbn [mult_row].
    set (mult := get_digit nd (length nd) i * get_digit md (length md) j
                 + get_digit new L (i + j) + carry).
    pose proof (get_digit_range nd i Dn) as Rn.
    pose proof (get_digit_range md j Dm) as Rm.
    pose proof (get_digit_range new (i + j) Dnew) as Rw; rewrite Hlen in Rw.
    assert (Hs : 0 <= mult <= 99) by (unfold mult; nia).
    destruct (quot_rem_10 mult (proj1 Hs)) as [Hqr Hr].
    specialize (IH (S j) (Z.quot mult 10)
                  (upd new (i + j) (char_of_int (Z.rem mult 10 + 48)))).
    destruct (mult_row nd md L i cnt (S j) (Z.quot mult 10)
                (upd new (i + j) (char_of_int (Z.rem mult 10 + 48))))
      as [new' carry'].
    destruct IH as (A & B & C & D & E).
    + rewrite length_upd; auto.
    + lia.
    + apply forallb_upd; auto; apply digit_char_is_digit; lia.
    + lia.
    + replace (i + j + S cnt)%nat with (i + S j + cnt)%nat by lia.
      repeat split; auto; try lia.
      * intros p Hp; rewrite D by lia; apply nth_upd_neq; lia.
      * rewrite E, abs_val_upd, digit_char_val by lia.
        replace (j + S cnt)%nat with (S j + cnt)%nat by lia.
        rewrite (abs_val_firstn_S md j).
        replace (i + S j)%nat with (S (i + j)) by lia.
        rewrite pow10_S.
        assert (G1 : get_digit nd (length nd) i = digit_of_char (at_ nd i)).
        { unfold get_digit; destruct (Nat.leb_spec (length nd) i); [lia | auto]. }
        assert (G2 : get_digit new L (i + j) = digit_of_char (at_ new (i + j))).
        { unfold get_digit; destruct (Nat.leb_spec L (i + j)); [lia | auto]. }
        assert (G3 : pow10 (i + j) = pow10 i * pow10 j) by apply pow10_add.
        pose proof (eq_refl mult) as Hm; unfold mult at 2 in Hm.
        rewrite G1, G2 in Hm; rewrite G3.
        set (X := abs_val (firstn (S j + cnt) md)) in *.
        set (Y := abs_val (firstn j md)) in *.
        set (dn := digit_of_char (at_ nd i)) in *.
        set (dw := digit_of_char (at_ new (i + j))) in *.
        set (dm := get_digit md (length md) j) in *.
        set (q := Z.quot mult 10) in *.
        set (r := Z.rem mult 10) in *.
        replace (abs_val new + (r - dw) * (pow10 i * pow10 j)
                 + q * (10 * (pow10 i * pow10 j))
                 + dn * pow10 i * (X - (Y + dm * pow10 j)))
          with (abs_val new + (10 * q + r - dw - dn * dm) * (pow10 i * pow10 j)
                + dn * pow10 i * (X - Y)) by ring.
        replace (10 * q + r - dw - dn * dm) with carry by lia.
        reflexivity.
Qed.

Lemma mult_rows_inv (nd md : list ascii) (L : nat) :
  forallb is_digit nd = true -> forallb is_digit md = true ->
  L = (length nd + length md)%nat ->
  forall (cnt i : nat) (new : list ascii),
    (i + cnt <= length nd)%nat ->
    length new = L ->
    forallb is_digit new = true ->
    (forall p, (length md + i <= p)%nat -> (p < L)%nat -> at_ new p = ch0) ->
    abs_val new = abs_val (firstn i nd) * abs_val md ->
    let new' := mult_rows nd md L cnt i new in
    length new' = L
    /\ forallb is_digit new' = true
    /\ abs_val new' = abs_val (firstn (i + cnt) nd) * abs_val md.
Proof.
  intros Dn Dm HL; induction cnt as [| cnt IH]; intros i new Hi Hlen Dnew Hz Hv.
  - cbn [mult_rows]; rewrite Nat.add_0_r; auto.
  - cbn [mult_rows].
    pose proof (mult_row_inv nd md L i Dn Dm ltac:(lia) (length md) 0 0 new
                  Hlen ltac:(lia) Dnew ltac:(lia)) as R.
    destruct (mult_row nd md L i (length md) 0 0 new) as [new1 carry].
    destruct R as (A & B & C & D & E).
    rewrite !Nat.add_0_r in *.
    replace (i + S cnt)%nat with (S i + cnt)%nat by lia.
    apply IH.
    + lia.
    + rewrite length_upd; auto.
    + apply forallb_upd; auto; apply digit_char_is_digit; lia.
    + intros p Hp1 Hp2; unfold at_; rewrite nth_upd_neq by lia.
      fold (at_ new1 p); rewrite D by lia; apply Hz; lia.
    + rewrite abs_val_upd, digit_char_val by lia.
      rewrite D, Hz, digit_ch0 by lia.
      rewrite (abs_val_firstn_S nd i).
      assert (G1 : get_digit nd (length nd) i = digit_of_char (at_ nd i)).
      { unfold get_digit; destruct (Nat.leb_spec (length nd) i); [lia | auto]. }
      rewrite G1.
      cbn [Nat.add] in E.
      rewrite firstn_all in E; simpl firstn in E; simpl abs_val in E.
      replace (length md + i)%nat with (i + length md)%nat by lia.
      rewrite Hv in E; nia.
Qed.

Lemma is_zero_to_Z (n : ha_int) :
  wf_int n = true -> is_zero n = (to_Z n =? 0).
Proof.
  intro H; apply wf_int_parts in H as [Nn _].
  rewrite (is_zero_val _ Nn); unfold to_Z; destruct (sign n); auto.
  destruct (Z.eqb_spec (abs_val (digits n)) 0);
    symmetry; [apply Z.eqb_eq | apply Z.eqb_neq]; lia.
Qed.

Lemma ha_int_mult_spec (n m : ha_int) :
  wf_int n = true -> wf_int m = true ->
  wf_int (ha_int_mult n m) = true
  /\ to_Z (ha_int_mult n m) = to_Z n * to_Z m.
Proof.
  intros Hn Hm.
  pose proof (is_zero_to_Z _ Hn) as Zn'; pose proof (is_zero_to_Z _ Hm) as Zm'.
  pose proof Hn as Hn'; pose proof Hm as Hm'.
  apply wf_int_parts in Hn' as [Nn Zn], Hm' as [Nm Zm].
  pose proof (norm_val_nonneg _ Nn); pose proof (norm_val_nonneg _ Nm).
  pose proof Nn as Nn'; pose proof Nm as Nm'.
  apply norm_parts in Nn' as (A1 & B1 & _), Nm' as (A2 & B2 & _).
  set (L := (length (digits n) + length (digits m))%nat).
  destruct (mult_rows_inv (digits n) (digits m) L B1 B2 eq_refl
              (length (digits n)) 0 (init_new_int L)) as (A & B & C).
  - lia.
  - apply length_init.
  - apply digits_init.
  - intros p _ Hp; unfold at_, init_new_int; rewrite nth_repeat_lt; auto.
  - unfold init_new_int; rewrite abs_val_repeat0; simpl; lia.
  - simpl Nat.add in C; rewrite firstn_all in C.
    set (new' := mult_rows (digits n) (digits m) L (length (digits n)) 0
                   (init_new_int L)) in *.
    destruct (remove_leading_zeros_spec new') as [N V]; auto; [lia |].
    assert (Hd : digits (ha_int_mult n m) = remove_leading_zeros new')
      by reflexivity.
    assert (Hs : sign (ha_int_mult n m) = mult_div_sign n m) by reflexivity.
    assert (Hv : to_Z (ha_int_mult n m) = to_Z n * to_Z m).
    { unfold to_Z at 1; rewrite Hd, Hs, V, C.
      unfold mult_div_sign; rewrite Zn', Zm'.
      unfold to_Z in *.
      destruct (sign n), (sign m); cbn [Bool.eqb];
        repeat match goal with
               | |- context [Z.eqb ?a ?b] => destruct (Z.eqb_spec a b)
               end; cbn [orb]; nia. }
    split; auto.
    destruct (ha_int_mult n m) as [s d] eqn:Em; cbn [sign digits] in *.
    apply wf_int_intro; [rewrite Hd; auto |].
    intro Hf; subst s d.
    rewrite V, C.
    unfold mult_div_sign in Hf; rewrite Zn', Zm' in Hf.
    unfold to_Z in *.
    destruct (sign n), (sign m); cbn [Bool.eqb] in Hf;
      repeat match type of Hf with
             | context [Z.eqb ?a ?b] => destruct (Z.eqb_spec a b)
             end; cbn [orb] in Hf; try discriminate; nia.
Qed.

(** ** ha_int_create after ha_int_to_str *)

Lemma existsb_not_digit (l : list ascii) :
  forallb is_digit l = true ->
  existsb (fun c => char_lt c ch0 || char_lt ch9 c) l = false.
Proof.
  induction l as [| c tl IH]; simpl; auto; intro H.
  apply andb_true_iff in H as [Hc H]; rewrite (IH H), orb_false_r.
  unfold is_digit in Hc; apply andb_true_iff in Hc as [H1 H2].
  apply Nat.leb_le in H1, H2; unfold char_lt.
  change (code ch0) with 48%nat; change (code ch9) with 57%nat.
  apply orb_false_iff; split; apply Nat.ltb_ge; lia.
Qed.

Lemma forallb_rev {A : Type} (p : A -> bool) (l : list A) :
  forallb p (rev l) = forallb p l.
Proof.
  induction l as [| c tl IH]; simpl; auto.
  rewrite forallb_app, IH; simpl; rewrite andb_true_r; apply andb_comm.
Qed.

Lemma at_rev_0 (l : list ascii) : l <> [] -> at_ (rev l) 0 = last l ch0.
Proof.
  intro H; rewrite (app_removelast_last ch0 H) at 1.
  rewrite rev_app_distr; reflexivity.
Qed.

Lemma norm_last_digit (l : list ascii) :
  norm l = true -> is_digit (last l ch0) = true.
Proof.
  intro H; apply norm_parts in H as (A & B & _).
  assert (Hne : l <> []) by (destruct l; simpl in *; [lia | discriminate]).
  rewrite (app_removelast_last ch0 Hne), forallb_app in B.
  apply andb_true_iff in B as [_ B]; simpl in B.
  rewrite andb_true_r in B; auto.
Qed.

Lemma norm_last_nonzero (l : list ascii) :
  norm l = true -> abs_val l <> 0 -> last l ch0 <> ch0.
Proof.
  intros H Hnz; pose proof H as H'.
  apply norm_parts in H' as (A & B & [C | C]); auto.
  destruct l as [| c [| c' tl]]; simpl in *; try lia.
  intro E; subst c; apply Hnz; reflexivity.
Qed.

Lemma is_digit_not_minus (c : ascii) :
  is_digit c = true -> char_eq c chminus = false.
Proof.
  intro H; apply char_eq_false; intro E; subst c; discriminate.
Qed.

Lemma create_to_str (n : ha_int) :
  wf_int n = true -> ha_int_create (ha_int_to_str n) = Some n.
Proof.
  intro H; apply wf_int_parts in H as [Nn Zn].
  pose proof (norm_last_digit _ Nn) as Ld.
  pose proof Nn as Nn'; apply norm_parts in Nn' as (A & B & C).
  assert (Hne : digits n <> [])
    by (destruct (digits n); simpl in *; [lia | discriminate]).
  destruct n as [s d]; cbn [sign digits] in *.
  unfold ha_int_to_str, ha_int_create; cbn [sign digits].
  destruct s; cbn [app].
  - rewrite length_rev, at_rev_0 by auto.
    destruct (Nat.eqb_spec (length d) 0); [lia |].
    rewrite (is_digit_not_minus _ Ld); cbn [andb].
    replace (char_eq (last d ch0) ch0 && (1 <? length d)%nat) with false.
    + cbn [skipn]; rewrite existsb_not_digit by (rewrite forallb_rev; auto).
      rewrite rev_involutive; reflexivity.
    + symmetry; apply andb_false_iff.
      destruct C as [C | C]; [right; rewrite C; reflexivity |].
      left; apply char_eq_false; auto.
  - specialize (Zn eq_refl).
    pose proof (norm_last_nonzero _ Nn Zn) as Lnz.
    cbn [length at_ nth]; fold (at_ (rev d) 0); rewrite at_rev_0 by auto.
    destruct (Nat.eqb_spec (S (length (rev d))) 0); [lia |].
    change (char_eq chminus chminus) with true; cbn [andb].
    rewrite length_rev.
    destruct (Nat.eqb_spec (S (length d)) 1); [lia |]; cbn [orb].
    pose proof (is_digit_range _ Ld) as R.
    assert (digit_of_char (last d ch0) <> 0)
      by (intro E; apply Lnz, digit_zero_ch0; auto).
    rewrite !char_lt_digit.
    change (digit_of_char ch1) with 1; change (digit_of_char ch9) with 9.
    destruct (Z.ltb_spec (digit_of_char (last d ch0)) 1); [lia |].
    destruct (Z.ltb_spec 9 (digit_of_char (last d ch0))); [lia |].
    cbn [orb]; change (char_eq chminus ch0) with false; cbn [andb skipn].
    rewrite existsb_not_digit by (rewrite forallb_rev; auto).
    rewrite rev_involutive; reflexivity.
Qed.

(** ** ha_int_quotient *)

Lemma wf_mk_pos (n : ha_int) :
  wf_int n = true ->
  wf_int (mk_int true (digits n)) = true
  /\ to_Z (mk_int true (digits n)) = Z.abs (to_Z n).
Proof.
  intro H; pose proof (to_Z_abs _ H) as E.
  apply wf_int_parts in H as [Nn _].
  split; [apply wf_int_intro; auto; discriminate | exact E].
Qed.

Lemma ten_to_power_create (k : nat) :
  exists multiplier,
    ha_int_create (ch1 :: repeat ch0 k) = Some multiplier
    /\ wf_int multiplier = true /\ to_Z multiplier = pow10 k.
Proof.
  set (mu := mk_int true (repeat ch0 k ++ [ch1])).
  assert (Hn : norm (digits mu) = true).
  { apply norm_intro; cbn [mu digits].
    - rewrite length_app; simpl; lia.
    - rewrite forallb_app, forallb_repeat by reflexivity; reflexivity.
    - right; rewrite last_last; discriminate. }
  assert (Hwf : wf_int mu = true) by (apply wf_int_intro; auto; discriminate).
  exists mu; repeat split; auto.
  - rewrite <- (create_to_str mu Hwf); f_equal.
    unfold ha_int_to_str; cbn [mu sign digits app].
    rewrite rev_app_distr, rev_repeat; reflexivity.
  - unfold to_Z; cbn [mu sign digits].
    rewrite abs_val_app, abs_val_repeat0, repeat_length, abs_val_single.
    change (digit_of_char ch1) with 1; lia.
Qed.

Lemma sub_loop_spec (D : ha_int) (fuel : nat) :
  wf_int D = true -> 0 < to_Z D ->
  forall (dividend : ha_int) (q : Z),
    wf_int dividend = true -> 0 <= to_Z dividend ->
    match sub_loop fuel D dividend q with
    | Value (dividend', q') =>
        wf_int dividend' = true
        /\ to_Z dividend' = to_Z dividend mod to_Z D
        /\ q' = q + to_Z dividend / to_Z D
    | OutOfFuel => Z.of_nat fuel < to_Z dividend / to_Z D
    | _ => False
    end.
Proof.
  intros HD Hpos; induction fuel as [| fuel IH]; intros dividend q Hw Hv.
  - cbn [sub_loop].
    pose proof (wf_int_parts _ HD) as [ND _].
    pose proof (wf_int_parts _ Hw) as [Nd _].
    rewrite (abs_gt_val D dividend ND Nd), !to_Z_abs by auto.
    destruct (Z.ltb_spec (Z.abs (to_Z dividend)) (Z.abs (to_Z D))) as [L | L].
    + rewrite Z.mod_small, Z.div_small by lia; repeat split; auto; lia.
    + apply Z.div_str_pos; lia.
  - cbn [sub_loop].
    pose proof (wf_int_parts _ HD) as [ND _].
    pose proof (wf_int_parts _ Hw) as [Nd _].
    rewrite (abs_gt_val D dividend ND Nd), !to_Z_abs by auto.
    destruct (Z.ltb_spec (Z.abs (to_Z dividend)) (Z.abs (to_Z D))) as [L | L].
    + rewrite Z.mod_small, Z.div_small by lia; repeat split; auto; lia.
    + destruct (ha_int_sub_spec dividend D Hw HD) as [Ws Vs].
      specialize (IH (ha_int_sub dividend D) (q + 1) Ws ltac:(lia)).
      assert (E1 : (to_Z dividend - to_Z D) / to_Z D = to_Z dividend / to_Z D - 1).
      { replace (to_Z dividend - to_Z D) with (to_Z dividend + (-1) * to_Z D) by lia.
        rewrite Z.div_add by lia; lia. }
      assert (E2 : (to_Z dividend - to_Z D) mod to_Z D = to_Z dividend mod to_Z D).
      { replace (to_Z dividend - to_Z D) with (to_Z dividend + (-1) * to_Z D) by lia.
        apply Z.mod_add; lia. }
      destruct (sub_loop fuel D (ha_int_sub dividend D) (q + 1))
        as [[dv' q'] | | |]; auto.
      * rewrite Vs, E1, E2 in IH; destruct IH as (A & B & C).
        repeat split; auto; lia.
      * rewrite Vs, E1 in IH; lia.
Qed.

Lemma div_split (v M P : Z) :
  0 < M -> 0 < P -> v / M = v / (M * P) * P + (v mod (M * P)) / M.
Proof.
  intros HM HP.
  rewrite (Z.div_mod v (M * P)) at 1 by nia.
  replace (M * P * (v / (M * P)) + v mod (M * P))
    with (v mod (M * P) + (v / (M * P) * P) * M) by ring.
  rewrite Z.div_add by lia; lia.
Qed.

Lemma quotient_loop_spec (fuel : nat) (m : ha_int) :
  wf_int m = true -> to_Z m <> 0 ->
  forall (cnt dividend_len idx : nat) (dividend : ha_int) (new : list ascii),
    wf_int dividend = true -> 0 <= to_Z dividend ->
    (dividend_len - length (digits m) = cnt - 1)%nat ->
    to_Z dividend < Z.abs (to_Z m) * pow10 cnt ->
    (idx + cnt <= length new)%nat ->
    forallb is_digit new = true ->
    match quotient_loop fuel m cnt dividend_len idx dividend new with
    | Value (new', idx') =>
        idx' = (idx + cnt)%nat
        /\ length new' = length new
        /\ forallb is_digit new' = true
        /\ skipn idx' new' = skipn idx' new
        /\ abs_val (rev (firstn idx' new'))
           = abs_val (rev (firstn idx new)) * pow10 cnt
             + to_Z dividend / Z.abs (to_Z m)
    | OutOfFuel => (fuel < 9)%nat
    | _ => False
    end.
Proof.
  intros Hm Hmz; induction cnt as [| c IH];
    intros dividend_len idx dividend new Hw Hv Hlen Hlt Hidx Dnew.
  - cbn [quotient_loop]; rewrite pow10_0 in *.
    rewrite Nat.add_0_r, Z.div_small by lia.
    repeat split; auto; lia.
  - cbn [quotient_loop].
    replace (dividend_len - length (digits m))%nat with c by lia.
    destruct (ten_to_power_create c) as (mu & Hc & Wmu & Vmu).
    rewrite Hc.
    destruct (ha_int_mult_spec m mu Hm Wmu) as [Wp Vp].
    destruct (wf_mk_pos _ Wp) as [WD VD].
    set (D := mk_int true (digits (ha_int_mult m mu))) in *.
    rewrite Vp, Vmu in VD.
    pose proof (pow10_pos c) as Pc.
    assert (VD' : to_Z D = Z.abs (to_Z m) * pow10 c)
      by (rewrite VD, Z.abs_mul; f_equal; lia).
    assert (HD : 0 < to_Z D) by nia.
    pose proof (sub_loop_spec D fuel WD HD dividend 0 Hw Hv) as S.
    rewrite pow10_S in Hlt.
    assert (Hq : 0 <= to_Z dividend / to_Z D <= 9).
    { split; [apply Z.div_pos; lia |].
      assert (to_Z dividend / to_Z D < 10); [| lia].
      apply Z.div_lt_upper_bound; nia. }
    destruct (sub_loop fuel D dividend 0) as [[dv' q'] | | |];
      try contradiction; [| lia].
    destruct S as (Wd & Vd & Eq); rewrite Z.add_0_l in Eq; subst q'.
    pose proof (Z.mod_pos_bound (to_Z dividend) (to_Z D) HD) as Mb.
    specialize (IH (dividend_len - 1)%nat (S idx) dv'
                  (upd new idx (char_of_int (to_Z dividend / to_Z D + 48)))
                  Wd ltac:(lia) ltac:(lia) ltac:(lia)
                  ltac:(rewrite length_upd; lia)
                  ltac:(apply forallb_upd; auto; apply digit_char_is_digit; lia)).
    destruct (quotient_loop fuel m c (dividend_len - 1) (S idx) dv'
                (upd new idx (char_of_int (to_Z dividend / to_Z D + 48))))
      as [[new' idx'] | | |]; try contradiction; auto.
    destruct IH as (A & B & C & E & F).
    rewrite length_upd in B.
    repeat split; auto; try lia.
    + rewrite E; apply skipn_upd_gt; lia.
    + rewrite F, firstn_upd_S, rev_app_distr by lia.
      cbn [rev app]; rewrite abs_val_cons, digit_char_val by lia.
      rewrite Vd, VD', pow10_S.
      rewrite (div_split (to_Z dividend) (Z.abs (to_Z m)) (pow10 c)) by lia.
      ring.
Qed.

(** the in-place reversal of the first [idx] characters *)

Lemma reverse_loop_at (new : list ascii) (idx : nat) :
  (idx <= length new)%nat ->
  forall (cnt k : nat) (cur : list ascii),
    (2 * (k + cnt) <= idx)%nat ->
    length cur = length new ->
    (forall p,
        at_ cur p
        = if ((p <? k) || ((idx - 1 - k <? p) && (p <? idx)))%nat
          then at_ new (idx - 1 - p) else at_ new p) ->
    let r := reverse_loop cur idx cnt k in
    length r = length new
    /\ forall p,
        at_ r p
        = if ((p <? k + cnt) || ((idx - 1 - (k + cnt) <? p) && (p <? idx)))%nat
          then at_ new (idx - 1 - p) else at_ new p.
Proof.
  intros Hidx; induction cnt as [| c IH]; intros k cur Hk Hlen Hat.
  - cbn [reverse_loop]; rewrite Nat.add_0_r; auto.
  - cbn [reverse_loop].
    replace (k + S c)%nat with (S k + c)%nat by lia.
    apply IH; [lia | rewrite !length_upd; auto |].
    intro p.
    assert (Hk1 : at_ cur k = at_ new k).
    { rewrite Hat.
      destruct (Nat.ltb_spec k k); [lia |].
      destruct (Nat.ltb_spec (idx - 1 - k) k); [lia |]; reflexivity. }
    assert (Hk2 : at_ cur (idx - 1 - k) = at_ new (idx - 1 - k)).
    { rewrite Hat.
      destruct (Nat.ltb_spec (idx - 1 - k) k); [lia |].
      destruct (Nat.ltb_spec (idx - 1 - k) (idx - 1 - k)); [lia |]; reflexivity. }
    unfold at_ at 1.
    destruct (Nat.eq_dec p (idx - 1 - k)) as [E | E].
    + subst p; rewrite nth_upd_eq by (rewrite length_upd; lia).
      rewrite Hk1.
      destruct (Nat.ltb_spec (idx - 1 - k) (S k)); [lia |].
      destruct (Nat.ltb_spec (idx - 1 - S k) (idx - 1 - k)); [| lia].
      destruct (Nat.ltb_spec (idx - 1 - k) idx); [| lia].
      cbn [orb andb]; f_equal; lia.
    + rewrite nth_upd_neq by lia.
      destruct (Nat.eq_dec p k) as [E' | E'].
      * subst p; rewrite nth_upd_eq by lia.
        rewrite Hk2.
        destruct (Nat.ltb_spec k (S k)); [| lia]; reflexivity.
      * rewrite nth_upd_neq by lia.
        fold (at_ cur p); rewrite Hat.
        destruct (Nat.ltb_spec p k), (Nat.ltb_spec p (S k)),
          (Nat.ltb_spec (idx - 1 - k) p), (Nat.ltb_spec (idx - 1 - S k) p),
          (Nat.ltb_spec p idx); cbn [orb andb]; try reflexivity; lia.
Qed.

Lemma reverse_loop_rev (new : list ascii) (idx : nat) :
  (idx <= length new)%nat ->
  reverse_loop new idx (idx / 2) 0 = rev (firstn idx new) ++ skipn idx new.
Proof.
  intro Hidx.
  pose proof (Nat.div_mod_eq idx 2) as Hdm.
  pose proof (Nat.mod_upper_bound idx 2 ltac:(lia)) as Hmb.
  destruct (reverse_loop_at new idx Hidx (idx / 2) 0 new) as [A B].
  - lia.
  - reflexivity.
  - intro p; destruct (Nat.ltb_spec p 0); [lia |].
    destruct (Nat.ltb_spec (idx - 1 - 0) p), (Nat.ltb_spec p idx);
      cbn [orb andb]; try reflexivity; lia.
  - cbn [Nat.add] in B.
    apply (nth_ext _ _ chnul chnul).
    + rewrite A, length_app, length_rev, length_firstn, length_skipn; lia.
    + intros p Hp; fold (at_ (reverse_loop new idx (idx / 2) 0) p).
      rewrite B.
      destruct (Nat.lt_ge_cases p idx) as [Hlt | Hge].
      * rewrite app_nth1 by (rewrite length_rev, length_firstn; lia).
        rewrite rev_nth by (rewrite length_firstn; lia).
        rewrite length_firstn, Nat.min_l, nth_firstn by lia.
        destruct (Nat.ltb_spec (idx - S p) idx); [| lia].
        destruct (Nat.ltb_spec p (idx / 2)),
          (Nat.ltb_spec (idx - 1 - idx / 2) p), (Nat.ltb_spec p idx);
          cbn [orb andb]; unfold at_; f_equal; lia.
      * rewrite app_nth2 by (rewrite length_rev, length_firstn; lia).
        rewrite length_rev, length_firstn, Nat.min_l, nth_skipn by lia.
        destruct (Nat.ltb_spec p (idx / 2)),
          (Nat.ltb_spec (idx - 1 - idx / 2) p), (Nat.ltb_spec p idx);
          cbn [orb andb]; unfold at_; f_equal; lia.
Qed.

Lemma abs_val_skipn_zeros (k n : nat) : abs_val (skipn k (repeat ch0 n)) = 0.
Proof.
  revert k; induction n as [| n IH]; intros [| k]; simpl; auto.
  rewrite abs_val_repeat0; reflexivity.
Qed.

Lemma forallb_skipn {A : Type} (p : A -> bool) (l : list A) (k : nat) :
  forallb p l = true -> forallb p (skipn k l) = true.
Proof.
  intro H; rewrite <- (firstn_skipn k l), forallb_app in H.
  apply andb_true_iff in H; tauto.
Qed.

Lemma norm_length_le (l1 l2 : list ascii) :
  norm l1 = true -> norm l2 = true -> abs_val l1 <= abs_val l2 ->
  (length l1 <= length l2)%nat.
Proof.
  intros H1 H2 Hle.
  pose proof (norm_parts _ H1) as (A1 & B1 & _).
  pose proof (norm_parts _ H2) as (A2 & B2 & _).
  destruct (Z.eq_dec (abs_val l1) 0) as [Hz | Hnz].
  - rewrite (norm_zero _ H1 Hz); simpl; lia.
  - pose proof (norm_nonzero_lower _ H1 Hnz).
    pose proof (abs_val_bounds _ B2).
    assert (length l1 - 1 < length l2)%nat
      by (apply (pow10_lt_inv _ _ (abs_val l1)); lia).
    lia.
Qed.

Lemma quot_sign_abs (a b : Z) :
  b <> 0 ->
  Z.quot a b
  = if (a =? 0) || Bool.eqb (0 <=? a) (0 <=? b)
    then Z.abs a / Z.abs b else - (Z.abs a / Z.abs b).
Proof.
  intro Hb; rewrite Z.quot_div by auto.
  destruct (Z.eqb_spec a 0) as [-> | Ha]; cbn [orb].
  - simpl; rewrite Z.div_0_l by lia; reflexivity.
  - destruct (Z.leb_spec 0 a), (Z.leb_spec 0 b); cbn [Bool.eqb];
      rewrite ?(Z.sgn_pos a), ?(Z.sgn_neg a), ?(Z.sgn_pos b), ?(Z.sgn_neg b)
        by lia; lia.
Qed.

Lemma ha_int_quotient_spec (fuel : nat) (n m : ha_int) :
  wf_int n = true -> wf_int m = true -> to_Z m <> 0 ->
  match ha_int_quotient fuel n m with
  | Value q => wf_int q = true /\ to_Z q = Z.quot (to_Z n) (to_Z m)
  | OutOfFuel => (fuel < 9)%nat
  | _ => False
  end.
Proof.
  intros Hn Hm Hmz.
  unfold ha_int_quotient.
  rewrite (is_zero_to_Z m Hm).
  destruct (Z.eqb_spec (to_Z m) 0) as [E | _]; [contradiction |].
  rewrite ha_int_copy_id; cbn [digits].
  destruct (wf_mk_pos n Hn) as [Wd Vd].
  pose proof (wf_int_parts _ Hn) as [Nn _].
  pose proof (wf_int_parts _ Hm) as [Nm _].
  pose proof (norm_parts _ Nn) as (A1 & B1 & _).
  pose proof (norm_parts _ Nm) as (A2 & B2 & _).
  pose proof (to_Z_abs _ Hn) as An; pose proof (to_Z_abs _ Hm) as Am.
  pose proof (abs_gt_val m n Nm Nn) as G; rewrite An, Am in G.
  set (Lb := if abs_gt m n then 1%nat else length (digits n)).
  assert (Enew : (if abs_gt m n then [ch0] else init_new_int (length (digits n)))
                 = init_new_int Lb)
    by (unfold Lb; destruct (abs_gt m n); reflexivity).
  rewrite Enew.
  set (cnt := (length (digits n) + 1 - length (digits m))%nat).
  assert (Hcnt : (cnt <= Lb)%nat
                 /\ Z.abs (to_Z n) < Z.abs (to_Z m) * pow10 cnt).
  { pose proof (pow10_pos cnt).
    unfold Lb; rewrite G.
    destruct (Z.ltb_spec (Z.abs (to_Z n)) (Z.abs (to_Z m))) as [L | L].
    - split; [| nia].
      assert (length (digits n) <= length (digits m))%nat
        by (apply norm_length_le; auto; lia).
      unfold cnt; lia.
    - assert (length (digits m) <= length (digits n))%nat
        by (apply norm_length_le; auto; lia).
      split; [unfold cnt; lia |].
      assert (Hnz : abs_val (digits m) <> 0) by lia.
      pose proof (norm_nonzero_lower _ Nm Hnz) as Lm.
      pose proof (abs_val_bounds _ B1) as Un.
      replace (length (digits n)) with (length (digits m) - 1 + cnt)%nat in Un
        by (unfold cnt; lia).
      rewrite pow10_add in Un.
      pose proof (pow10_pos (length (digits m) - 1)); nia. }
  destruct Hcnt as [Hc1 Hc2].
  pose proof (quotient_loop_spec fuel m Hm Hmz cnt (length (digits n)) 0
                (mk_int true (digits n)) (init_new_int Lb) Wd
                ltac:(lia) ltac:(unfold cnt; lia) ltac:(lia)
                ltac:(rewrite length_init; lia) (digits_init Lb)) as Q.
  destruct (quotient_loop fuel m cnt (length (digits n)) 0
              (mk_int true (digits n)) (init_new_int Lb))
    as [[new' idx'] | | |]; auto.
  destruct Q as (I1 & I2 & I3 & I4 & I5).
  rewrite length_init in I2.
  rewrite reverse_loop_rev by lia.
  set (buf := rev (firstn idx' new') ++ skipn idx' new').
  assert (Hb1 : (1 <= length buf)%nat).
  { unfold buf; rewrite length_app, length_rev, length_firstn, length_skipn.
    unfold Lb in *; destruct (abs_gt m n); lia. }
  assert (Hb2 : forallb is_digit buf = true).
  { unfold buf; rewrite forallb_app, forallb_rev.
    rewrite forallb_firstn, forallb_skipn; auto. }
  assert (Hb3 : abs_val buf = Z.abs (to_Z n) / Z.abs (to_Z m)).
  { unfold buf; rewrite abs_val_app, I4, I5.
    unfold init_new_int; rewrite abs_val_skipn_zeros.
    simpl firstn; simpl rev; simpl abs_val; rewrite Vd; lia. }
  destruct (remove_leading_zeros_spec buf Hb1 Hb2) as [N V].
  rewrite Hb3 in V.
  rewrite (quot_sign_abs _ _ Hmz).
  assert (Hdiv : 0 <= Z.abs (to_Z n) / Z.abs (to_Z m))
    by (apply Z.div_pos; lia).
  rewrite G.
  destruct (Z.ltb_spec (Z.abs (to_Z n)) (Z.abs (to_Z m))) as [L | L].
  - rewrite Z.div_small in * by lia.
    split; [apply wf_int_intro; auto; discriminate |].
    unfold to_Z at 1; cbn [sign digits]; rewrite V.
    destruct ((to_Z n =? 0) || Bool.eqb (0 <=? to_Z n) (0 <=? to_Z m));
      reflexivity.
  - assert (Hge : 1 <= Z.abs (to_Z n) / Z.abs (to_Z m)).
    { apply Z.div_le_lower_bound; lia. }
    unfold mult_div_sign.
    rewrite (is_zero_to_Z n Hn), (is_zero_to_Z m Hm).
    rewrite (to_Z_sign n Hn), (to_Z_sign m Hm).
    destruct (Z.eqb_spec (to_Z n) 0) as [E | E]; [lia |].
    destruct (Z.eqb_spec (to_Z m) 0) as [E' | E']; [lia |].
    cbn [orb].
    split.
    + apply wf_int_intro; auto; intros; lia.
    + unfold to_Z at 1; cbn [sign digits]; rewrite V.
      destruct (Bool.eqb (0 <=? to_Z n) (0 <=? to_Z m)); reflexivity.
Qed.

Lemma ha_int_remainder_spec (fuel : nat) (n m : ha_int) :
  wf_int n = true -> wf_int m = true -> to_Z m <> 0 ->
  match ha_int_remainder fuel n m with
  | Value r => wf_int r = true /\ to_Z r = Z.rem (to_Z n) (to_Z m)
  | OutOfFuel => (fuel < 9)%nat
  | _ => False
  end.
Proof.
  intros Hn Hm Hmz; unfold ha_int_remainder.
  rewrite (is_zero_to_Z m Hm).
  destruct (Z.eqb_spec (to_Z m) 0) as [E | _]; [contradiction |].
  pose proof (ha_int_quotient_spec fuel n m Hn Hm Hmz) as Q.
  destruct (ha_int_quotient fuel n m) as [q | | |]; cbn [use]; auto.
  destruct Q as [Wq Vq].
  destruct (ha_int_mult_spec m q Hm Wq) as [Wp Vp].
  destruct (ha_int_sub_spec n (ha_int_mult m q) Hn Wp) as [Ws Vs].
  split; auto.
  rewrite Vs, Vp, Vq.
  pose proof (Z.quot_rem' (to_Z n) (to_Z m)); lia.
Qed.

(** ** Strings accepted by ha_int_create *)

Lemma create_inv (s : list ascii) (v : ha_int) :
  ha_int_create s = Some v ->
  exists (neg : bool) (ds : list ascii),
    s = (if neg then [chminus] else []) ++ ds
    /\ ds <> []
    /\ forallb is_digit ds = true
    /\ (hd ch0 ds = ch0 -> ds = [ch0])
    /\ (neg = true -> ds <> [ch0])
    /\ v = mk_int (negb neg) (rev ds).
Proof.
  unfold ha_int_create.
  destruct s as [| c tl]; [discriminate |].
  cbn [length at_ nth].
  destruct (Nat.eqb_spec (S (length tl)) 0); [lia |].
  assert (Hdig : forall l,
             existsb (fun c => char_lt c ch0 || char_lt ch9 c) l = false ->
             forallb is_digit l = true).
  { induction l as [| a l IH]; simpl; auto; intro H.
    apply orb_false_iff in H as [Ha Hl]; rewrite (IH Hl), andb_true_r.
    apply orb_false_iff in Ha as [H1 H2].
    unfold char_lt in *; apply Nat.ltb_ge in H1, H2.
    change (code ch0) with 48%nat in *; change (code ch9) with 57%nat in *.
    unfold is_digit; apply andb_true_iff; split; apply Nat.leb_le; lia. }
  destruct (char_eq c chminus) eqn:Ec.
  - apply char_eq_true in Ec; subst c; cbn [andb].
    destruct (Nat.eqb_spec (S (length tl)) 1) as [E1 | E1]; [discriminate |].
    cbn [orb].
    destruct (char_lt (nth 0 tl chnul) ch1) eqn:L1; [discriminate |].
    destruct (char_lt ch9 (nth 0 tl chnul)) eqn:L2; [discriminate |].
    change (char_eq chminus ch0) with false; cbn [andb orb skipn].
    destruct (existsb _ tl) eqn:Ex; [discriminate |].
    intro H; injection H as <-.
    exists true, tl; cbn [negb app].
    destruct tl as [| a tl']; [simpl in E1; lia |].
    cbn [nth] in L1; unfold char_lt in L1; apply Nat.ltb_ge in L1.
    change (code ch1) with 49%nat in L1.
    assert (Ha : a <> ch0) by (intro E; subst a; vm_compute in L1; lia).
    repeat split; auto; try discriminate.
    + cbn [hd]; intro E; contradiction.
    + intros _ E; injection E; auto.
  - cbn [andb skipn].
    destruct (char_eq c ch0 && (1 <? S (length tl))%nat) eqn:Ez;
      [discriminate |].
    destruct (existsb _ (c :: tl)) eqn:Ex; [discriminate |].
    intro H; injection H as <-.
    exists false, (c :: tl); cbn [negb app].
    repeat split; auto; try discriminate.
    cbn [hd]; intro E; subst c.
    change (char_eq ch0 ch0) with true in Ez; cbn [andb] in Ez.
    apply Nat.ltb_ge in Ez; destruct tl; [reflexivity | simpl in Ez; lia].
Qed.

Lemma valid_build (neg : bool) (ds : list ascii) :
  ds <> [] -> forallb is_digit ds = true ->
  (hd ch0 ds = ch0 -> ds = [ch0]) -> (neg = true -> ds <> [ch0]) ->
  wf_int (mk_int (negb neg) (rev ds)) = true
  /\ ha_int_to_str (mk_int (negb neg) (rev ds))
     = (if neg then [chminus] else []) ++ ds.
Proof.
  intros Hne Hd Hz Hn.
  assert (Hl : last (rev ds) ch0 = hd ch0 ds).
  { destruct ds as [| a tl]; [contradiction |]; simpl; apply last_last. }
  assert (Nr : norm (rev ds) = true).
  { apply norm_intro.
    - rewrite length_rev; destruct ds; [contradiction | simpl; lia].
    - rewrite forallb_rev; auto.
    - destruct (Ascii.eqb_spec (hd ch0 ds) ch0) as [E | E].
      + left; rewrite (Hz E); reflexivity.
      + right; rewrite Hl; auto. }
  split.
  - apply wf_int_intro; auto.
    intros Hs Hv; destruct neg; [| discriminate].
    apply (Hn eq_refl).
    apply (norm_zero _ Nr) in Hv.
    rewrite <- (rev_involutive ds), Hv; reflexivity.
  - unfold ha_int_to_str; cbn [sign digits].
    rewrite rev_involutive; destruct neg; reflexivity.
Qed.

Lemma create_wf (s : list ascii) (v : ha_int) :
  ha_int_create s = Some v -> wf_int v = true /\ ha_int_to_str v = s.
Proof.
  intro H; apply create_inv in H as (neg & ds & Hs & A & B & C & D & Hv).
  subst v s; apply valid_build; auto.
Qed.

Lemma valid_decimal_create (s : list ascii) :
  valid_decimal s -> exists v, ha_int_create s = Some v.
Proof.
  intros (neg & ds & Hs & A & B & C & D).
  destruct (valid_build neg ds A B C D) as [W T].
  exists (mk_int (negb neg) (rev ds)).
  rewrite Hs, <- T; apply create_to_str; auto.
Qed.

(** ** Signed comparison *)

Lemma ha_int_gt_val (n m : ha_int) :
  wf_int n = true -> wf_int m = true ->
  ha_int_gt n m = (to_Z m <? to_Z n).
Proof.
  intros Hn Hm; apply wf_int_parts in Hn as [Nn Zn], Hm as [Nm Zm].
  pose proof (norm_val_nonneg _ Nn); pose proof (norm_val_nonneg _ Nm).
  unfold ha_int_gt, to_Z.
  destruct (sign n), (sign m); cbn [andb negb];
    try (specialize (Zn eq_refl)); try (specialize (Zm eq_refl));
    rewrite ?(abs_gt_val n m Nn Nm), ?(abs_gt_val m n Nm Nn);
    repeat match goal with
           | |- context [Z.ltb ?a ?b] => destruct (Z.ltb_spec a b)
           end; try reflexivity; lia.
Qed.

Lemma ha_int_eq_val (n m : ha_int) :
  wf_int n = true -> wf_int m = true ->
  ha_int_eq n m = (to_Z n =? to_Z m).
Proof.
  intros Hn Hm.
  destruct (Z.eqb_spec (to_Z n) (to_Z m)) as [E | E].
  - apply ha_int_eq_true, wf_int_unique; auto.
  - destruct (ha_int_eq n m) eqn:H; auto.
    apply ha_int_eq_true in H; subst; contradiction.
Qed.

Lemma ha_int_cmp_val (n m : ha_int) :
  wf_int n = true -> wf_int m = true ->
  ha_int_cmp n m = Z.sgn (to_Z n - to_Z m).
Proof.
  intros Hn Hm; unfold ha_int_cmp.
  rewrite (ha_int_gt_val n m Hn Hm), (ha_int_eq_val n m Hn Hm).
  destruct (Z.ltb_spec (to_Z m) (to_Z n)); [rewrite Z.sgn_pos; lia |].
  destruct (Z.eqb_spec (to_Z n) (to_Z m)) as [E | E].
  - rewrite E, Z.sub_diag; reflexivity.
  - rewrite Z.sgn_neg; lia.
Qed.

Lemma lit_0 : wf_int (lit "0") = true /\ to_Z (lit "0") = 0.
Proof. split; reflexivity. Qed.

Lemma lit_1 : wf_int (lit "1") = true /\ to_Z (lit "1") = 1.
Proof. split; reflexivity. Qed.

Lemma ha_int_sign_val (n : ha_int) :
  wf_int n = true -> ha_int_sign n = Z.sgn (to_Z n).
Proof.
  intro Hn; unfold ha_int_sign.
  rewrite (ha_int_cmp_val n (lit "0") Hn (proj1 lit_0)), (proj2 lit_0).
  f_equal; lia.
Qed.

Lemma posi_copy_spec (n : ha_int) :
  wf_int n = true ->
  wf_int (posi_copy n) = true /\ to_Z (posi_copy n) = Z.abs (to_Z n).
Proof.
  intro Hn; unfold posi_copy.
  rewrite (ha_int_sign_val n Hn), ha_int_copy_id.
  destruct (Z.ltb_spec (Z.sgn (to_Z n)) 0) as [L | L].
  - destruct (ha_int_sub_spec (lit "0") n (proj1 lit_0) Hn) as [W V].
    split; auto; rewrite V, (proj2 lit_0).
    pose proof (Z.sgn_nonneg (to_Z n)); lia.
  - split; auto.
    pose proof (Z.sgn_nonneg (to_Z n)); lia.
Qed.

(** ** get_gcd *)

Lemma get_gcd_rec_spec (fuel : nat) :
  forall (depth : nat) (small big : ha_int),
    wf_int small = true -> wf_int big = true ->
    0 < to_Z small -> 0 < to_Z big ->
    match get_gcd_rec fuel depth small big with
    | Value g => wf_int g = true /\ to_Z g = Z.gcd (to_Z small) (to_Z big)
    | OutOfFuel => (fuel < 9)%nat \/ Z.of_nat depth <= to_Z small
    | _ => False
    end.
Proof.
  induction depth as [| depth IH]; intros small big Hs Hb Ps Pb.
  - cbn [get_gcd_rec]; right; lia.
  - cbn [get_gcd_rec].
    rewrite (ha_int_sign_val small Hs), (ha_int_sign_val big Hb).
    rewrite !Z.sgn_pos by lia; cbn [negb].
    change (0 <? 1) with true; cbn [negb].
    pose proof (ha_int_remainder_spec fuel big small Hb Hs ltac:(lia)) as R.
    destruct (ha_int_remainder fuel big small) as [remain | | |]; cbn [use];
      auto.
    destruct R as [Wr Vr].
    rewrite Z.rem_mod_nonneg in Vr by lia.
    pose proof (Z.mod_pos_bound (to_Z big) (to_Z small) Ps) as Mb.
    pose proof (Z.gcd_mod (to_Z big) (to_Z small) ltac:(lia)) as G.
    rewrite (ha_int_sign_val remain Wr).
    destruct (Z.eqb_spec (Z.sgn (to_Z remain)) 0) as [E | E].
    + apply -> Z.sgn_null_iff in E.
      rewrite ha_int_copy_id; split; auto.
      rewrite <- G, <- Vr, E, Z.gcd_0_l; lia.
    + assert (to_Z remain <> 0) by (intro E'; apply E; rewrite E'; reflexivity).
      specialize (IH remain small Wr Hs ltac:(lia) Ps).
      destruct (get_gcd_rec fuel depth remain small) as [g | | |]; auto.
      * rewrite Vr, G in IH; auto.
      * destruct IH; [left; auto | right; lia].
Qed.

Lemma get_gcd_spec (fuel : nat) (small big : ha_int) :
  wf_int small = true -> wf_int big = true ->
  0 < to_Z small -> 0 < to_Z big ->
  match get_gcd fuel small big with
  | Value g => wf_int g = true /\ to_Z g = Z.gcd (to_Z small) (to_Z big)
  | OutOfFuel => (fuel < 9)%nat \/ Z.of_nat fuel <= to_Z small
  | _ => False
  end.
Proof. apply get_gcd_rec_spec. Qed.

(** ** ha_frac_reduc, ha_frac_create *)

Lemma canonical_zero : canonical (mk_frac false (lit "0") (lit "1")).
Proof. repeat split; try reflexivity. Qed.

Lemma quotient_exact (fuel : nat) (a g : ha_int) :
  wf_int a = true -> wf_int g = true -> 0 <= to_Z a -> 0 < to_Z g ->
  match ha_int_quotient fuel a g with
  | Value q => wf_int q = true /\ to_Z q = to_Z a / to_Z g
  | OutOfFuel => (fuel < 9)%nat
  | _ => False
  end.
Proof.
  intros Ha Hg Pa Pg.
  pose proof (ha_int_quotient_spec fuel a g Ha Hg ltac:(lia)) as Q.
  destruct (ha_int_quotient fuel a g); auto.
  rewrite Z.quot_div_nonneg in Q by lia; auto.
Qed.

Lemma sgn_cases (x : Z) :
  (x < 0 /\ Z.sgn x = -1 /\ Z.abs x = - x)
  \/ (x = 0 /\ Z.sgn x = 0 /\ Z.abs x = 0)
  \/ (0 < x /\ Z.sgn x = 1 /\ Z.abs x = x).
Proof.
  destruct (Z.lt_trichotomy x 0) as [H | [H | H]].
  - left; rewrite Z.sgn_neg by auto; lia.
  - right; left; subst; auto.
  - right; right; rewrite Z.sgn_pos by auto; lia.
Qed.

Lemma gcd_cofactors (a b : Z) :
  0 < a -> 0 < b ->
  let g := Z.gcd a b in
  0 < g /\ a = g * (a / g) /\ b = g * (b / g) /\ 0 < a / g /\ 0 < b / g
  /\ Z.gcd (a / g) (b / g) = 1.
Proof.
  intros Pa Pb g.
  assert (Pg : 0 < g).
  { pose proof (Z.gcd_nonneg a b).
    assert (g <> 0); [| unfold g in *; lia].
    unfold g; intro E; apply Z.gcd_eq_0_l in E; lia. }
  destruct (Z.gcd_divide_l a b) as [a' Ea].
  destruct (Z.gcd_divide_r a b) as [b' Eb].
  fold g in Ea, Eb.
  assert (Da : a / g = a') by (rewrite Ea at 1; apply Z.div_mul; lia).
  assert (Db : b / g = b') by (rewrite Eb at 1; apply Z.div_mul; lia).
  repeat split; auto; try nia.
  apply Z.gcd_div_gcd; auto; lia.
Qed.

Ltac eval_cmp :=
  repeat match goal with
         | |- context [Z.ltb ?a ?b] =>
             let v := eval vm_compute in (Z.ltb a b) in
             change (Z.ltb a b) with v
         | |- context [Z.eqb ?a ?b] =>
             let v := eval vm_compute in (Z.eqb a b) in
             change (Z.eqb a b) with v
         end;
  cbn [andb orb negb].

Lemma ha_frac_reduc_spec (fuel : nat) (nu de : ha_int) :
  wf_int nu = true -> wf_int de = true -> to_Z de <> 0 ->
  match ha_frac_reduc fuel nu de with
  | Value f => canonical f /\ denotes f (to_Z nu) (to_Z de)
  | OutOfFuel => (fuel < 9)%nat \/ Z.of_nat fuel <= Z.abs (to_Z de)
  | _ => False
  end.
Proof.
  intros Hn Hd Hdz; unfold ha_frac_reduc.
  rewrite (ha_int_sign_val nu Hn), (ha_int_sign_val de Hd).
  destruct (posi_copy_spec nu Hn) as [Wa Va].
  destruct (posi_copy_spec de Hd) as [Wb Vb].
  rewrite (ha_int_cmp_val _ _ Wa Wb), Va, Vb.
  destruct (Z.eqb_spec (Z.sgn (to_Z de)) 0) as [E | _];
    [apply -> Z.sgn_null_iff in E; contradiction |].
  destruct (Z.eqb_spec (Z.sgn (to_Z nu)) 0) as [E | Hnz].
  { apply -> Z.sgn_null_iff in E; split; [apply canonical_zero |].
    unfold denotes, frac_num, frac_den; cbn [nega nume denom].
    rewrite (proj2 lit_0), (proj2 lit_1); lia. }
  assert (Hnz' : to_Z nu <> 0) by (intro E; apply Hnz; rewrite E; reflexivity).
  set (rn := if (0 <? Z.sgn (to_Z nu)) && (0 <? Z.sgn (to_Z de))
                || (Z.sgn (to_Z nu) <? 0) && (Z.sgn (to_Z de) <? 0)
             then false else true).
  assert (F : (if rn then - Z.abs (to_Z nu) else Z.abs (to_Z nu)) * to_Z de
              = to_Z nu * Z.abs (to_Z de)).
  { unfold rn.
    destruct (sgn_cases (to_Z nu)) as [(P1 & S1 & A1) | [(P1 & _) | (P1 & S1 & A1)]];
      try contradiction;
      destruct (sgn_cases (to_Z de)) as [(P2 & S2 & A2) | [(P2 & _) | (P2 & S2 & A2)]];
      try contradiction; rewrite S1, S2, A1, A2; eval_cmp; lia. }
  clearbody rn.
  set (a := Z.abs (to_Z nu)) in *; set (b := Z.abs (to_Z de)) in *.
  assert (Pa : 0 < a) by (unfold a; lia).
  assert (Pb : 0 < b) by (unfold b; lia).
  destruct (Z.eqb_spec (Z.sgn (a - b)) 0) as [E | Hab].
  { apply -> Z.sgn_null_iff in E.
    split.
    - repeat split; try reflexivity; discriminate.
    - unfold denotes, frac_num, frac_den; cbn [nega nume denom].
      rewrite (proj2 lit_1); destruct rn; nia. }
  assert (G : match (if Z.sgn (a - b) =? 1
                     then get_gcd fuel (posi_copy de) (posi_copy nu)
                     else get_gcd fuel (posi_copy nu) (posi_copy de)) with
              | Value g => wf_int g = true /\ to_Z g = Z.gcd a b
              | OutOfFuel => (fuel < 9)%nat \/ Z.of_nat fuel <= b
              | _ => False
              end).
  { destruct (sgn_cases (a - b)) as [(P & S & _) | [(P & S & _) | (P & S & _)]];
      rewrite S in *; try (exfalso; apply Hab; reflexivity);
      eval_cmp.
    - pose proof (get_gcd_spec fuel (posi_copy nu) (posi_copy de) Wa Wb
                    ltac:(lia) ltac:(lia)) as G.
      destruct (get_gcd fuel (posi_copy nu) (posi_copy de)); auto.
      + rewrite Va, Vb in G; auto.
      + rewrite Va in G; destruct G; [left; auto | right; lia].
    - pose proof (get_gcd_spec fuel (posi_copy de) (posi_copy nu) Wb Wa
                    ltac:(lia) ltac:(lia)) as G.
      destruct (get_gcd fuel (posi_copy de) (posi_copy nu)); auto.
      + rewrite Va, Vb, Z.gcd_comm in G; auto.
      + rewrite Vb in G; auto. }
  destruct (if Z.sgn (a - b) =? 1
            then get_gcd fuel (posi_copy de) (posi_copy nu)
            else get_gcd fuel (posi_copy nu) (posi_copy de))
    as [g | | |]; cbn [use]; auto.
  destruct G as [Wg Vg].
  destruct (gcd_cofactors a b Pa Pb) as (Pg & Ea & Eb & Pa' & Pb' & Gab).
  rewrite <- Vg in *.
  pose proof (quotient_exact fuel _ g Wa Wg ltac:(lia) ltac:(lia)) as Q1.
  pose proof (quotient_exact fuel _ g Wb Wg ltac:(lia) ltac:(lia)) as Q2.
  rewrite Va in Q1; rewrite Vb in Q2.
  destruct (ha_int_quotient fuel (posi_copy nu) g) as [qn | | |]; cbn [use];
    try contradiction; [| left; auto].
  destruct (ha_int_quotient fuel (posi_copy de) g) as [qd | | |]; cbn [use];
    try contradiction; [| left; auto].
  destruct Q1 as [W1 V1]; destruct Q2 as [W2 V2].
  split.
  - unfold canonical; cbn [nega nume denom].
    rewrite (to_Z_sign qn W1), (to_Z_sign qd W2), V1, V2.
    repeat split; auto; try (apply Z.leb_le; lia); lia.
  - unfold denotes, frac_num, frac_den; cbn [nega nume denom].
    rewrite V1, V2.
    set (A := a / to_Z g) in *; set (B := b / to_Z g) in *.
    clearbody A B; rewrite Ea, Eb in F.
    assert (to_Z g * ((if rn then - A else A) * to_Z de)
            = to_Z g * (to_Z nu * B)) by (destruct rn; nia).
    nia.
Qed.

Lemma ha_frac_create_ints (fuel : nat) (nu de : ha_int) :
  wf_int nu = true -> wf_int de = true -> to_Z de <> 0 ->
  ha_frac_create fuel (ha_int_to_str nu) (ha_int_to_str de)
  = ha_frac_reduc fuel nu de.
Proof.
  intros Hn Hd Hz; unfold ha_frac_create.
  rewrite (create_to_str nu Hn), (create_to_str de Hd), (ha_int_sign_val de Hd).
  destruct (Z.eqb_spec (Z.sgn (to_Z de)) 0) as [E | E]; auto.
  apply -> Z.sgn_null_iff in E; contradiction.
Qed.

Lemma wf_sign_nonneg (n : ha_int) :
  wf_int n = true -> sign n = true -> 0 <= to_Z n.
Proof.
  intros H S; rewrite (to_Z_sign n H) in S; apply Z.leb_le; auto.
Qed.

Lemma canonical_ok (f : ha_frac) :
  canonical f ->
  frac_ok f /\ (nega f = true -> to_Z (nume f) <> 0).
Proof.
  intros (A & B & C & D & E & F & G).
  split; [repeat split; auto; apply wf_sign_nonneg; auto |].
  intros Hn Hz; destruct (G Hz) as [Hf _]; congruence.
Qed.

(** ** ha_frac_add *)

Lemma add_parts_spec (fuel : nat) (n m : ha_frac) :
  frac_ok n -> frac_ok m ->
  match
    (if ha_int_cmp (denom n) (denom m) =? 0 then
       Value (ha_int_copy (nume n), ha_int_copy (nume m), ha_int_copy (denom n))
     else
       gcd <- (if 0 <? ha_int_cmp (denom n) (denom m)
               then get_gcd fuel (denom m) (denom n)
               else get_gcd fuel (denom n) (denom m)) ;;
       n_mult <- ha_int_quotient fuel (denom m) gcd ;;
       m_mult <- ha_int_quotient fuel (denom n) gcd ;;
       Value (ha_int_mult n_mult (nume n), ha_int_mult m_mult (nume m),
              ha_int_mult n_mult (denom n)))
  with
  | Value (p1, p2, p3) =>
      wf_int p1 = true /\ wf_int p2 = true /\ wf_int p3 = true
      /\ exists g k l,
          0 < g /\ 0 < k /\ 0 < l
          /\ frac_den m = g * k /\ frac_den n = g * l
          /\ to_Z p1 = k * to_Z (nume n)
          /\ to_Z p2 = l * to_Z (nume m)
          /\ to_Z p3 = k * frac_den n
  | OutOfFuel => (fuel < 9)%nat \/ Z.of_nat fuel <= frac_den n * frac_den m
  | _ => False
  end.
Proof.
  intros (Wnn & Wnd & Pnn & Pnd) (Wmn & Wmd & Pmn & Pmd).
  unfold frac_den.
  rewrite (ha_int_cmp_val _ _ Wnd Wmd).
  set (dn := to_Z (denom n)) in *; set (dm := to_Z (denom m)) in *.
  destruct (sgn_cases (dn - dm)) as [(P & S & _) | [(P & S & _) | (P & S & _)]];
    rewrite S; eval_cmp.
  - (* dn < dm *)
    pose proof (get_gcd_spec fuel (denom n) (denom m) Wnd Wmd Pnd Pmd) as G.
    destruct (get_gcd fuel (denom n) (denom m)) as [g | | |]; cbn [use];
      try contradiction; [| destruct G; [left; auto | right; fold dn in H; nia]].
    destruct G as [Wg Vg]; fold dn dm in Vg.
    destruct (gcd_cofactors dn dm Pnd Pmd) as (Pg & Ea & Eb & Pa' & Pb' & _).
    rewrite <- Vg in *.
    pose proof (quotient_exact fuel _ g Wmd Wg ltac:(lia) Pg) as Q1.
    pose proof (quotient_exact fuel _ g Wnd Wg ltac:(lia) Pg) as Q2.
    destruct (ha_int_quotient fuel (denom m) g) as [k | | |]; cbn [use];
      try contradiction; [| left; auto].
    destruct (ha_int_quotient fuel (denom n) g) as [l | | |]; cbn [use];
      try contradiction; [| left; auto].
    destruct Q1 as [Wk Vk]; destruct Q2 as [Wl Vl]; fold dn dm in Vk, Vl.
    destruct (ha_int_mult_spec k (nume n) Wk Wnn) as [W1 V1].
    destruct (ha_int_mult_spec l (nume m) Wl Wmn) as [W2 V2].
    destruct (ha_int_mult_spec k (denom n) Wk Wnd) as [W3 V3].
    repeat split; auto.
    exists (to_Z g), (to_Z k), (to_Z l).
    rewrite V1, V2, V3, Vk, Vl; fold dn; repeat split; auto.
  - (* dn = dm *)
    rewrite !ha_int_copy_id; repeat split; auto.
    exists dn, 1, 1; repeat split; try lia.
  - (* dm < dn *)
    pose proof (get_gcd_spec fuel (denom m) (denom n) Wmd Wnd Pmd Pnd) as G.
    destruct (get_gcd fuel (denom m) (denom n)) as [g | | |]; cbn [use];
      try contradiction; [| destruct G; [left; auto | right; fold dm in H; nia]].
    destruct G as [Wg Vg]; fold dn dm in Vg; rewrite Z.gcd_comm in Vg.
    destruct (gcd_cofactors dn dm Pnd Pmd) as (Pg & Ea & Eb & Pa' & Pb' & _).
    rewrite <- Vg in *.
    pose proof (quotient_exact fuel _ g Wmd Wg ltac:(lia) Pg) as Q1.
    pose proof (quotient_exact fuel _ g Wnd Wg ltac:(lia) Pg) as Q2.
    destruct (ha_int_quotient fuel (denom m) g) as [k | | |]; cbn [use];
      try contradiction; [| left; auto].
    destruct (ha_int_quotient fuel (denom n) g) as [l | | |]; cbn [use];
      try contradiction; [| left; auto].
    destruct Q1 as [Wk Vk]; destruct Q2 as [Wl Vl]; fold dn dm in Vk, Vl.
    destruct (ha_int_mult_spec k (nume n) Wk Wnn) as [W1 V1].
    destruct (ha_int_mult_spec l (nume m) Wl Wmn) as [W2 V2].
    destruct (ha_int_mult_spec k (denom n) Wk Wnd) as [W3 V3].
    repeat split; auto.
    exists (to_Z g), (to_Z k), (to_Z l).
    rewrite V1, V2, V3, Vk, Vl; fold dn; repeat split; auto.
Qed.

Lemma ha_frac_add_spec (fuel : nat) (n m : ha_frac) :
  frac_ok n -> frac_ok m -> (nega n = true -> to_Z (nume n) <> 0) ->
  match ha_frac_add fuel n m with
  | Value r =>
      canonical r
      /\ denotes r (frac_num n * frac_den m + frac_num m * frac_den n)
           (frac_den n * frac_den m)
  | OutOfFuel => (fuel < 9)%nat \/ Z.of_nat fuel <= frac_den n * frac_den m
  | _ => False
  end.
Proof.
  intros On Om Hneg.
  pose proof (add_parts_spec fuel n m On Om) as P.
  destruct On as (Wnn & Wnd & Pnn & Pnd), Om as (Wmn & Wmd & Pmn & Pmd).
  unfold ha_frac_add.
  match goal with
  | |- context [use ?e _] => destruct e as [[[p1 p2] p3] | | |]
  end; cbn [use]; auto.
  destruct P as (W1 & W2 & W3 & g & k & l & Pg & Pk & Pl & Em & En & V1 & V2 & V3).
  destruct (ha_int_add_spec p1 p2 W1 W2) as [Wa Va].
  destruct (ha_int_sub_spec p2 p1 W2 W1) as [Wb Vb].
  destruct (ha_int_sub_spec p1 p2 W1 W2) as [Wc Vc].
  set (new_nume :=
         if nega n && nega m || negb (nega n) && negb (nega m)
         then ha_int_add p1 p2
         else if nega n then ha_int_sub p2 p1 else ha_int_sub p1 p2).
  assert (Wn : wf_int new_nume = true)
    by (unfold new_nume; destruct (nega n), (nega m); auto).
  assert (Hden : frac_den n * frac_den m = g * to_Z p3) by (rewrite V3; nia).
  assert (Hp3 : 0 < to_Z p3 <= frac_den n * frac_den m).
  { unfold frac_den in *; nia. }
  assert (Vn : frac_num n * frac_den m + frac_num m * frac_den n
               = if nega n && nega m then - (g * to_Z new_nume)
                 else g * to_Z new_nume).
  { unfold new_nume, frac_num.
    destruct (nega n), (nega m); cbn [andb orb negb];
      rewrite ?Va, ?Vb, ?Vc, V1, V2; nia. }
  rewrite (ha_frac_create_ints fuel new_nume p3 Wn W3 ltac:(lia)).
  pose proof (ha_frac_reduc_spec fuel new_nume p3 Wn W3 ltac:(lia)) as R.
  destruct (ha_frac_reduc fuel new_nume p3) as [r0 | | |];
    try contradiction; [| destruct R; [left; auto | right; lia]].
  destruct R as [C0 D0].
  unfold denotes in *; rewrite Hden, Vn.
  destruct (nega n && nega m) eqn:Eb.
  - apply andb_true_iff in Eb as [E1 E2].
    specialize (Hneg E1).
    assert (Hpos : 0 < to_Z new_nume).
    { unfold new_nume; rewrite E1, E2; cbn [andb orb]; rewrite Va, V1, V2; nia. }
    destruct C0 as (A & B & C & D & E & F & G).
    pose proof (wf_sign_nonneg _ A C) as Nn0.
    unfold frac_num, frac_den in D0 |- *; cbn [nega nume denom].
    assert (Hn0 : nega r0 = false).
    { destruct (nega r0); auto; nia. }
    rewrite Hn0 in D0.
    split; [| nia].
    repeat split; auto.
    all: exfalso; cbn [nume] in *; nia.
  - split; auto; nia.
Qed.

Lemma ha_frac_sub_spec (fuel : nat) (n m : ha_frac) :
  frac_ok n -> frac_ok m -> (nega n = true -> to_Z (nume n) <> 0) ->
  match ha_frac_sub fuel n m with
  | Value r =>
      canonical r
      /\ denotes r (frac_num n * frac_den m - frac_num m * frac_den n)
           (frac_den n * frac_den m)
  | OutOfFuel => (fuel < 9)%nat \/ Z.of_nat fuel <= frac_den n * frac_den m
  | _ => False
  end.
Proof.
  intros On Om Hneg; unfold ha_frac_sub.
  set (m_cpy := mk_frac (if negb (nega m) then true else false)
                  (ha_int_copy (nume m)) (ha_int_copy (denom m))).
  assert (Oc : frac_ok m_cpy).
  { unfold frac_ok, m_cpy; cbn [nume denom]; rewrite !ha_int_copy_id; auto. }
  assert (Ec : frac_num m_cpy = - frac_num m /\ frac_den m_cpy = frac_den m).
  { unfold frac_num, frac_den, m_cpy; cbn [nega nume denom].
    rewrite !ha_int_copy_id; destruct (nega m); cbn [negb]; split; lia. }
  destruct Ec as [E1 E2].
  pose proof (ha_frac_add_spec fuel n m_cpy On Oc Hneg) as A.
  rewrite E1, E2 in A.
  replace (frac_num n * frac_den m - frac_num m * frac_den n)
    with (frac_num n * frac_den m + - frac_num m * frac_den n) by ring.
  destruct (ha_frac_add fuel n m_cpy); auto.
Qed.

(** ** ha_frac_mult, ha_frac_div, ha_frac_cmp *)

Lemma canonical_num_nonneg (r : ha_frac) (a b : Z) :
  canonical r -> denotes r a b -> 0 <= a -> 0 < b ->
  frac_num r = to_Z (nume r) /\ 0 <= to_Z (nume r).
Proof.
  intros (A & B & C & D & E & F & G) H Pa Pb.
  pose proof (wf_sign_nonneg _ A C) as Nn.
  unfold denotes, frac_num, frac_den in *.
  destruct (nega r) eqn:En; split; auto.
  assert (Hz : to_Z (nume r) = 0) by nia.
  destruct (G Hz); congruence.
Qed.

Lemma ha_frac_mult_spec (fuel : nat) (n m : ha_frac) :
  frac_ok n -> frac_ok m ->
  match ha_frac_mult fuel n m with
  | Value r =>
      canonical r
      /\ denotes r (frac_num n * frac_num m) (frac_den n * frac_den m)
  | OutOfFuel => (fuel < 9)%nat \/ Z.of_nat fuel <= frac_den n * frac_den m
  | _ => False
  end.
Proof.
  intros (Wnn & Wnd & Pnn & Pnd) (Wmn & Wmd & Pmn & Pmd).
  unfold ha_frac_mult.
  destruct (ha_int_mult_spec (nume n) (nume m) Wnn Wmn) as [W1 V1].
  destruct (ha_int_mult_spec (denom n) (denom m) Wnd Wmd) as [W2 V2].
  rewrite (ha_frac_create_ints fuel _ _ W1 W2 ltac:(nia)).
  pose proof (ha_frac_reduc_spec fuel _ _ W1 W2 ltac:(nia)) as R.
  rewrite V1, V2 in R.
  destruct (ha_frac_reduc fuel (ha_int_mult (nume n) (nume m))
              (ha_int_mult (denom n) (denom m))) as [r0 | | |];
    cbn [use]; try contradiction;
    [| destruct R; [left; auto | right; unfold frac_den; nia]].
  destruct R as [C0 D0].
  destruct (canonical_num_nonneg r0 _ _ C0 D0 ltac:(nia) ltac:(nia)) as [Fn Nn0].
  rewrite (ha_int_sign_val _ Wnn), (ha_int_sign_val _ Wmn).
  destruct C0 as (A & B & C & D & E & F & G).
  unfold denotes in *; rewrite Fn in D0.
  set (nega' := Bool.eqb (nega n) (nega m) || (Z.sgn (to_Z (nume n)) =? 0)
                || (Z.sgn (to_Z (nume m)) =? 0)).
  assert (Hs : (if nega' then frac_num n * frac_num m
                else - (frac_num n * frac_num m))
               = to_Z (nume n) * to_Z (nume m)).
  { unfold nega', frac_num.
    destruct (sgn_cases (to_Z (nume n))) as [(P1 & _) | [(P1 & S1 & _) | (P1 & S1 & _)]];
      [lia | rewrite P1 | ];
      (destruct (sgn_cases (to_Z (nume m)))
        as [(P2 & _) | [(P2 & S2 & _) | (P2 & S2 & _)]]; [lia | rewrite P2 | ]);
      rewrite ?S1, ?S2; destruct (nega n), (nega m); eval_cmp;
      cbn [Bool.eqb orb]; try rewrite !orb_true_r; cbn [orb]; lia. }
  unfold frac_den in *.
  destruct nega' eqn:En';
    (split; [| unfold frac_num at 1; cbn [nega nume denom]; nia]).
  - repeat split; auto; apply G; auto.
  - repeat split; auto; try (apply G; auto).
    cbn [nume nega] in *; exfalso.
    match goal with Hz : to_Z (nume r0) = 0 |- _ => rewrite Hz in D0 end.
    assert (Hp : to_Z (nume n) * to_Z (nume m) = 0) by nia.
    unfold nega' in En'.
    apply orb_false_iff in En' as [En' E3].
    apply orb_false_iff in En' as [_ E2].
    apply Z.eqb_neq in E2, E3.
    apply Z.eq_mul_0 in Hp as [Hp | Hp]; rewrite Hp in *;
      [apply E2 | apply E3]; reflexivity.
Qed.

Lemma ha_frac_div_spec (fuel : nat) (n m : ha_frac) :
  frac_ok n -> frac_ok m -> to_Z (nume m) <> 0 ->
  match ha_frac_div fuel n m with
  | Value r =>
      canonical r
      /\ denotes r (frac_num n * frac_den m) (frac_den n * frac_num m)
  | OutOfFuel =>
      (fuel < 9)%nat \/ Z.of_nat fuel <= frac_den n * to_Z (nume m)
  | _ => False
  end.
Proof.
  intros On Om Hnz; unfold ha_frac_div.
  pose proof Om as (Wmn & Wmd & Pmn & Pmd).
  rewrite (ha_int_sign_val _ Wmn).
  destruct (Z.eqb_spec (Z.sgn (to_Z (nume m))) 0) as [E | _];
    [apply -> Z.sgn_null_iff in E; contradiction |].
  cbn [negb].
  set (m_reci := mk_frac (nega m) (ha_int_copy (denom m)) (ha_int_copy (nume m))).
  assert (Or : frac_ok m_reci).
  { unfold frac_ok, m_reci; cbn [nume denom]; rewrite !ha_int_copy_id.
    repeat split; auto; lia. }
  assert (Er : frac_den m_reci = to_Z (nume m)
               /\ ((frac_num m_reci = frac_den m /\ frac_num m = to_Z (nume m))
                   \/ (frac_num m_reci = - frac_den m
                       /\ frac_num m = - to_Z (nume m)))).
  { unfold frac_num, frac_den, m_reci; cbn [nega nume denom].
    rewrite !ha_int_copy_id; destruct (nega m); split; auto. }
  destruct Er as [E1 E2].
  pose proof (ha_frac_mult_spec fuel n m_reci On Or) as M.
  rewrite E1 in M.
  destruct (ha_frac_mult fuel n m_reci); auto.
  destruct M as [C D]; split; auto.
  unfold denotes in *.
  destruct E2 as [[Ea Eb] | [Ea Eb]]; rewrite Ea in D; rewrite Eb; lia.
Qed.

Lemma ha_frac_cmp_spec (fuel : nat) (n m : ha_frac) :
  frac_ok n -> frac_ok m -> (nega n = true -> to_Z (nume n) <> 0) ->
  match ha_frac_cmp fuel n m with
  | Value c => c = Z.sgn (frac_num n * frac_den m - frac_num m * frac_den n)
  | OutOfFuel => (fuel < 9)%nat \/ Z.of_nat fuel <= frac_den n * frac_den m
  | _ => False
  end.
Proof.
  intros On Om Hneg; unfold ha_frac_cmp.
  pose proof (ha_frac_sub_spec fuel n m On Om Hneg) as S.
  destruct On as (Wnn & Wnd & Pnn & Pnd), Om as (Wmn & Wmd & Pmn & Pmd).
  destruct (ha_frac_sub fuel n m) as [r | | |]; cbn [use]; auto.
  destruct S as [(A & B & C & D & E & F & G) H].
  pose proof (wf_sign_nonneg _ A C) as Nn.
  rewrite (ha_int_sign_val _ A).
  unfold denotes, frac_den in *.
  set (X := frac_num n * to_Z (denom m) - frac_num m * to_Z (denom n)) in *.
  unfold frac_num in H.
  destruct (nega r) eqn:En.
  - assert (to_Z (nume r) <> 0) by (intro Hz; destruct (G Hz); congruence).
    rewrite Z.sgn_neg; nia.
  - destruct (sgn_cases (to_Z (nume r))) as [(P & _) | [(P & S & _) | (P & S & _)]];
      [lia | | ]; rewrite S; eval_cmp.
    + rewrite P in H.
      assert (X = 0) by nia.
      replace X with 0; reflexivity.
    + rewrite Z.sgn_pos; nia.
Qed.

(** ** Rational values *)

Lemma frac_Q_den (f : ha_frac) :
  0 < frac_den f -> Z.pos (Qden (frac_Q f)) = frac_den f.
Proof. intro H; unfold frac_Q; cbn [Qden]; apply Z2Pos.id; auto. Qed.

Lemma denotes_sum (r n m : ha_frac) :
  0 < frac_den r -> 0 < frac_den n -> 0 < frac_den m ->
  denotes r (frac_num n * frac_den m + frac_num m * frac_den n)
    (frac_den n * frac_den m) ->
  (frac_Q r == frac_Q n + frac_Q m)%Q.
Proof.
  intros Hr Hn Hm H; unfold Qeq, Qplus; cbn [Qnum Qden].
  rewrite Pos2Z.inj_mul, (frac_Q_den r Hr), (frac_Q_den n Hn), (frac_Q_den m Hm).
  unfold frac_Q; cbn [Qnum]; unfold denotes in H; lia.
Qed.

Lemma denotes_quotient (r n m : ha_frac) :
  0 < frac_den r -> 0 < frac_den n -> 0 < frac_den m ->
  denotes r (frac_num n * frac_den m) (frac_den n * frac_num m) ->
  (frac_Q r * frac_Q m == frac_Q n)%Q.
Proof.
  intros Hr Hn Hm H; unfold Qeq, Qmult; cbn [Qnum Qden].
  rewrite Pos2Z.inj_mul, (frac_Q_den r Hr), (frac_Q_den n Hn), (frac_Q_den m Hm).
  unfold frac_Q; cbn [Qnum]; unfold denotes in H; lia.
Qed.

Lemma sgn_sub_compare (a b : Z) :
  Z.sgn (a - b) = match a ?= b with Gt => 1 | Eq => 0 | Lt => -1 end.
Proof.
  destruct (Z.compare_spec a b) as [E | L | G].
  - subst; rewrite Z.sub_diag; reflexivity.
  - apply Z.sgn_neg; lia.
  - apply Z.sgn_pos; lia.
Qed.

Lemma frac_Q_compare (n m : ha_frac) :
  0 < frac_den n -> 0 < frac_den m ->
  Z.sgn (frac_num n * frac_den m - frac_num m * frac_den n)
  = match (frac_Q n ?= frac_Q m)%Q with Gt => 1 | Eq => 0 | Lt => -1 end.
Proof.
  intros Hn Hm; rewrite sgn_sub_compare; unfold Qcompare.
  rewrite (frac_Q_den n Hn), (frac_Q_den m Hm); reflexivity.
Qed.

Lemma canonical_zero_form (f : ha_frac) :
  canonical f -> is_zero (nume f) = true ->
  f = mk_frac false (lit "0") (lit "1").
Proof.
  intros (A & B & C & D & E & F & G) Hz.
  rewrite (is_zero_to_Z _ A) in Hz; apply Z.eqb_eq in Hz.
  destruct (G Hz) as [G1 G2].
  destruct f as [ng nu de]; cbn [nega nume denom] in *.
  subst ng de; f_equal.
  apply wf_int_unique; auto.
Qed.

Lemma abs_gt_trichotomy (n m : ha_int) :
  abs_gt n m
  = negb (abs_gt m n)
    && negb ((length (digits n) =? length (digits m))%nat
             && eq_loop (digits n) (digits m) (length (digits n))).
Proof.
  unfold abs_gt.
  destruct (Nat.ltb_spec (length (digits m)) (length (digits n))) as [H1 | H1];
  destruct (Nat.ltb_spec (length (digits n)) (length (digits m))) as [H2 | H2];
    try lia.
  - destruct (Nat.eqb_spec (length (digits n)) (length (digits m))); [lia |].
    reflexivity.
  - assert (E : length (digits n) = length (digits m)) by lia.
    rewrite <- E, Nat.eqb_refl; cbn [andb].
    apply abs_gt_loop_trichotomy.
Qed.

Lemma ha_int_gt_trichotomy (n m : ha_int) :
  ha_int_gt n m = negb (ha_int_gt m n) && negb (ha_int_eq n m).
Proof.
  unfold ha_int_gt, ha_int_eq.
  destruct (sign n) eqn:Sn, (sign m) eqn:Sm; cbn [andb negb Bool.eqb]; auto.
  - rewrite (abs_gt_trichotomy n m).
    destruct (Nat.eqb_spec (length (digits n)) (length (digits m)));
      cbn [andb negb]; reflexivity.
  - rewrite (abs_gt_trichotomy m n).
    destruct (Nat.eqb_spec (length (digits m)) (length (digits n))) as [E | E];
    destruct (Nat.eqb_spec (length (digits n)) (length (digits m))) as [E' | E'];
      try lia; cbn [andb negb]; auto.
    rewrite E, eq_loop_sym; reflexivity.
Qed.

(* ================================================================== *)
(** * The examples of the headers, evaluated *)
(* ================================================================== *)

Example create_examples :
  map (fun s => ha_int_create (cstr s))
    ["12"; "-12"; "0"; "012"; "00"; "-0"; "-"; "1a"; ""]%string
  = [Some (mk_int true (cstr "21")); Some (mk_int false (cstr "21"));
     Some (mk_int true (cstr "0")); None; None; None; None; None; None].
Proof. reflexivity. Qed.

Example mult_12_34 :
  ha_int_to_str (ha_int_mult (lit "12") (lit "34")) = cstr "408".
Proof. reflexivity. Qed.

Example add_sub_carries :
  ha_int_to_str (ha_int_add (lit "999") (lit "1")) = cstr "1000"
  /\ ha_int_to_str (ha_int_sub (lit "1") (lit "1000")) = cstr "-999"
  /\ ha_int_to_str (ha_int_add (lit "-5") (lit "5")) = cstr "0".
Proof. repeat split; reflexivity. Qed.

Example quotient_fuel :
  ha_int_quotient 9 (lit "987654321") (lit "1") = Value (lit "987654321")
  /\ ha_int_quotient 8 (lit "987654321") (lit "1") = OutOfFuel
  /\ ha_int_quotient 9 (lit "3") (lit "0") = Null.
Proof. repeat split; vm_compute; reflexivity. Qed.

Example frac_create_examples :
  ha_frac_create 9 (cstr "0") (cstr "1")
  = Value (mk_frac false (lit "0") (lit "1"))
  /\ ha_frac_create 9 (cstr "1") (cstr "2")
     = Value (mk_frac false (lit "1") (lit "2"))
  /\ ha_frac_create 9 (cstr "12") (cstr "34")
     = Value (mk_frac false (lit "6") (lit "17"))
  /\ ha_frac_create 9 (cstr "-1") (cstr "2")
     = Value (mk_frac true (lit "1") (lit "2"))
  /\ ha_frac_create 9 (cstr "1") (cstr "0") = Null.
Proof. repeat split; vm_compute; reflexivity. Qed.

(* ================================================================== *)
(** * The properties of the specification *)
(* ================================================================== *)

Lemma nonzero_to_Z (m : ha_int) :
  wf_int m = true -> is_zero m = false -> to_Z m <> 0.
Proof.
  intros W Z; rewrite (is_zero_to_Z m W) in Z; apply Z.eqb_neq; auto.
Qed.

Lemma quotient_total (fuel : nat) (n m : ha_int) :
  wf_int n = true -> wf_int m = true -> is_zero m = false -> (9 <= fuel)%nat ->
  exists q,
    ha_int_quotient fuel n m = Value q
    /\ wf_int q = true /\ to_Z q = Z.quot (to_Z n) (to_Z m).
Proof.
  intros Hn Hm Hz Hf.
  pose proof (ha_int_quotient_spec fuel n m Hn Hm (nonzero_to_Z m Hm Hz)) as Q.
  destruct (ha_int_quotient fuel n m) as [q | | |]; try contradiction; [| lia].
  exists q; tauto.
Qed.

Lemma remainder_total (fuel : nat) (n m : ha_int) :
  wf_int n = true -> wf_int m = true -> is_zero m = false -> (9 <= fuel)%nat ->
  exists r,
    ha_int_remainder fuel n m = Value r
    /\ wf_int r = true /\ to_Z r = Z.rem (to_Z n) (to_Z m).
Proof.
  intros Hn Hm Hz Hf.
  pose proof (ha_int_remainder_spec fuel n m Hn Hm (nonzero_to_Z m Hm Hz)) as R.
  destruct (ha_int_remainder fuel n m) as [r | | |]; try contradiction; [| lia].
  exists r; tauto.
Qed.

Lemma remainder_unfold (fuel : nat) (n m q : ha_int) :
  is_zero m = false -> ha_int_quotient fuel n m = Value q ->
  ha_int_remainder fuel n m = Value (ha_int_sub n (ha_int_mult m q)).
Proof.
  intros Hz Hq; unfold ha_int_remainder; rewrite Hz, Hq; reflexivity.
Qed.

(** C1 : division identity.  For every BigInt [n] and every non-zero BigInt
    [m], with fuel for the nine subtractions a quotient digit can take,
    [ha_int_quotient] and [ha_int_remainder] return [q] and [r], the
    remainder is [n - m * q] computed with [ha_int_sub] and [ha_int_mult]
    from the quotient, and [n] equals [m * q + r] exactly. *)
Theorem division_identity (fuel : nat) (n m : ha_int) :
  wf_int n = true -> wf_int m = true -> is_zero m = false -> (9 <= fuel)%nat ->
  exists q r,
    ha_int_quotient fuel n m = Value q
    /\ ha_int_remainder fuel n m = Value r
    /\ r = ha_int_sub n (ha_int_mult m q)
    /\ ha_int_add (ha_int_mult m q) r = n
    /\ ha_int_eq n (ha_int_add (ha_int_mult m q) r) = true.
Proof.
  intros Hn Hm Hz Hf.
  destruct (quotient_total fuel n m Hn Hm Hz Hf) as (q & Hq & Wq & _).
  pose proof (remainder_unfold fuel n m q Hz Hq) as Hr.
  destruct (ha_int_mult_spec m q Hm Wq) as [Wp Vp].
  destruct (ha_int_sub_spec n (ha_int_mult m q) Hn Wp) as [Ws Vs].
  destruct (ha_int_add_spec _ _ Wp Ws) as [Wa Va].
  assert (E : ha_int_add (ha_int_mult m q) (ha_int_sub n (ha_int_mult m q)) = n)
    by (apply wf_int_unique; auto; lia).
  exists q, (ha_int_sub n (ha_int_mult m q)); repeat split; auto.
  apply ha_int_eq_true; auto.
Qed.

Lemma division_identity_witness :
  wf_int (lit "1000000") = true /\ wf_int (lit "-37") = true
  /\ is_zero (lit "-37") = false /\ (9 <= 9)%nat
  /\ exists q r,
      ha_int_quotient 9 (lit "1000000") (lit "-37") = Value q
      /\ ha_int_remainder 9 (lit "1000000") (lit "-37") = Value r
      /\ r = ha_int_sub (lit "1000000") (ha_int_mult (lit "-37") q)
      /\ ha_int_add (ha_int_mult (lit "-37") q) r = lit "1000000"
      /\ ha_int_eq (lit "1000000") (ha_int_add (ha_int_mult (lit "-37") q) r)
         = true.
Proof.
  split; [reflexivity |]; split; [reflexivity |]; split; [reflexivity |].
  split; [lia |].
  apply (division_identity 9 (lit "1000000") (lit "-37"));
    [reflexivity | reflexivity | reflexivity | lia].
Defined.

(** C3 : the strings [ha_int_create] accepts.  The constructor returns a
    value exactly on the valid decimal strings (optional leading '-', one
    or more digits, no superfluous leading zero, not "-0") and NULL on every
    other string; in particular "-0" is rejected. *)
Theorem create_accepts_valid_decimals :
  (forall s, (exists v, ha_int_create s = Some v) <-> valid_decimal s)
  /\ (forall s, ha_int_create s = None <-> ~ valid_decimal s)
  /\ ha_int_create (cstr "-0") = None.
Proof.
  assert (H : forall s, (exists v, ha_int_create s = Some v) <-> valid_decimal s).
  { intro s; split.
    - intros [v Hv]; apply create_inv in Hv
        as (neg & ds & Hs & A & B & C & D & _).
      exists neg, ds; auto.
    - apply valid_decimal_create. }
  split; [exact H |]; split; [| reflexivity].
  intro s; split.
  - intros Hn Hv; apply H in Hv as [v Hv]; congruence.
  - intro Hn; destruct (ha_int_create s) as [v |] eqn:E; auto.
    exfalso; apply Hn, H; exists v; exact E.
Qed.

(** C4 : round trip.  For every string [s] the constructor accepts,
    [ha_int_to_str (ha_int_create s)] is [s] again; the output is a valid
    decimal string, is parsed back to the same value, and is "0" for zero.
    The same holds for every well-formed BigInt, whichever operation made
    it. *)
Theorem to_str_inverts_create (s : list ascii) (v : ha_int) :
  ha_int_create s = Some v ->
  ha_int_to_str v = s
  /\ valid_decimal (ha_int_to_str v)
  /\ ha_int_create (ha_int_to_str v) = Some v
  /\ (forall w, wf_int w = true ->
        valid_decimal (ha_int_to_str w)
        /\ ha_int_create (ha_int_to_str w) = Some w
        /\ (is_zero w = true -> ha_int_to_str w = cstr "0")).
Proof.
  intro H.
  assert (G : forall w, wf_int w = true ->
                valid_decimal (ha_int_to_str w)
                /\ ha_int_create (ha_int_to_str w) = Some w
                /\ (is_zero w = true -> ha_int_to_str w = cstr "0")).
  { intros w Hw; pose proof (create_to_str w Hw) as R.
    split; [| split; auto].
    - apply create_inv in R as (neg & ds & Hs & A & B & C & D & _).
      exists neg, ds; auto.
    - intro Hz; rewrite (is_zero_to_Z w Hw) in Hz; apply Z.eqb_eq in Hz.
      replace w with (lit "0"); [reflexivity |].
      apply wf_int_unique; auto; rewrite Hz; reflexivity. }
  destruct (create_wf s v H) as [W T].
  destruct (G v W) as (G1 & G2 & _).
  repeat split; auto; apply G; auto.
Qed.

Lemma to_str_inverts_create_witness :
  ha_int_create (cstr "-120") = Some (lit "-120")
  /\ ha_int_to_str (lit "-120") = cstr "-120"
  /\ valid_decimal (ha_int_to_str (lit "-120"))
  /\ ha_int_create (ha_int_to_str (lit "-120")) = Some (lit "-120").
Proof.
  split; [reflexivity |].
  destruct (to_str_inverts_create (cstr "-120") (lit "-120") eq_refl)
    as (A & B & C & _).
  repeat split; assumption.
Defined.

(** the claim of C5 as the specification states it, refuted: the sign of
    a quotient does not always follow the rule of multiplication.  For -7
    and 20 the rule, [mult_div_sign], gives a negative sign, as the product
    -140 has; but the magnitude of the dividend is below that of the
    divisor, and on that branch [ha_int_quotient] sets the sign itself and
    returns the non-negative "0" *)
Lemma quotient_sign_not_mult_rule :
  wf_int (lit "-7") = true /\ wf_int (lit "20") = true
  /\ is_zero (lit "20") = false
  /\ mult_div_sign (lit "-7") (lit "20") = false
  /\ sign (ha_int_mult (lit "-7") (lit "20")) = false
  /\ abs_gt (lit "20") (lit "-7") = true
  /\ ha_int_quotient 9 (lit "-7") (lit "20") = Value (lit "0")
  /\ sign (lit "0") = true
  /\ sign (lit "0") <> mult_div_sign (lit "-7") (lit "20").
Proof.
  repeat split; try (vm_compute; reflexivity).
  vm_compute; discriminate.
Qed.

(** C5, amended : truncation toward zero.  The quotient of [n] by a
    non-zero [m] is the integer quotient truncated toward zero ([Z.quot]);
    when it is not zero its sign is the one [mult_div_sign] gives a
    product, and when it is zero it is the well-formed, non-negative zero
    whatever the signs of [n] and [m].  On -7 and 2 the quotient is -3, the
    remainder is -1, and 2 * -3 + -1 is -7. *)
Theorem quotient_truncates_toward_zero :
  (forall (fuel : nat) (n m : ha_int),
      wf_int n = true -> wf_int m = true -> is_zero m = false ->
      (9 <= fuel)%nat ->
      exists q,
        ha_int_quotient fuel n m = Value q
        /\ wf_int q = true
        /\ to_Z q = Z.quot (to_Z n) (to_Z m)
        /\ (is_zero q = false -> sign q = mult_div_sign n m))
  /\ ha_int_quotient 9 (lit "-7") (lit "2") = Value (lit "-3")
  /\ ha_int_remainder 9 (lit "-7") (lit "2") = Value (lit "-1")
  /\ ha_int_add (ha_int_mult (lit "2") (lit "-3")) (lit "-1") = lit "-7".
Proof.
  split; [| repeat split; reflexivity].
  intros fuel n m Hn Hm Hz Hf.
  destruct (quotient_total fuel n m Hn Hm Hz Hf) as (q & Hq & Wq & Vq).
  exists q; repeat split; auto.
  intro Hqz.
  pose proof (nonzero_to_Z m Hm Hz) as Hmz.
  pose proof (nonzero_to_Z q Wq Hqz) as Hqnz.
  rewrite (to_Z_sign q Wq), Vq.
  unfold mult_div_sign.
  rewrite (is_zero_to_Z n Hn), (is_zero_to_Z m Hm), (to_Z_sign n Hn),
    (to_Z_sign m Hm).
  rewrite Vq in Hqnz; rewrite (quot_sign_abs _ _ Hmz) in Hqnz |- *.
  assert (Hd : 0 <= Z.abs (to_Z n) / Z.abs (to_Z m)) by (apply Z.div_pos; lia).
  destruct (Z.eqb_spec (to_Z n) 0) as [E | E].
  - rewrite E in Hqnz; cbn [orb] in Hqnz.
    rewrite Z.div_0_l in Hqnz by lia; lia.
  - destruct (Z.eqb_spec (to_Z m) 0) as [E' | _]; [contradiction |].
    cbn [orb] in *.
    destruct (Bool.eqb (0 <=? to_Z n) (0 <=? to_Z m));
      [apply Z.leb_le | apply Z.leb_gt]; lia.
Qed.

Lemma quotient_truncates_toward_zero_witness :
  exists q,
    ha_int_quotient 9 (lit "-7") (lit "2") = Value q
    /\ wf_int q = true
    /\ to_Z q = Z.quot (to_Z (lit "-7")) (to_Z (lit "2"))
    /\ (is_zero q = false -> sign q = mult_div_sign (lit "-7") (lit "2")).
Proof.
  apply (proj1 quotient_truncates_toward_zero 9%nat (lit "-7") (lit "2"));
    [reflexivity | reflexivity | reflexivity | lia].
Defined.

(** C10 : remainder of a truncated division.  For every BigInt [n] and
    every non-zero BigInt [m] the remainder is zero or has the sign of the
    dividend, and its magnitude is strictly below that of [m]; when the
    magnitude of [n] is below that of [m] the quotient is the non-negative
    zero and the remainder is [n]. *)
Theorem remainder_sign_and_bound (fuel : nat) (n m : ha_int) :
  wf_int n = true -> wf_int m = true -> is_zero m = false -> (9 <= fuel)%nat ->
  exists q r,
    ha_int_quotient fuel n m = Value q
    /\ ha_int_remainder fuel n m = Value r
    /\ (is_zero r = true \/ sign r = sign n)
    /\ abs_gt m r = true
    /\ (abs_gt m n = true -> q = mk_int true [ch0] /\ r = n).
Proof.
  intros Hn Hm Hz Hf.
  pose proof (nonzero_to_Z m Hm Hz) as Hmz.
  destruct (quotient_total fuel n m Hn Hm Hz Hf) as (q & Hq & Wq & Vq).
  destruct (remainder_total fuel n m Hn Hm Hz Hf) as (r & Hr & Wr & Vr).
  exists q, r; split; [auto |]; split; [auto |].
  pose proof (wf_int_parts _ Hn) as [Nn _].
  pose proof (wf_int_parts _ Hm) as [Nm _].
  pose proof (wf_int_parts _ Wr) as [Nr _].
  pose proof (Z.rem_bound_abs (to_Z n) (to_Z m) Hmz) as Rb.
  pose proof (Z.rem_sign_mul (to_Z n) (to_Z m) Hmz) as Rs.
  split; [| split].
  - rewrite (is_zero_to_Z r Wr), (to_Z_sign r Wr), (to_Z_sign n Hn), Vr.
    destruct (Z.eqb_spec (Z.rem (to_Z n) (to_Z m)) 0); [left; auto | right].
    assert (Hn0 : to_Z n = 0 -> Z.rem (to_Z n) (to_Z m) = 0)
      by (intro E; rewrite E; apply Z.rem_0_l; auto).
    clear Rb; set (x := Z.rem (to_Z n) (to_Z m)) in *; clearbody x.
    destruct (Z.leb_spec 0 x), (Z.leb_spec 0 (to_Z n)); auto; exfalso.
    + assert (x * to_Z n < 0) by (apply Z.mul_pos_neg; lia); lia.
    + assert (to_Z n <> 0) by (intro E; apply Hn0 in E; lia).
      assert (x * to_Z n < 0) by (apply Z.mul_neg_pos; lia); lia.
  - rewrite (abs_gt_val m r Nm Nr), (to_Z_abs r Wr), (to_Z_abs m Hm), Vr.
    apply Z.ltb_lt; auto.
  - rewrite (abs_gt_val m n Nm Nn), (to_Z_abs n Hn), (to_Z_abs m Hm).
    intro L; apply Z.ltb_lt in L.
    assert (Eq : Z.quot (to_Z n) (to_Z m) = 0)
      by (apply Z.quot_small_iff; auto).
    split; apply wf_int_unique; auto.
    + rewrite Vq, Eq; reflexivity.
    + rewrite Vr.
      pose proof (Z.quot_rem' (to_Z n) (to_Z m)) as QR.
      rewrite Eq in QR; lia.
Qed.

Lemma remainder_sign_and_bound_witness :
  wf_int (lit "-7") = true /\ wf_int (lit "20") = true
  /\ is_zero (lit "20") = false /\ (9 <= 12)%nat
  /\ exists q r,
      ha_int_quotient 12 (lit "-7") (lit "20") = Value q
      /\ ha_int_remainder 12 (lit "-7") (lit "20") = Value r
      /\ (is_zero r = true \/ sign r = sign (lit "-7"))
      /\ abs_gt (lit "20") r = true
      /\ (abs_gt (lit "20") (lit "-7") = true ->
          q = mk_int true [ch0] /\ r = lit "-7").
Proof.
  split; [reflexivity |]; split; [reflexivity |]; split; [reflexivity |].
  split; [lia |].
  apply (remainder_sign_and_bound 12 (lit "-7") (lit "20"));
    [reflexivity | reflexivity | reflexivity | lia].
Defined.

Lemma canonical_den_pos (f : ha_frac) : canonical f -> 0 < frac_den f.
Proof. intros (_ & _ & _ & _ & E & _); exact E. Qed.

Lemma frac_add_total (fuel : nat) (n m : ha_frac) :
  canonical n -> canonical m -> enough fuel n m ->
  exists r,
    ha_frac_add fuel n m = Value r /\ canonical r
    /\ (frac_Q r == frac_Q n + frac_Q m)%Q.
Proof.
  intros Cn Cm [F1 F2].
  destruct (canonical_ok n Cn) as [On Nn]; destruct (canonical_ok m Cm) as [Om _].
  pose proof (ha_frac_add_spec fuel n m On Om Nn) as A.
  destruct (ha_frac_add fuel n m) as [r | | |]; try contradiction.
  - destruct A as [C D]; exists r.
    split; [reflexivity |]; split; [exact C |].
    apply denotes_sum; auto using canonical_den_pos.
  - unfold frac_den in A; lia.
Qed.

Lemma frac_cmp_total (fuel : nat) (n m : ha_frac) :
  canonical n -> canonical m -> enough fuel n m ->
  ha_frac_cmp fuel n m
  = Value (match (frac_Q n ?= frac_Q m)%Q with Gt => 1 | Eq => 0 | Lt => -1 end).
Proof.
  intros Cn Cm [F1 F2].
  destruct (canonical_ok n Cn) as [On Nn]; destruct (canonical_ok m Cm) as [Om _].
  pose proof (ha_frac_cmp_spec fuel n m On Om Nn) as A.
  destruct (ha_frac_cmp fuel n m) as [c | | |]; try contradiction.
  - rewrite A; f_equal; apply frac_Q_compare; apply canonical_den_pos; auto.
  - unfold frac_den in A; lia.
Qed.

(** C8 : the order.  [ha_int_gt n m] is [!ha_int_gt m n && !ha_int_eq n m]
    for every pair of BigInts; on well-formed BigInts [ha_int_gt] is the
    strict order of the integers they denote; of two negative BigInts the
    one with the larger magnitude is the smaller; and [ha_frac_cmp] returns
    1, 0 or -1 as the first fraction is above, equal to or below the second,
    so that "greater" holds exactly when neither the converse "greater" nor
    "equal" does. *)
Theorem comparison_trichotomy :
  (forall n m : ha_int,
      ha_int_gt n m = negb (ha_int_gt m n) && negb (ha_int_eq n m))
  /\ (forall n m : ha_int,
        wf_int n = true -> wf_int m = true ->
        ha_int_gt n m = (to_Z m <? to_Z n)
        /\ ha_int_eq n m = (to_Z n =? to_Z m))
  /\ (forall n m : ha_int,
        sign n = false -> sign m = false -> abs_gt n m = true ->
        ha_int_gt m n = true /\ ha_int_gt n m = false)
  /\ (forall (fuel : nat) (n m : ha_frac),
        canonical n -> canonical m -> enough fuel n m ->
        exists c1 c2,
          ha_frac_cmp fuel n m = Value c1 /\ ha_frac_cmp fuel m n = Value c2
          /\ c1 = match (frac_Q n ?= frac_Q m)%Q with
                  | Gt => 1 | Eq => 0 | Lt => -1
                  end
          /\ (c1 =? 1) = negb (c2 =? 1) && negb (c1 =? 0)
          /\ c2 = - c1).
Proof.
  split; [exact ha_int_gt_trichotomy |].
  split; [intros n m Hn Hm; split;
          [apply ha_int_gt_val | apply ha_int_eq_val]; auto |].
  split.
  - intros n m Sn Sm G.
    pose proof (abs_gt_trichotomy n m) as T; rewrite G in T.
    symmetry in T; apply andb_true_iff in T as [T _].
    apply negb_true_iff in T.
    unfold ha_int_gt; rewrite Sn, Sm; cbn [andb negb]; auto.
  - intros fuel n m Cn Cm En.
    assert (Em : enough fuel m n)
      by (destruct En as [E1 E2]; split; auto; lia).
    rewrite (frac_cmp_total fuel n m Cn Cm En), (frac_cmp_total fuel m n Cm Cn Em).
    do 2 eexists; split; [reflexivity |]; split; [reflexivity |].
    split; [reflexivity |].
    rewrite <- (Qcompare_antisym (frac_Q n) (frac_Q m)).
    destruct (frac_Q n ?= frac_Q m)%Q; cbn [CompOpp]; split; reflexivity.
Qed.

Lemma comparison_trichotomy_witness :
  exists c1 c2,
    ha_frac_cmp 9 (mk_frac false (lit "1") (lit "2"))
      (mk_frac true (lit "3") (lit "4")) = Value c1
    /\ ha_frac_cmp 9 (mk_frac true (lit "3") (lit "4"))
         (mk_frac false (lit "1") (lit "2")) = Value c2
    /\ c1 = match (frac_Q (mk_frac false (lit "1") (lit "2"))
                   ?= frac_Q (mk_frac true (lit "3") (lit "4")))%Q with
            | Gt => 1 | Eq => 0 | Lt => -1
            end
    /\ (c1 =? 1) = negb (c2 =? 1) && negb (c1 =? 0)
    /\ c2 = - c1.
Proof.
  apply (proj2 (proj2 (proj2 comparison_trichotomy)) 9%nat
           (mk_frac false (lit "1") (lit "2"))
           (mk_frac true (lit "3") (lit "4"))).
  - repeat split; try reflexivity; discriminate.
  - repeat split; try reflexivity; discriminate.
  - split; [lia | vm_compute; reflexivity].
Defined.

Lemma ha_frac_create_spec (fuel : nat) (s1 s2 : list ascii) (f : ha_frac) :
  ha_frac_create fuel s1 s2 = Value f ->
  exists nu de,
    ha_int_create s1 = Some nu /\ ha_int_create s2 = Some de
    /\ to_Z de <> 0 /\ canonical f /\ denotes f (to_Z nu) (to_Z de).
Proof.
  unfold ha_frac_create.
  destruct (ha_int_create s1) as [nu |] eqn:E1; [| discriminate].
  destruct (ha_int_create s2) as [de |] eqn:E2; [| discriminate].
  destruct (create_wf _ _ E1) as [W1 _], (create_wf _ _ E2) as [W2 _].
  rewrite (ha_int_sign_val de W2).
  destruct (Z.eqb_spec (Z.sgn (to_Z de)) 0) as [E | E]; [discriminate |].
  assert (Hz : to_Z de <> 0) by (intro Z; apply E; rewrite Z; reflexivity).
  intro H; pose proof (ha_frac_reduc_spec fuel nu de W1 W2 Hz) as R.
  rewrite H in R; exists nu, de; tauto.
Qed.

(** C2 : canonical results.  Whatever [ha_frac_create] returns, and
    whatever [ha_frac_add], [ha_frac_sub], [ha_frac_mult] and [ha_frac_div]
    return on canonical operands, is canonical: numerator and denominator
    are well-formed non-negative magnitudes with greatest common divisor 1,
    the denominator is strictly positive, and zero is stored as
    (false, 0, 1). *)
Theorem frac_results_canonical (fuel : nat) :
  (forall (numerator denominator : list ascii) (f : ha_frac),
      ha_frac_create fuel numerator denominator = Value f -> canonical f)
  /\ (forall n m f : ha_frac,
        canonical n -> canonical m ->
        ha_frac_add fuel n m = Value f -> canonical f)
  /\ (forall n m f : ha_frac,
        canonical n -> canonical m ->
        ha_frac_sub fuel n m = Value f -> canonical f)
  /\ (forall n m f : ha_frac,
        canonical n -> canonical m ->
        ha_frac_mult fuel n m = Value f -> canonical f)
  /\ (forall n m f : ha_frac,
        canonical n -> canonical m ->
        ha_frac_div fuel n m = Value f -> canonical f)
  /\ (forall f : ha_frac,
        canonical f ->
        sign (nume f) = true /\ sign (denom f) = true
        /\ is_zero (denom f) = false
        /\ Z.gcd (to_Z (nume f)) (to_Z (denom f)) = 1
        /\ (is_zero (nume f) = true -> f = mk_frac false (lit "0") (lit "1"))).
Proof.
  split; [| split; [| split; [| split; [| split]]]].
  - intros s1 s2 f H.
    apply ha_frac_create_spec in H as (nu & de & _ & _ & _ & C & _); exact C.
  - intros n m f Cn Cm H.
    destruct (canonical_ok n Cn) as [On Nn], (canonical_ok m Cm) as [Om _].
    pose proof (ha_frac_add_spec fuel n m On Om Nn) as S.
    rewrite H in S; tauto.
  - intros n m f Cn Cm H.
    destruct (canonical_ok n Cn) as [On Nn], (canonical_ok m Cm) as [Om _].
    pose proof (ha_frac_sub_spec fuel n m On Om Nn) as S.
    rewrite H in S; tauto.
  - intros n m f Cn Cm H.
    destruct (canonical_ok n Cn) as [On Nn], (canonical_ok m Cm) as [Om _].
    pose proof (ha_frac_mult_spec fuel n m On Om) as S.
    rewrite H in S; tauto.
  - intros n m f Cn Cm H.
    destruct (canonical_ok n Cn) as [On Nn], (canonical_ok m Cm) as [Om _].
    destruct (Z.eq_dec (to_Z (nume m)) 0) as [E | E].
    + exfalso; revert H; unfold ha_frac_div.
      destruct Om as (W & _).
      rewrite (ha_int_sign_val _ W), E; discriminate.
    + pose proof (ha_frac_div_spec fuel n m On Om E) as S.
      rewrite H in S; tauto.
  - intros f C; pose proof C as (A & B & S1 & S2 & E & F & G).
    repeat split; auto.
    + rewrite (is_zero_to_Z _ B); apply Z.eqb_neq; lia.
    + apply canonical_zero_form; auto.
Qed.

Lemma frac_results_canonical_witness :
  ha_frac_create 9 (cstr "12") (cstr "-34")
  = Value (mk_frac true (lit "6") (lit "17"))
  /\ canonical (mk_frac true (lit "6") (lit "17")).
Proof.
  split; [vm_compute; reflexivity |].
  apply (proj1 (frac_results_canonical 9) (cstr "12") (cstr "-34")).
  vm_compute; reflexivity.
Defined.

Lemma add_unequal_denominators (fuel : nat) (n m : ha_frac) :
  canonical n -> canonical m -> enough fuel n m ->
  denom n <> denom m -> nega n = false -> nega m = false ->
  exists gcd n_mult m_mult,
    (if 0 <? ha_int_cmp (denom n) (denom m)
     then get_gcd fuel (denom m) (denom n)
     else get_gcd fuel (denom n) (denom m)) = Value gcd
    /\ to_Z gcd = Z.gcd (to_Z (denom n)) (to_Z (denom m))
    /\ ha_int_quotient fuel (denom m) gcd = Value n_mult
    /\ ha_int_quotient fuel (denom n) gcd = Value m_mult
    /\ ha_frac_add fuel n m
       = ha_frac_create fuel
           (ha_int_to_str (ha_int_add (ha_int_mult n_mult (nume n))
                             (ha_int_mult m_mult (nume m))))
           (ha_int_to_str (ha_int_mult n_mult (denom n))).
Proof.
  intros Cn Cm [F1 F2] Hd N1 N2.
  destruct (canonical_ok n Cn) as [(_ & Wnd & _ & Pnd) _].
  destruct (canonical_ok m Cm) as [(_ & Wmd & _ & Pmd) _].
  assert (Hne : to_Z (denom n) <> to_Z (denom m))
    by (intro E; apply Hd, wf_int_unique; auto).
  assert (G : exists g,
             (if 0 <? ha_int_cmp (denom n) (denom m)
              then get_gcd fuel (denom m) (denom n)
              else get_gcd fuel (denom n) (denom m)) = Value g
             /\ wf_int g = true
             /\ to_Z g = Z.gcd (to_Z (denom n)) (to_Z (denom m))).
  { destruct (0 <? ha_int_cmp (denom n) (denom m)).
    - pose proof (get_gcd_spec fuel _ _ Wmd Wnd Pmd Pnd) as G.
      destruct (get_gcd fuel (denom m) (denom n)) as [g | | |];
        try contradiction; [| nia].
      exists g; rewrite Z.gcd_comm; tauto.
    - pose proof (get_gcd_spec fuel _ _ Wnd Wmd Pnd Pmd) as G.
      destruct (get_gcd fuel (denom n) (denom m)) as [g | | |];
        try contradiction; [| nia].
      exists g; tauto. }
  destruct G as (g & Hg & Wg & Vg).
  destruct (gcd_cofactors _ _ Pnd Pmd) as (Pg & _).
  rewrite <- Vg in Pg.
  pose proof (quotient_exact fuel _ g Wmd Wg ltac:(lia) Pg) as Q1.
  pose proof (quotient_exact fuel _ g Wnd Wg ltac:(lia) Pg) as Q2.
  destruct (ha_int_quotient fuel (denom m) g) as [k | | |] eqn:Ek;
    try contradiction; [| lia].
  destruct (ha_int_quotient fuel (denom n) g) as [l | | |] eqn:El;
    try contradiction; [| lia].
  exists g, k, l; repeat split; auto.
  unfold ha_frac_add.
  rewrite (ha_int_cmp_val _ _ Wnd Wmd) in *.
  destruct (Z.eqb_spec (Z.sgn (to_Z (denom n) - to_Z (denom m))) 0) as [E | _];
    [apply -> Z.sgn_null_iff in E; lia |].
  rewrite Hg; cbn [use]; rewrite Ek; cbn [use]; rewrite El; cbn [use].
  rewrite N1, N2; cbn [andb orb negb].
  destruct (ha_frac_create fuel _ _); reflexivity.
Qed.

(** C7 : addition.  On canonical fractions, with enough fuel,
    [ha_frac_add] returns the canonical fraction whose value is the exact
    rational sum.  With equal denominators it reduces the direct sum of the
    numerators over the shared denominator; otherwise it takes the gcd of
    the denominators, multiplies each numerator by the cofactor of the
    other denominator, and reduces their sum over the common denominator
    (both shown for non-negative operands, where the sum is [ha_int_add]).
    And 1/2 + 1/3 is 5/6. *)
Theorem frac_add_exact_sum (fuel : nat) (n m : ha_frac) :
  canonical n -> canonical m -> enough fuel n m ->
  (exists r,
      ha_frac_add fuel n m = Value r /\ canonical r
      /\ (frac_Q r == frac_Q n + frac_Q m)%Q)
  /\ (denom n = denom m -> nega n = false -> nega m = false ->
      ha_frac_add fuel n m
      = ha_frac_create fuel
          (ha_int_to_str (ha_int_add (nume n) (nume m)))
          (ha_int_to_str (denom n)))
  /\ (denom n <> denom m -> nega n = false -> nega m = false ->
      exists gcd n_mult m_mult,
        (if 0 <? ha_int_cmp (denom n) (denom m)
         then get_gcd fuel (denom m) (denom n)
         else get_gcd fuel (denom n) (denom m)) = Value gcd
        /\ to_Z gcd = Z.gcd (to_Z (denom n)) (to_Z (denom m))
        /\ ha_int_quotient fuel (denom m) gcd = Value n_mult
        /\ ha_int_quotient fuel (denom n) gcd = Value m_mult
        /\ ha_frac_add fuel n m
           = ha_frac_create fuel
               (ha_int_to_str (ha_int_add (ha_int_mult n_mult (nume n))
                                 (ha_int_mult m_mult (nume m))))
               (ha_int_to_str (ha_int_mult n_mult (denom n))))
  /\ (exists half third,
        ha_frac_create 9 (cstr "1") (cstr "2") = Value half
        /\ ha_frac_create 9 (cstr "1") (cstr "3") = Value third
        /\ ha_frac_add 9 half third = Value (mk_frac false (lit "5") (lit "6"))).
Proof.
  intros Cn Cm En.
  split; [apply frac_add_total; auto |].
  split; [| split].
  - intros Ed N1 N2; unfold ha_frac_add.
    destruct Cm as (_ & Wd & _).
    rewrite Ed, (ha_int_cmp_val _ _ Wd Wd), Z.sub_diag, N1, N2.
    cbn [Z.sgn]; eval_cmp; cbn [use].
    rewrite !ha_int_copy_id.
    destruct (ha_frac_create fuel _ _); reflexivity.
  - apply add_unequal_denominators; auto.
  - exists (mk_frac false (lit "1") (lit "2")), (mk_frac false (lit "1") (lit "3")).
    repeat split; vm_compute; reflexivity.
Qed.

Lemma frac_add_exact_sum_witness :
  canonical (mk_frac false (lit "3") (lit "4"))
  /\ canonical (mk_frac true (lit "5") (lit "6"))
  /\ enough 25 (mk_frac false (lit "3") (lit "4")) (mk_frac true (lit "5") (lit "6"))
  /\ exists r,
      ha_frac_add 25 (mk_frac false (lit "3") (lit "4"))
        (mk_frac true (lit "5") (lit "6")) = Value r
      /\ canonical r
      /\ (frac_Q r == frac_Q (mk_frac false (lit "3") (lit "4"))
                      + frac_Q (mk_frac true (lit "5") (lit "6")))%Q.
Proof.
  assert (C1 : canonical (mk_frac false (lit "3") (lit "4")))
    by (repeat split; try reflexivity; discriminate).
  assert (C2 : canonical (mk_frac true (lit "5") (lit "6")))
    by (repeat split; try reflexivity; discriminate).
  assert (E : enough 25 (mk_frac false (lit "3") (lit "4"))
                (mk_frac true (lit "5") (lit "6")))
    by (split; [lia | vm_compute; reflexivity]).
  split; [exact C1 |]; split; [exact C2 |]; split; [exact E |].
  exact (proj1 (frac_add_exact_sum 25 _ _ C1 C2 E)).
Defined.

(** the claim of C6 as the specification states it, refuted: dividing 1/2
    by the zero fraction does not return the NULL that signals a failure to
    the caller; the assertion on the divisor aborts the call *)
Lemma frac_div_by_zero_is_abort :
  ha_frac_create 9 (cstr "1") (cstr "2")
  = Value (mk_frac false (lit "1") (lit "2"))
  /\ ha_frac_create 9 (cstr "0") (cstr "1")
     = Value (mk_frac false (lit "0") (lit "1"))
  /\ ha_frac_div 9 (mk_frac false (lit "1") (lit "2"))
       (mk_frac false (lit "0") (lit "1")) = Aborted
  /\ ha_frac_div 9 (mk_frac false (lit "1") (lit "2"))
       (mk_frac false (lit "0") (lit "1")) <> Null.
Proof.
  repeat split; try (vm_compute; reflexivity).
  vm_compute; discriminate.
Qed.

(** C6, amended : division needs a non-zero divisor.  [ha_frac_div] asserts
    that the divisor is not zero: on a zero divisor the call aborts on that
    assertion, whatever the fuel, and nothing is returned to the caller; on
    a non-zero canonical divisor, with enough fuel, it returns the canonical
    quotient, which is [ha_frac_mult] of [n] and the reciprocal of [m]. *)
Theorem frac_div_asserts_nonzero (fuel : nat) (n m : ha_frac) :
  canonical n -> canonical m ->
  (is_zero (nume m) = true -> ha_frac_div fuel n m = Aborted)
  /\ (is_zero (nume m) = false ->
      (9 <= fuel)%nat -> frac_den n * to_Z (nume m) < Z.of_nat fuel ->
      exists r,
        ha_frac_div fuel n m = Value r /\ canonical r
        /\ (frac_Q r * frac_Q m == frac_Q n)%Q
        /\ ha_frac_div fuel n m
           = ha_frac_mult fuel n (mk_frac (nega m) (denom m) (nume m))).
Proof.
  intros Cn Cm.
  destruct (canonical_ok n Cn) as [On Nn], (canonical_ok m Cm) as [Om _].
  pose proof Om as (W & _).
  split.
  - intro Hz; rewrite (is_zero_to_Z _ W) in Hz; apply Z.eqb_eq in Hz.
    unfold ha_frac_div; rewrite (ha_int_sign_val _ W), Hz; reflexivity.
  - intros Hz F1 F2; pose proof (nonzero_to_Z _ W Hz) as Hnz.
    pose proof (ha_frac_div_spec fuel n m On Om Hnz) as S.
    assert (U : ha_frac_div fuel n m
                = ha_frac_mult fuel n (mk_frac (nega m) (denom m) (nume m))).
    { unfold ha_frac_div; rewrite (ha_int_sign_val _ W).
      destruct (Z.eqb_spec (Z.sgn (to_Z (nume m))) 0) as [E | _];
        [apply -> Z.sgn_null_iff in E; contradiction |].
      rewrite !ha_int_copy_id; reflexivity. }
    destruct (ha_frac_div fuel n m) as [r | | |]; try contradiction; [| lia].
    destruct S as [C D]; exists r.
    split; [reflexivity |]; split; [exact C |]; split; [| exact U].
    apply denotes_quotient; auto using canonical_den_pos.
Qed.

Lemma frac_div_asserts_nonzero_witness :
  canonical (mk_frac false (lit "1") (lit "2"))
  /\ canonical (mk_frac false (lit "0") (lit "1"))
  /\ is_zero (nume (mk_frac false (lit "0") (lit "1"))) = true
  /\ ha_frac_div 9 (mk_frac false (lit "1") (lit "2"))
       (mk_frac false (lit "0") (lit "1")) = Aborted.
Proof.
  assert (C1 : canonical (mk_frac false (lit "1") (lit "2")))
    by (repeat split; try reflexivity; discriminate).
  assert (C2 : canonical (mk_frac false (lit "0") (lit "1")))
    by (repeat split; reflexivity).
  split; [exact C1 |]; split; [exact C2 |]; split; [reflexivity |].
  exact (proj1 (frac_div_asserts_nonzero 9 _ _ C1 C2) eq_refl).
Defined.

Lemma get_gcd_rec_S (fuel depth : nat) (small big : ha_int) :
  wf_int small = true -> wf_int big = true ->
  0 < to_Z small -> 0 < to_Z big ->
  get_gcd_rec fuel (S depth) small big
  = remain <- ha_int_remainder fuel big small ;;
    if ha_int_sign remain =? 0 then Value (ha_int_copy small)
    else get_gcd_rec fuel depth remain small.
Proof.
  intros Ws Wb Ps Pb; cbn [get_gcd_rec].
  rewrite (ha_int_sign_val small Ws), (ha_int_sign_val big Wb).
  rewrite !Z.sgn_pos by lia; reflexivity.
Qed.

Lemma sign_pos_iff (n : ha_int) :
  wf_int n = true -> (0 < ha_int_sign n <-> 0 < to_Z n).
Proof.
  intro W; rewrite (ha_int_sign_val n W).
  destruct (sgn_cases (to_Z n)) as [(P & S & _) | [(P & S & _) | (P & S & _)]];
    rewrite S; lia.
Qed.

(** C9 : the recursion of [get_gcd].  On strictly positive [small] and
    [big], with fuel above [small], [get_gcd] returns the greatest common
    divisor.  It returns [small] when [big mod small] is 0 and otherwise the
    result of [get_gcd (big mod small, small)], whose two arguments are
    strictly positive again, so no assertion fails.  [get_gcd (a, a)] and
    [get_gcd (1, n)] return from the first call. *)
Theorem get_gcd_terminates_with_gcd (fuel : nat) (small big : ha_int) :
  wf_int small = true -> wf_int big = true ->
  0 < ha_int_sign small -> 0 < ha_int_sign big ->
  (9 <= fuel)%nat -> to_Z small < Z.of_nat fuel ->
  exists g,
    get_gcd fuel small big = Value g
    /\ wf_int g = true
    /\ to_Z g = Z.gcd (to_Z small) (to_Z big)
    /\ (to_Z big mod to_Z small = 0 -> g = small)
    /\ (to_Z big mod to_Z small <> 0 ->
        exists remain,
          ha_int_remainder fuel big small = Value remain
          /\ to_Z remain = to_Z big mod to_Z small
          /\ 0 < ha_int_sign remain
          /\ get_gcd_rec fuel (fuel - 1) remain small = Value g)
    /\ get_gcd_rec fuel 1 small small = Value small
    /\ get_gcd_rec fuel 1 (lit "1") big = Value (lit "1").
Proof.
  intros Ws Wb Ss Sb F1 F2.
  apply (sign_pos_iff small Ws) in Ss; apply (sign_pos_iff big Wb) in Sb.
  pose proof (get_gcd_spec fuel small big Ws Wb Ss Sb) as G.
  destruct (get_gcd fuel small big) as [g | | |] eqn:Eg; try contradiction;
    [| lia].
  destruct G as [Wg Vg].
  exists g; split; [reflexivity |]; split; [exact Wg |]; split; [exact Vg |].
  assert (Hz : is_zero small = false)
    by (rewrite (is_zero_to_Z _ Ws); apply Z.eqb_neq; lia).
  destruct (remainder_total fuel big small Wb Ws Hz F1) as (remain & Hr & Wr & Vr).
  rewrite Z.rem_mod_nonneg in Vr by lia.
  pose proof (Z.mod_pos_bound (to_Z big) (to_Z small) Ss) as Mb.
  assert (Hstep : get_gcd fuel small big
                  = if ha_int_sign remain =? 0 then Value (ha_int_copy small)
                    else get_gcd_rec fuel (fuel - 1) remain small).
  { unfold get_gcd; replace fuel with (S (fuel - 1)) at 2 by lia.
    rewrite (get_gcd_rec_S fuel (fuel - 1) small big Ws Wb Ss Sb), Hr.
    reflexivity. }
  rewrite Eg, (ha_int_sign_val remain Wr), ha_int_copy_id in Hstep.
  split; [| split; [| split]].
  - intro E; rewrite <- Vr in E; rewrite E in Hstep.
    change (Z.sgn 0 =? 0) with true in Hstep; cbn iota in Hstep; congruence.
  - intro E; exists remain; rewrite <- Vr in E.
    split; [exact Hr |]; split; [exact Vr |].
    split; [apply (sign_pos_iff remain Wr); lia |].
    destruct (Z.eqb_spec (Z.sgn (to_Z remain)) 0) as [E' | _]; auto.
    apply -> Z.sgn_null_iff in E'; contradiction.
  - destruct (remainder_total fuel small small Ws Ws Hz F1) as (r0 & Hr0 & Wr0 & Vr0).
    rewrite Z.rem_same in Vr0 by lia.
    rewrite (get_gcd_rec_S fuel 0 small small Ws Ws Ss Ss), Hr0; cbn [use].
    rewrite (ha_int_sign_val r0 Wr0), Vr0, ha_int_copy_id; reflexivity.
  - assert (H1 : is_zero (lit "1") = false) by reflexivity.
    destruct (remainder_total fuel big (lit "1") Wb (proj1 lit_1) H1 F1)
      as (r1 & Hr1 & Wr1 & Vr1).
    rewrite (proj2 lit_1), Z.rem_1_r in Vr1.
    rewrite (get_gcd_rec_S fuel 0 (lit "1") big (proj1 lit_1) Wb
               ltac:(rewrite (proj2 lit_1); lia) Sb), Hr1; cbn [use].
    rewrite (ha_int_sign_val r1 Wr1), Vr1; reflexivity.
Qed.

Lemma get_gcd_terminates_with_gcd_witness :
  wf_int (lit "12") = true /\ wf_int (lit "34") = true
  /\ 0 < ha_int_sign (lit "12") /\ 0 < ha_int_sign (lit "34")
  /\ (9 <= 13)%nat /\ to_Z (lit "12") < Z.of_nat 13
  /\ exists g,
      get_gcd 13 (lit "12") (lit "34") = Value g
      /\ wf_int g = true
      /\ to_Z g = Z.gcd (to_Z (lit "12")) (to_Z (lit "34"))
      /\ (to_Z (lit "34") mod to_Z (lit "12") = 0 -> g = lit "12")
      /\ (to_Z (lit "34") mod to_Z (lit "12") <> 0 ->
          exists remain,
            ha_int_remainder 13 (lit "34") (lit "12") = Value remain
            /\ to_Z remain = to_Z (lit "34") mod to_Z (lit "12")
            /\ 0 < ha_int_sign remain
            /\ get_gcd_rec 13 (13 - 1) remain (lit "12") = Value g)
      /\ get_gcd_rec 13 1 (lit "12") (lit "12") = Value (lit "12")
      /\ get_gcd_rec 13 1 (lit "1") (lit "34") = Value (lit "1").
Proof.
  split; [reflexivity |]; split; [reflexivity |].
  split; [reflexivity |]; split; [reflexivity |].
  split; [lia |]; split; [reflexivity |].
  apply (get_gcd_terminates_with_gcd 13 (lit "12") (lit "34"));
    [reflexivity | reflexivity | reflexivity | reflexivity | lia | reflexivity].
Defined.

(* ================================================================== *)
(** * Further properties: big integers *)
(* ================================================================== *)

(** X1 : [ha_int_add] is exact.  On well-formed operands the sum is well
    formed (normal digits, no negative zero) and denotes the sum of the two
    integers. *)
Theorem ha_int_add_exact (n m : ha_int) :
  wf_int n = true -> wf_int m = true ->
  wf_int (ha_int_add n m) = true
  /\ to_Z (ha_int_add n m) = to_Z n + to_Z m
  /\ (to_Z n + to_Z m = 0 -> ha_int_add n m = lit "0").
Proof.
  intros Hn Hm; destruct (ha_int_add_spec n m Hn Hm) as [W V].
  repeat split; auto.
  intro E; apply wf_int_unique; auto; rewrite V, E; reflexivity.
Qed.

Lemma ha_int_add_exact_witness :
  wf_int (lit "-999") = true /\ wf_int (lit "1000") = true
  /\ wf_int (ha_int_add (lit "-999") (lit "1000")) = true
  /\ to_Z (ha_int_add (lit "-999") (lit "1000"))
     = to_Z (lit "-999") + to_Z (lit "1000").
Proof.
  split; [reflexivity |]; split; [reflexivity |].
  destruct (ha_int_add_exact (lit "-999") (lit "1000") eq_refl eq_refl)
    as (A & B & _).
  split; assumption.
Defined.

(** X2 : [ha_int_sub] is exact.  On well-formed operands the difference is
    well formed and denotes the difference of the two integers; a number
    minus itself is the non-negative zero. *)
Theorem ha_int_sub_exact (n m : ha_int) :
  wf_int n = true -> wf_int m = true ->
  wf_int (ha_int_sub n m) = true
  /\ to_Z (ha_int_sub n m) = to_Z n - to_Z m
  /\ ha_int_sub n n = lit "0".
Proof.
  intros Hn Hm; destruct (ha_int_sub_spec n m Hn Hm) as [W V].
  repeat split; auto.
  destruct (ha_int_sub_spec n n Hn Hn) as [W' V'].
  apply wf_int_unique; auto; rewrite V', Z.sub_diag; reflexivity.
Qed.

Lemma ha_int_sub_exact_witness :
  wf_int (lit "1") = true /\ wf_int (lit "1000") = true
  /\ wf_int (ha_int_sub (lit "1") (lit "1000")) = true
  /\ to_Z (ha_int_sub (lit "1") (lit "1000"))
     = to_Z (lit "1") - to_Z (lit "1000").
Proof.
  split; [reflexivity |]; split; [reflexivity |].
  destruct (ha_int_sub_exact (lit "1") (lit "1000") eq_refl eq_refl)
    as (A & B & _).
  split; assumption.
Defined.

(** X3 : [ha_int_mult] is exact.  On well-formed operands the product is
    well formed and denotes the product of the two integers; a product with
    zero is the non-negative zero whatever the sign of the other factor. *)
Theorem ha_int_mult_exact (n m : ha_int) :
  wf_int n = true -> wf_int m = true ->
  wf_int (ha_int_mult n m) = true
  /\ to_Z (ha_int_mult n m) = to_Z n * to_Z m
  /\ (is_zero n = true \/ is_zero m = true -> ha_int_mult n m = lit "0").
Proof.
  intros Hn Hm; destruct (ha_int_mult_spec n m Hn Hm) as [W V].
  repeat split; auto.
  rewrite (is_zero_to_Z n Hn), (is_zero_to_Z m Hm).
  intros [E | E]; apply Z.eqb_eq in E;
    apply wf_int_unique; auto; rewrite V, E; change (to_Z (lit "0")) with 0; lia.
Qed.

Lemma ha_int_mult_exact_witness :
  wf_int (lit "-12") = true /\ wf_int (lit "34") = true
  /\ wf_int (ha_int_mult (lit "-12") (lit "34")) = true
  /\ to_Z (ha_int_mult (lit "-12") (lit "34"))
     = to_Z (lit "-12") * to_Z (lit "34").
Proof.
  split; [reflexivity |]; split; [reflexivity |].
  destruct (ha_int_mult_exact (lit "-12") (lit "34") eq_refl eq_refl)
    as (A & B & _).
  split; assumption.
Defined.

(** X4 : the ring laws.  On well-formed operands [ha_int_add] and
    [ha_int_mult] are commutative and associative and [ha_int_mult]
    distributes over [ha_int_add], as equalities of the stored
    representations. *)
Theorem ha_int_ring_laws (n m k : ha_int) :
  wf_int n = true -> wf_int m = true -> wf_int k = true ->
  ha_int_add n m = ha_int_add m n
  /\ ha_int_add (ha_int_add n m) k = ha_int_add n (ha_int_add m k)
  /\ ha_int_mult n m = ha_int_mult m n
  /\ ha_int_mult (ha_int_mult n m) k = ha_int_mult n (ha_int_mult m k)
  /\ ha_int_mult n (ha_int_add m k)
     = ha_int_add (ha_int_mult n m) (ha_int_mult n k).
Proof.
  intros Hn Hm Hk.
  destruct (ha_int_add_spec n m Hn Hm) as [W1 V1].
  destruct (ha_int_add_spec m n Hm Hn) as [W2 V2].
  destruct (ha_int_add_spec m k Hm Hk) as [W3 V3].
  destruct (ha_int_add_spec _ k W1 Hk) as [W4 V4].
  destruct (ha_int_add_spec n _ Hn W3) as [W5 V5].
  destruct (ha_int_mult_spec n m Hn Hm) as [W6 V6].
  destruct (ha_int_mult_spec m n Hm Hn) as [W7 V7].
  destruct (ha_int_mult_spec m k Hm Hk) as [W8 V8].
  destruct (ha_int_mult_spec n k Hn Hk) as [W9 V9].
  destruct (ha_int_mult_spec _ k W6 Hk) as [W10 V10].
  destruct (ha_int_mult_spec n _ Hn W8) as [W11 V11].
  destruct (ha_int_mult_spec n _ Hn W3) as [W12 V12].
  destruct (ha_int_add_spec _ _ W6 W9) as [W13 V13].
  repeat split; apply wf_int_unique; auto;
    rewrite ?V4, ?V5, ?V10, ?V11, ?V12, ?V13, ?V1, ?V2, ?V3, ?V6, ?V7, ?V8, ?V9;
    ring.
Qed.

Lemma ha_int_ring_laws_witness :
  ha_int_mult (lit "-12") (ha_int_add (lit "34") (lit "-5"))
  = ha_int_add (ha_int_mult (lit "-12") (lit "34"))
      (ha_int_mult (lit "-12") (lit "-5")).
Proof.
  exact (proj2 (proj2 (proj2 (proj2
    (ha_int_ring_laws (lit "-12") (lit "34") (lit "-5")
       eq_refl eq_refl eq_refl))))).
Defined.

(** X5 : subtraction undoes addition.  On well-formed operands
    [(n + m) - m] and [(n - m) + m] are [n] again, and 0 and 1 are neutral
    for [ha_int_add] and [ha_int_mult]. *)
Theorem ha_int_sub_undoes_add (n m : ha_int) :
  wf_int n = true -> wf_int m = true ->
  ha_int_sub (ha_int_add n m) m = n
  /\ ha_int_add (ha_int_sub n m) m = n
  /\ ha_int_add n (lit "0") = n
  /\ ha_int_sub n (lit "0") = n
  /\ ha_int_mult n (lit "1") = n.
Proof.
  intros Hn Hm.
  destruct (ha_int_add_spec n m Hn Hm) as [W1 V1].
  destruct (ha_int_sub_spec n m Hn Hm) as [W2 V2].
  destruct (ha_int_sub_spec _ m W1 Hm) as [W3 V3].
  destruct (ha_int_add_spec _ m W2 Hm) as [W4 V4].
  destruct (ha_int_add_spec n (lit "0") Hn (proj1 lit_0)) as [W5 V5].
  destruct (ha_int_sub_spec n (lit "0") Hn (proj1 lit_0)) as [W6 V6].
  destruct (ha_int_mult_spec n (lit "1") Hn (proj1 lit_1)) as [W7 V7].
  rewrite (proj2 lit_0) in V5, V6; rewrite (proj2 lit_1) in V7.
  repeat split; apply wf_int_unique; auto; lia.
Qed.

Lemma ha_int_sub_undoes_add_witness :
  ha_int_sub (ha_int_add (lit "-999") (lit "1000")) (lit "1000") = lit "-999".
Proof.
  exact (proj1 (ha_int_sub_undoes_add (lit "-999") (lit "1000")
                  eq_refl eq_refl)).
Defined.

(** X6 : division undoes multiplication.  For a non-zero [m], with fuel 9,
    the quotient of [m * k] by [m] is [k] and the remainder is zero. *)
Theorem ha_int_quotient_of_product (fuel : nat) (m k : ha_int) :
  wf_int m = true -> wf_int k = true -> is_zero m = false ->
  (9 <= fuel)%nat ->
  ha_int_quotient fuel (ha_int_mult m k) m = Value k
  /\ ha_int_remainder fuel (ha_int_mult m k) m = Value (lit "0").
Proof.
  intros Hm Hk Hz Hf.
  destruct (ha_int_mult_spec m k Hm Hk) as [Wp Vp].
  pose proof (nonzero_to_Z m Hm Hz) as Hnz.
  destruct (quotient_total fuel _ m Wp Hm Hz Hf) as (q & Hq & Wq & Vq).
  destruct (remainder_total fuel _ m Wp Hm Hz Hf) as (r & Hr & Wr & Vr).
  rewrite Hq, Hr; split; f_equal; apply wf_int_unique; auto.
  - rewrite Vq, Vp, Z.mul_comm; apply Z.quot_mul; auto.
  - rewrite Vr, Vp, Z.mul_comm, Z.rem_mul by auto; reflexivity.
Qed.

Lemma ha_int_quotient_of_product_witness :
  ha_int_quotient 9 (ha_int_mult (lit "-37") (lit "27027")) (lit "-37")
  = Value (lit "27027")
  /\ ha_int_remainder 9 (ha_int_mult (lit "-37") (lit "27027")) (lit "-37")
     = Value (lit "0").
Proof.
  apply (ha_int_quotient_of_product 9 (lit "-37") (lit "27027"));
    [reflexivity | reflexivity | reflexivity | lia].
Defined.

(** X7 : the only failure of a division.  On well-formed operands, with
    fuel 9, [ha_int_quotient] and [ha_int_remainder] return NULL exactly
    when the divisor is zero, and otherwise a value: no assertion fails and
    the loops end. *)
Theorem ha_int_division_null_iff_zero (fuel : nat) (n m : ha_int) :
  wf_int n = true -> wf_int m = true -> (9 <= fuel)%nat ->
  (ha_int_quotient fuel n m = Null <-> is_zero m = true)
  /\ (ha_int_remainder fuel n m = Null <-> is_zero m = true)
  /\ (is_zero m = false ->
      exists q r,
        ha_int_quotient fuel n m = Value q
        /\ ha_int_remainder fuel n m = Value r).
Proof.
  intros Hn Hm Hf.
  assert (T : is_zero m = false ->
              exists q r,
                ha_int_quotient fuel n m = Value q
                /\ ha_int_remainder fuel n m = Value r).
  { intro Hz.
    destruct (quotient_total fuel n m Hn Hm Hz Hf) as (q & Hq & _).
    destruct (remainder_total fuel n m Hn Hm Hz Hf) as (r & Hr & _).
    exists q, r; auto. }
  split; [| split; [| exact T]].
  - split.
    + intro E; destruct (is_zero m) eqn:Hz; auto.
      destruct (T eq_refl) as (q & r & Hq & _); congruence.
    + intro Hz; unfold ha_int_quotient; rewrite Hz; reflexivity.
  - split.
    + intro E; destruct (is_zero m) eqn:Hz; auto.
      destruct (T eq_refl) as (q & r & _ & Hr); congruence.
    + intro Hz; unfold ha_int_remainder; rewrite Hz; reflexivity.
Qed.

Lemma ha_int_division_null_iff_zero_witness :
  ha_int_quotient 9 (lit "-7") (lit "0") = Null
  /\ ha_int_remainder 9 (lit "-7") (lit "0") = Null.
Proof.
  destruct (ha_int_division_null_iff_zero 9 (lit "-7") (lit "0")
              eq_refl eq_refl (le_n 9)) as (A & B & _).
  split; [apply A | apply B]; reflexivity.
Defined.

(** X8 : [ha_int_eq] decides equality.  For every pair of values, well
    formed or not, [ha_int_eq n m] holds exactly when sign and digits are
    the same; it is symmetric, and a copy made by [ha_int_copy] is equal to
    its original. *)
Theorem ha_int_eq_decides_equality :
  (forall n m : ha_int, ha_int_eq n m = true <-> n = m)
  /\ (forall n m : ha_int, ha_int_eq n m = ha_int_eq m n)
  /\ (forall n : ha_int, ha_int_eq (ha_int_copy n) n = true).
Proof.
  split; [exact ha_int_eq_true |]; split.
  - intros n m.
    destruct (ha_int_eq n m) eqn:E1, (ha_int_eq m n) eqn:E2; auto.
    + apply ha_int_eq_true in E1; subst.
      rewrite (proj2 (ha_int_eq_true m m) eq_refl) in E2; discriminate.
    + apply ha_int_eq_true in E2; subst.
      rewrite (proj2 (ha_int_eq_true n n) eq_refl) in E1; discriminate.
  - intro n; apply ha_int_eq_true, ha_int_copy_id.
Qed.

(** X9 : three-way comparison.  On well-formed operands [ha_int_cmp n m] is
    the sign of the difference of the integers, it is antisymmetric, and it
    is the [ha_int_sign] of [ha_int_sub n m]. *)
Theorem ha_int_cmp_is_sign_of_difference (n m : ha_int) :
  wf_int n = true -> wf_int m = true ->
  ha_int_cmp n m = Z.sgn (to_Z n - to_Z m)
  /\ ha_int_cmp m n = - ha_int_cmp n m
  /\ ha_int_sign (ha_int_sub n m) = ha_int_cmp n m
  /\ (ha_int_cmp n m = 0 <-> n = m).
Proof.
  intros Hn Hm.
  destruct (ha_int_sub_spec n m Hn Hm) as [W V].
  rewrite (ha_int_cmp_val n m Hn Hm), (ha_int_cmp_val m n Hm Hn),
    (ha_int_sign_val _ W), V.
  repeat split; auto.
  - replace (to_Z m - to_Z n) with (- (to_Z n - to_Z m)) by ring.
    apply Z.sgn_opp.
  - intro E; apply -> Z.sgn_null_iff in E; apply wf_int_unique; auto; lia.
  - intros ->; rewrite Z.sub_diag; reflexivity.
Qed.

Lemma ha_int_cmp_is_sign_of_difference_witness :
  ha_int_cmp (lit "-12") (lit "-5")
  = Z.sgn (to_Z (lit "-12") - to_Z (lit "-5"))
  /\ ha_int_sign (ha_int_sub (lit "-12") (lit "-5"))
     = ha_int_cmp (lit "-12") (lit "-5").
Proof.
  destruct (ha_int_cmp_is_sign_of_difference (lit "-12") (lit "-5")
              eq_refl eq_refl) as (A & _ & C & _).
  split; assumption.
Defined.

(** X10 : [posi_copy] is the absolute value.  On a well-formed operand it
    returns a well-formed, non-negative number whose value is the magnitude
    of the operand. *)
Theorem posi_copy_is_abs (n : ha_int) :
  wf_int n = true ->
  wf_int (posi_copy n) = true
  /\ sign (posi_copy n) = true
  /\ to_Z (posi_copy n) = Z.abs (to_Z n)
  /\ digits (posi_copy n) = digits n.
Proof.
  intro Hn; destruct (posi_copy_spec n Hn) as [W V].
  assert (S : sign (posi_copy n) = true)
    by (rewrite (to_Z_sign _ W), V; apply Z.leb_le; lia).
  repeat split; auto.
  pose proof (wf_int_parts _ W) as [N1 _].
  pose proof (wf_int_parts _ Hn) as [N2 _].
  apply norm_unique; auto.
  rewrite (to_Z_abs _ W), (to_Z_abs _ Hn), V, Z.abs_idemp; reflexivity.
Qed.

Lemma posi_copy_is_abs_witness :
  wf_int (posi_copy (lit "-408")) = true
  /\ sign (posi_copy (lit "-408")) = true
  /\ to_Z (posi_copy (lit "-408")) = Z.abs (to_Z (lit "-408"))
  /\ digits (posi_copy (lit "-408")) = digits (lit "-408").
Proof. exact (posi_copy_is_abs (lit "-408") eq_refl). Defined.

(* ================================================================== *)
(** * Further properties: fractions *)
(* ================================================================== *)

(** two canonical fractions that denote the same rational are the same
    record *)
Lemma canonical_unique (r1 r2 : ha_frac) :
  canonical r1 -> canonical r2 ->
  frac_num r1 * frac_den r2 = frac_num r2 * frac_den r1 -> r1 = r2.
Proof.
  intros (A1 & B1 & S1 & T1 & P1 & G1 & Z1) (A2 & B2 & S2 & T2 & P2 & G2 & Z2) H.
  pose proof (wf_sign_nonneg _ A1 S1) as N1.
  pose proof (wf_sign_nonneg _ A2 S2) as N2.
  unfold frac_num, frac_den in H.
  assert (K : to_Z (nume r1) * to_Z (denom r2) = to_Z (nume r2) * to_Z (denom r1)
              /\ nega r1 = nega r2).
  { destruct (nega r1) eqn:E1, (nega r2) eqn:E2.
    - split; [lia | reflexivity].
    - exfalso.
      assert (to_Z (nume r1) <> 0) by (intro Z; destruct (Z1 Z); discriminate).
      nia.
    - exfalso.
      assert (to_Z (nume r2) <> 0) by (intro Z; destruct (Z2 Z); discriminate).
      nia.
    - split; [lia | reflexivity]. }
  destruct K as [K Eg].
  assert (D12 : (to_Z (denom r1) | to_Z (denom r2))).
  { apply Z.gauss with (m := to_Z (nume r1)).
    - exists (to_Z (nume r2)); lia.
    - rewrite Z.gcd_comm; exact G1. }
  assert (D21 : (to_Z (denom r2) | to_Z (denom r1))).
  { apply Z.gauss with (m := to_Z (nume r2)).
    - exists (to_Z (nume r1)); lia.
    - rewrite Z.gcd_comm; exact G2. }
  assert (Ed : to_Z (denom r1) = to_Z (denom r2))
    by (apply Z.divide_antisym_nonneg; auto; lia).
  assert (En : to_Z (nume r1) = to_Z (nume r2)) by (rewrite Ed in K; nia).
  destruct r1 as [g1 n1 d1], r2 as [g2 n2 d2]; cbn [nega nume denom] in *.
  f_equal; auto using wf_int_unique.
Qed.

Lemma canonical_unique_Q (r1 r2 : ha_frac) :
  canonical r1 -> canonical r2 -> (frac_Q r1 == frac_Q r2)%Q -> r1 = r2.
Proof.
  intros C1 C2 H; apply canonical_unique; auto.
  unfold Qeq in H.
  rewrite (frac_Q_den r1 (canonical_den_pos _ C1)),
    (frac_Q_den r2 (canonical_den_pos _ C2)) in H.
  exact H.
Qed.

(** a reduced fraction is no larger than any fraction of the same value *)
Lemma reduced_le (r : ha_frac) (a b : Z) :
  canonical r -> denotes r a b -> 0 < b ->
  to_Z (nume r) <= Z.abs a /\ to_Z (denom r) <= b.
Proof.
  intros (A & B & S & T & P & G & Z0) H Hb.
  pose proof (wf_sign_nonneg _ A S) as N.
  unfold denotes, frac_den in H.
  assert (K : to_Z (nume r) * b = Z.abs a * to_Z (denom r)).
  { apply (f_equal Z.abs) in H; rewrite !Z.abs_mul in H.
    replace (Z.abs (frac_num r)) with (to_Z (nume r)) in H
      by (unfold frac_num; destruct (nega r); lia).
    rewrite (Z.abs_eq b), (Z.abs_eq (to_Z (denom r))) in H by lia; exact H. }
  split.
  - destruct (Z.eq_dec (Z.abs a) 0) as [E | E].
    + rewrite E in K; nia.
    + apply Z.divide_pos_le; [lia |].
      apply Z.gauss with (m := to_Z (denom r)); [| exact G].
      exists b; lia.
  - apply Z.divide_pos_le; [lia |].
    apply Z.gauss with (m := to_Z (nume r)); [| rewrite Z.gcd_comm; exact G].
    exists (Z.abs a); lia.
Qed.

Lemma denotes_diff (r n m : ha_frac) :
  0 < frac_den r -> 0 < frac_den n -> 0 < frac_den m ->
  denotes r (frac_num n * frac_den m - frac_num m * frac_den n)
    (frac_den n * frac_den m) ->
  (frac_Q r == frac_Q n - frac_Q m)%Q.
Proof.
  intros Hr Hn Hm H; unfold Qeq, Qminus, Qplus, Qopp; cbn [Qnum Qden].
  rewrite Pos2Z.inj_mul, (frac_Q_den r Hr), (frac_Q_den n Hn), (frac_Q_den m Hm).
  unfold frac_Q; cbn [Qnum]; unfold denotes in H; lia.
Qed.

Lemma denotes_prod (r n m : ha_frac) :
  0 < frac_den r -> 0 < frac_den n -> 0 < frac_den m ->
  denotes r (frac_num n * frac_num m) (frac_den n * frac_den m) ->
  (frac_Q r == frac_Q n * frac_Q m)%Q.
Proof.
  intros Hr Hn Hm H; unfold Qeq, Qmult; cbn [Qnum Qden].
  rewrite Pos2Z.inj_mul, (frac_Q_den r Hr), (frac_Q_den n Hn), (frac_Q_den m Hm).
  unfold frac_Q; cbn [Qnum]; unfold denotes in H; lia.
Qed.

Lemma canonical_parts (f : ha_frac) :
  canonical f -> 0 <= to_Z (nume f) /\ 1 <= to_Z (denom f) /\ 1 <= sz f.
Proof.
  intros (A & B & S & T & P & G & Z0).
  pose proof (wf_sign_nonneg _ A S); unfold sz; lia.
Qed.

Lemma abs_frac_num (f : ha_frac) :
  canonical f -> Z.abs (frac_num f) = to_Z (nume f).
Proof.
  intro C; destruct (canonical_parts f C) as (N & _).
  unfold frac_num; destruct (nega f); lia.
Qed.

Lemma fuel_for_enough (fuel : nat) (n m : ha_frac) :
  canonical n -> canonical m -> fuel_for fuel (sz n * sz m) -> enough fuel n m.
Proof.
  intros Cn Cm [F1 F2].
  destruct (canonical_parts n Cn) as (? & ? & ?), (canonical_parts m Cm) as (? & ? & ?).
  split; [exact F1 |]; unfold sz in *; nia.
Qed.

Lemma fuel_for_le (fuel : nat) (a b : Z) :
  a <= b -> fuel_for fuel b -> fuel_for fuel a.
Proof. intros L [F1 F2]; split; [exact F1 | lia]. Qed.

(** the four operations as total functions on canonical fractions, with the
    value and the size of the result *)
Lemma frac_add_sz (fuel : nat) (n m : ha_frac) :
  canonical n -> canonical m -> enough fuel n m ->
  exists r,
    ha_frac_add fuel n m = Value r /\ canonical r
    /\ (frac_Q r == frac_Q n + frac_Q m)%Q
    /\ sz r <= sz n * sz m.
Proof.
  intros Cn Cm [F1 F2].
  destruct (canonical_ok n Cn) as [On Nn]; destruct (canonical_ok m Cm) as [Om _].
  pose proof (ha_frac_add_spec fuel n m On Om Nn) as A.
  destruct (ha_frac_add fuel n m) as [r | | |]; try contradiction;
    [| unfold frac_den in A; lia].
  destruct A as [C D]; exists r.
  split; [reflexivity |]; split; [exact C |].
  split; [apply denotes_sum; auto using canonical_den_pos |].
  destruct (canonical_parts n Cn) as (? & ? & ?), (canonical_parts m Cm) as (? & ? & ?).
  pose proof (abs_frac_num n Cn); pose proof (abs_frac_num m Cm).
  apply reduced_le in D; [| exact C | unfold frac_den; nia].
  unfold sz, frac_den in *; nia.
Qed.

Lemma frac_sub_sz (fuel : nat) (n m : ha_frac) :
  canonical n -> canonical m -> enough fuel n m ->
  exists r,
    ha_frac_sub fuel n m = Value r /\ canonical r
    /\ (frac_Q r == frac_Q n - frac_Q m)%Q
    /\ sz r <= sz n * sz m.
Proof.
  intros Cn Cm [F1 F2].
  destruct (canonical_ok n Cn) as [On Nn]; destruct (canonical_ok m Cm) as [Om _].
  pose proof (ha_frac_sub_spec fuel n m On Om Nn) as A.
  destruct (ha_frac_sub fuel n m) as [r | | |]; try contradiction;
    [| unfold frac_den in A; lia].
  destruct A as [C D]; exists r.
  split; [reflexivity |]; split; [exact C |].
  split; [apply denotes_diff; auto using canonical_den_pos |].
  destruct (canonical_parts n Cn) as (? & ? & ?), (canonical_parts m Cm) as (? & ? & ?).
  pose proof (abs_frac_num n Cn); pose proof (abs_frac_num m Cm).
  apply reduced_le in D; [| exact C | unfold frac_den; nia].
  unfold sz, frac_den in *; nia.
Qed.

Lemma frac_mult_sz (fuel : nat) (n m : ha_frac) :
  canonical n -> canonical m -> enough fuel n m ->
  exists r,
    ha_frac_mult fuel n m = Value r /\ canonical r
    /\ (frac_Q r == frac_Q n * frac_Q m)%Q
    /\ sz r <= sz n * sz m.
Proof.
  intros Cn Cm [F1 F2].
  destruct (canonical_ok n Cn) as [On Nn]; destruct (canonical_ok m Cm) as [Om _].
  pose proof (ha_frac_mult_spec fuel n m On Om) as A.
  destruct (ha_frac_mult fuel n m) as [r | | |]; try contradiction;
    [| unfold frac_den in A; lia].
  destruct A as [C D]; exists r.
  split; [reflexivity |]; split; [exact C |].
  split; [apply denotes_prod; auto using canonical_den_pos |].
  destruct (canonical_parts n Cn) as (? & ? & ?), (canonical_parts m Cm) as (? & ? & ?).
  pose proof (abs_frac_num n Cn); pose proof (abs_frac_num m Cm).
  apply reduced_le in D; [| exact C | unfold frac_den; nia].
  rewrite Z.abs_mul in D.
  unfold sz, frac_den in *; nia.
Qed.

Lemma frac_div_sz (fuel : nat) (n m : ha_frac) :
  canonical n -> canonical m -> to_Z (nume m) <> 0 ->
  (9 <= fuel)%nat -> to_Z (denom n) * to_Z (nume m) < Z.of_nat fuel ->
  exists r,
    ha_frac_div fuel n m = Value r /\ canonical r
    /\ (frac_Q r * frac_Q m == frac_Q n)%Q
    /\ sz r <= sz n * sz m.
Proof.
  intros Cn Cm Hz F1 F2.
  destruct (canonical_ok n Cn) as [On Nn]; destruct (canonical_ok m Cm) as [Om _].
  pose proof (ha_frac_div_spec fuel n m On Om Hz) as A.
  destruct (ha_frac_div fuel n m) as [r | | |]; try contradiction;
    [| unfold frac_den in A; lia].
  destruct A as [C D]; exists r.
  split; [reflexivity |]; split; [exact C |].
  split; [apply denotes_quotient; auto using canonical_den_pos |].
  destruct (canonical_parts n Cn) as (? & ? & ?), (canonical_parts m Cm) as (? & ? & ?).
  pose proof (abs_frac_num n Cn); pose proof (abs_frac_num m Cm).
  assert (D' : denotes r (Z.sgn (frac_num m) * (frac_num n * frac_den m))
                 (frac_den n * to_Z (nume m))).
  { unfold denotes in *.
    assert (S : Z.sgn (frac_num m) * frac_num m = to_Z (nume m))
      by (rewrite Z.mul_comm, Z.sgn_abs; auto).
    rewrite <- S.
    replace (frac_num r * (frac_den n * (Z.sgn (frac_num m) * frac_num m)))
      with (Z.sgn (frac_num m) * (frac_num r * (frac_den n * frac_num m)))
      by ring.
    rewrite D; ring. }
  apply reduced_le in D'; [| exact C | unfold frac_den; nia].
  rewrite !Z.abs_mul in D'.
  assert (Sg : 0 <= Z.abs (Z.sgn (frac_num m)) <= 1)
    by (destruct (Z.sgn_spec (frac_num m)) as [[? ->] | [[? ->] | [? ->]]]; lia).
  unfold sz, frac_den in *.
  rewrite H5, (Z.abs_eq (to_Z (denom m))) in D' by lia.
  assert (to_Z (nume r) <= to_Z (nume n) * to_Z (denom m)) by nia.
  nia.
Qed.

Lemma create_valid (s : list ascii) (v : ha_int) :
  ha_int_create s = Some v -> valid_decimal s.
Proof.
  intro H; apply create_inv in H as (neg & ds & A & B & C & D & E & _).
  exists neg, ds; auto.
Qed.

Lemma create_none (s : list ascii) :
  ha_int_create s = None <-> ~ valid_decimal s.
Proof.
  split.
  - intros H V; apply valid_decimal_create in V as [v Hv]; congruence.
  - intro N; destruct (ha_int_create s) as [v |] eqn:E; auto.
    exfalso; apply N; eapply create_valid; eauto.
Qed.

Lemma sign_zero_iff (n : ha_int) :
  wf_int n = true -> (ha_int_sign n =? 0) = (to_Z n =? 0).
Proof.
  intro W; rewrite (ha_int_sign_val _ W).
  destruct (Z.eqb_spec (to_Z n) 0) as [E | E].
  - rewrite E; reflexivity.
  - apply Z.eqb_neq; intro S; apply -> Z.sgn_null_iff in S; auto.
Qed.

Lemma frac_create_total (fuel : nat) (s1 s2 : list ascii) (nu de : ha_int) :
  ha_int_create s1 = Some nu -> ha_int_create s2 = Some de ->
  to_Z de <> 0 -> (9 <= fuel)%nat -> Z.abs (to_Z de) < Z.of_nat fuel ->
  exists f,
    ha_frac_create fuel s1 s2 = Value f /\ canonical f
    /\ denotes f (to_Z nu) (to_Z de).
Proof.
  intros H1 H2 Hz F1 F2.
  destruct (create_wf _ _ H1) as [W1 _], (create_wf _ _ H2) as [W2 _].
  unfold ha_frac_create; rewrite H1, H2, (sign_zero_iff _ W2).
  destruct (Z.eqb_spec (to_Z de) 0) as [E | _]; [contradiction |].
  pose proof (ha_frac_reduc_spec fuel nu de W1 W2 Hz) as R.
  destruct (ha_frac_reduc fuel nu de) as [f | | |]; try contradiction; [| lia].
  exists f; tauto.
Qed.

(** X11 : the three outcomes of [ha_frac_create].  It stops on a failed
    assertion exactly when one of the two strings is not a valid decimal
    (the NULL integer is handed to [ha_int_destroy]); it prints the error
    and returns NULL exactly when both are valid and the denominator is
    "0"; so a caller sees NULL only for a zero denominator. *)
Theorem ha_frac_create_outcomes (fuel : nat) (numerator denominator : list ascii) :
  (ha_frac_create fuel numerator denominator = Aborted
   <-> ~ (valid_decimal numerator /\ valid_decimal denominator))
  /\ (ha_frac_create fuel numerator denominator = Null
      <-> valid_decimal numerator /\ denominator = cstr "0").
Proof.
  unfold ha_frac_create.
  destruct (ha_int_create numerator) as [nu |] eqn:E1.
  2:{ apply create_none in E1; split; split; try discriminate; tauto. }
  destruct (ha_int_create denominator) as [de |] eqn:E2.
  2:{ pose proof E2 as E2'; apply create_none in E2; split; split;
        try discriminate; try tauto.
      intros [_ ->]; discriminate. }
  pose proof (create_valid _ _ E1) as V1; pose proof (create_valid _ _ E2) as V2.
  destruct (create_wf _ _ E1) as [W1 _], (create_wf _ _ E2) as [W2 S2].
  rewrite (sign_zero_iff _ W2).
  destruct (Z.eqb_spec (to_Z de) 0) as [Z | Z].
  - split; split; try discriminate; try tauto.
    intros _; split; auto.
    rewrite <- S2; replace de with (lit "0"); [reflexivity |].
    apply wf_int_unique; auto.
  - pose proof (ha_frac_reduc_spec fuel nu de W1 W2 Z) as R.
    split; split.
    + intro H; rewrite H in R; contradiction.
    + tauto.
    + intro H; rewrite H in R; contradiction.
    + intros [_ ->]; exfalso; apply Z.
      vm_compute in E2; injection E2 as <-; reflexivity.
Qed.

(** X12 : the value of [ha_frac_create].  For two valid decimals with a
    non-zero denominator, and fuel above the magnitude of the denominator,
    it returns the canonical fraction that denotes numerator / denominator;
    the fraction is flagged negative exactly when the two integers have
    opposite signs. *)
Theorem ha_frac_create_value (fuel : nat) (s1 s2 : list ascii) (nu de : ha_int) :
  ha_int_create s1 = Some nu -> ha_int_create s2 = Some de ->
  to_Z de <> 0 -> (9 <= fuel)%nat -> Z.abs (to_Z de) < Z.of_nat fuel ->
  exists f,
    ha_frac_create fuel s1 s2 = Value f /\ canonical f
    /\ frac_num f * to_Z de = to_Z nu * frac_den f
    /\ (nega f = true <-> to_Z nu * to_Z de < 0).
Proof.
  intros H1 H2 Hz F1 F2.
  destruct (frac_create_total fuel s1 s2 nu de H1 H2 Hz F1 F2) as (f & Hf & C & D).
  exists f; split; [exact Hf |]; split; [exact C |]; split; [exact D |]; split.
  - intro N.
    destruct (canonical_parts f C) as (P1 & P2 & _).
    destruct (canonical_ok f C) as [_ Nz]; specialize (Nz N).
    unfold denotes, frac_num, frac_den in D; rewrite N in D; nia.
  - intro L.
    destruct (canonical_parts f C) as (P1 & P2 & _).
    unfold denotes, frac_num, frac_den in D.
    destruct (nega f); [reflexivity | exfalso; nia].
Qed.

Lemma ha_frac_create_value_witness :
  exists f,
    ha_frac_create 40 (cstr "12") (cstr "-34") = Value f /\ canonical f
    /\ frac_num f * to_Z (lit "-34") = to_Z (lit "12") * frac_den f
    /\ (nega f = true <-> to_Z (lit "12") * to_Z (lit "-34") < 0).
Proof.
  apply (ha_frac_create_value 40 (cstr "12") (cstr "-34") (lit "12") (lit "-34"));
    [reflexivity | reflexivity | vm_compute; discriminate | lia
    | vm_compute; reflexivity].
Defined.

(** X13 : equal rationals, equal records.  Two calls of [ha_frac_create]
    that both return a fraction return the same record exactly when the two
    quotients numerator / denominator are the same rational number. *)
Theorem ha_frac_create_same_value
    (fuel fuel' : nat) (s1 s2 t1 t2 : list ascii) (a b c d : ha_int) (f g : ha_frac) :
  ha_int_create s1 = Some a -> ha_int_create s2 = Some b ->
  ha_int_create t1 = Some c -> ha_int_create t2 = Some d ->
  ha_frac_create fuel s1 s2 = Value f ->
  ha_frac_create fuel' t1 t2 = Value g ->
  (f = g <-> to_Z a * to_Z d = to_Z c * to_Z b).
Proof.
  intros Ha Hb Hc Hd Hf Hg.
  apply ha_frac_create_spec in Hf as (a' & b' & Ea & Eb & Zb & Cf & Df).
  apply ha_frac_create_spec in Hg as (c' & d' & Ec & Ed & Zd & Cg & Dg).
  assert (a' = a) by congruence; assert (b' = b) by congruence.
  assert (c' = c) by congruence; assert (d' = d) by congruence.
  subst a' b' c' d'.
  pose proof (canonical_den_pos f Cf) as Pf.
  pose proof (canonical_den_pos g Cg) as Pg.
  unfold denotes in Df, Dg.
  split.
  - intros <-.
    apply (Z.mul_cancel_r _ _ (frac_den f)); [lia |].
    transitivity (frac_num f * to_Z b * to_Z d); [rewrite Df; ring |].
    transitivity (frac_num f * to_Z d * to_Z b); [ring | rewrite Dg; ring].
  - intro E; apply canonical_unique; auto.
    apply (Z.mul_cancel_r _ _ (to_Z b * to_Z d)); [nia |].
    transitivity (frac_num f * to_Z b * (to_Z d * frac_den g)); [ring |].
    rewrite Df.
    transitivity (frac_num g * to_Z d * (to_Z b * frac_den f)); [| ring].
    rewrite Dg.
    transitivity (to_Z a * to_Z d * (frac_den f * frac_den g)); [ring |].
    rewrite E; ring.
Qed.

Lemma ha_frac_create_same_value_witness :
  mk_frac true (lit "6") (lit "17") = mk_frac true (lit "6") (lit "17")
  <-> to_Z (lit "12") * to_Z (lit "51") = to_Z (lit "-18") * to_Z (lit "-34").
Proof.
  apply (ha_frac_create_same_value 40 60 (cstr "12") (cstr "-34")
           (cstr "-18") (cstr "51") (lit "12") (lit "-34") (lit "-18") (lit "51"));
    try reflexivity; vm_compute; reflexivity.
Defined.

Lemma frac_copy_value (fuel : nat) (f : ha_frac) :
  canonical f -> (9 <= fuel)%nat -> to_Z (denom f) < Z.of_nat fuel ->
  ha_frac_copy fuel f = Value f.
Proof.
  intros C F1 F2.
  pose proof C as (A & B & S & T & P & G & Z0).
  destruct (canonical_parts f C) as (N & _).
  unfold ha_frac_copy.
  destruct (frac_create_total fuel _ _ (nume f) (denom f)
              (create_to_str _ A) (create_to_str _ B)) as (r & Hr & Cr & Dr);
    [lia | exact F1 | lia |].
  rewrite Hr; cbn [use]; f_equal.
  assert (E : r = mk_frac false (nume f) (denom f)).
  { apply canonical_unique; [exact Cr | | exact Dr].
    unfold canonical; cbn [nume denom nega].
    split; [exact A |]; split; [exact B |]; split; [exact S |];
      split; [exact T |]; split; [exact P |]; split; [exact G |].
    intro Z; destruct (Z0 Z); auto. }
  rewrite E; destruct f; reflexivity.
Qed.

(** X14 : [ha_frac_copy] copies.  On a canonical fraction, with fuel above
    the denominator, the copy is a record equal to the original: reducing
    an already reduced fraction changes nothing and the sign flag is kept. *)
Theorem ha_frac_copy_is_identity (fuel : nat) (f : ha_frac) :
  canonical f -> (9 <= fuel)%nat -> to_Z (denom f) < Z.of_nat fuel ->
  ha_frac_copy fuel f = Value f.
Proof. apply frac_copy_value. Qed.

Lemma ha_frac_copy_is_identity_witness :
  ha_frac_copy 18 (mk_frac true (lit "6") (lit "17"))
  = Value (mk_frac true (lit "6") (lit "17")).
Proof.
  apply (ha_frac_copy_is_identity 18 (mk_frac true (lit "6") (lit "17")));
    [| lia | vm_compute; reflexivity].
  repeat split; try reflexivity; discriminate.
Defined.

Lemma enough_sym (fuel : nat) (n m : ha_frac) : enough fuel n m -> enough fuel m n.
Proof. intros [F1 F2]; split; [exact F1 | lia]. Qed.

Lemma enough_le (fuel : nat) (n m : ha_frac) (b : Z) :
  canonical n -> canonical m -> sz n * sz m <= b -> fuel_for fuel b ->
  enough fuel n m.
Proof.
  intros Cn Cm L F; apply fuel_for_enough; auto.
  eapply fuel_for_le; eauto.
Qed.

Lemma frac_Q_zero (f : ha_frac) :
  canonical f -> (to_Z (nume f) = 0 <-> (frac_Q f == 0)%Q).
Proof.
  intro C; unfold Qeq, frac_Q; cbn [Qnum Qden].
  pose proof (abs_frac_num f C); split; intro; lia.
Qed.

Lemma frac_Q_canonical_zero : (frac_Q (mk_frac false (lit "0") (lit "1")) == 0)%Q.
Proof. reflexivity. Qed.

(** X15 : subtraction.  On canonical fractions, with enough fuel,
    [ha_frac_sub] returns the canonical fraction whose value is the exact
    rational difference; a fraction minus itself is the zero fraction
    0/1 with the sign flag cleared. *)
Theorem frac_sub_exact_difference (fuel : nat) (n m : ha_frac) :
  canonical n -> canonical m -> enough fuel n m ->
  exists r,
    ha_frac_sub fuel n m = Value r /\ canonical r
    /\ (frac_Q r == frac_Q n - frac_Q m)%Q
    /\ (n = m -> r = mk_frac false (lit "0") (lit "1")).
Proof.
  intros Cn Cm En.
  destruct (frac_sub_sz fuel n m Cn Cm En) as (r & Hr & Cr & Qr & _).
  exists r; split; [exact Hr |]; split; [exact Cr |]; split; [exact Qr |].
  intros <-; apply canonical_unique_Q; auto using canonical_zero.
  rewrite Qr, frac_Q_canonical_zero; ring.
Qed.

Lemma frac_sub_exact_difference_witness :
  exists r,
    ha_frac_sub 25 (mk_frac false (lit "3") (lit "4"))
      (mk_frac false (lit "5") (lit "6")) = Value r
    /\ canonical r
    /\ (frac_Q r == frac_Q (mk_frac false (lit "3") (lit "4"))
                    - frac_Q (mk_frac false (lit "5") (lit "6")))%Q
    /\ (mk_frac false (lit "3") (lit "4") = mk_frac false (lit "5") (lit "6")
        -> r = mk_frac false (lit "0") (lit "1")).
Proof.
  apply (frac_sub_exact_difference 25);
    [repeat split; try reflexivity; discriminate
    | repeat split; try reflexivity; discriminate
    | split; [lia | vm_compute; reflexivity]].
Defined.

(** X16 : multiplication.  On canonical fractions, with enough fuel,
    [ha_frac_mult] returns the canonical fraction whose value is the exact
    rational product; a product with a zero factor is the zero fraction
    0/1 with the sign flag cleared, whatever the flag of the other
    factor. *)
Theorem frac_mult_exact_product (fuel : nat) (n m : ha_frac) :
  canonical n -> canonical m -> enough fuel n m ->
  exists r,
    ha_frac_mult fuel n m = Value r /\ canonical r
    /\ (frac_Q r == frac_Q n * frac_Q m)%Q
    /\ (to_Z (nume n) = 0 \/ to_Z (nume m) = 0
        -> r = mk_frac false (lit "0") (lit "1")).
Proof.
  intros Cn Cm En.
  destruct (frac_mult_sz fuel n m Cn Cm En) as (r & Hr & Cr & Qr & _).
  exists r; split; [exact Hr |]; split; [exact Cr |]; split; [exact Qr |].
  intro Z; apply canonical_unique_Q; auto using canonical_zero.
  rewrite Qr, frac_Q_canonical_zero.
  destruct Z as [Z | Z]; apply frac_Q_zero in Z; auto; rewrite Z; ring.
Qed.

Lemma frac_mult_exact_product_witness :
  exists r,
    ha_frac_mult 25 (mk_frac true (lit "3") (lit "4"))
      (mk_frac false (lit "2") (lit "3")) = Value r
    /\ canonical r
    /\ (frac_Q r == frac_Q (mk_frac true (lit "3") (lit "4"))
                    * frac_Q (mk_frac false (lit "2") (lit "3")))%Q
    /\ (to_Z (nume (mk_frac true (lit "3") (lit "4"))) = 0
        \/ to_Z (nume (mk_frac false (lit "2") (lit "3"))) = 0
        -> r = mk_frac false (lit "0") (lit "1")).
Proof.
  apply (frac_mult_exact_product 25);
    [repeat split; try reflexivity; discriminate
    | repeat split; try reflexivity; discriminate
    | split; [lia | vm_compute; reflexivity]].
Defined.

(** X17 : division undoes multiplication.  For canonical [n] and a
    non-zero canonical [m], with fuel above the product of the sizes
    (numerator plus denominator) of [n], [m] and [m], dividing the product
    [n * m] by [m] gives back the record [n], and multiplying the quotient
    [n / m] by [m] gives back [n] as well. *)
Theorem frac_div_undoes_mult (fuel : nat) (n m : ha_frac) :
  canonical n -> canonical m -> to_Z (nume m) <> 0 ->
  fuel_for fuel (sz n * sz m * sz m) ->
  (p <- ha_frac_mult fuel n m ;; ha_frac_div fuel p m) = Value n
  /\ (q <- ha_frac_div fuel n m ;; ha_frac_mult fuel q m) = Value n.
Proof.
  intros Cn Cm Hz F.
  destruct (canonical_parts n Cn) as (N1 & N2 & N3).
  destruct (canonical_parts m Cm) as (M1 & M2 & M3).
  assert (Qm : ~ (frac_Q m == 0)%Q) by (rewrite <- frac_Q_zero; auto).
  split.
  - destruct (frac_mult_sz fuel n m Cn Cm) as (p & Hp & Cp & Qp & Sp).
    { eapply enough_le; eauto; nia. }
    rewrite Hp; cbn [use].
    destruct (canonical_parts p Cp) as (P1 & P2 & P3).
    destruct (frac_div_sz fuel p m Cp Cm Hz) as (r & Hr & Cr & Qr & _).
    { apply F. }
    { destruct F as [_ F]; unfold sz in *; nia. }
    rewrite Hr; f_equal; apply canonical_unique_Q; auto.
    rewrite Qp in Qr; apply (Qmult_inj_r _ _ (frac_Q m)); auto.
  - destruct (frac_div_sz fuel n m Cn Cm Hz) as (q & Hq & Cq & Qq & Sq).
    { apply F. }
    { destruct F as [_ F]; unfold sz in *; nia. }
    rewrite Hq; cbn [use].
    destruct (canonical_parts q Cq) as (P1 & P2 & P3).
    destruct (frac_mult_sz fuel q m Cq Cm) as (r & Hr & Cr & Qr & _).
    { eapply enough_le; eauto; nia. }
    rewrite Hr; f_equal; apply canonical_unique_Q; auto.
    rewrite Qr; exact Qq.
Qed.

Lemma frac_div_undoes_mult_witness :
  (p <- ha_frac_mult 200 (mk_frac true (lit "3") (lit "4"))
          (mk_frac false (lit "2") (lit "3")) ;;
   ha_frac_div 200 p (mk_frac false (lit "2") (lit "3")))
  = Value (mk_frac true (lit "3") (lit "4")).
Proof.
  apply (frac_div_undoes_mult 200 (mk_frac true (lit "3") (lit "4"))
           (mk_frac false (lit "2") (lit "3")));
    [repeat split; try reflexivity; discriminate
    | repeat split; try reflexivity; discriminate
    | vm_compute; discriminate
    | split; [lia | vm_compute; reflexivity]].
Defined.

Lemma mul_le_bound (x y X Y B : Z) :
  0 <= x <= X -> 0 <= y <= Y -> X * Y <= B -> x * y <= B.
Proof.
  intros Hx Hy HB; apply Z.le_trans with (X * Y); [| exact HB].
  apply Z.mul_le_mono_nonneg; lia.
Qed.



(** X19 : comparison decides equality.  On canonical fractions, with
    enough fuel, [ha_frac_cmp] returns 0 exactly when the two records are
    equal, and swapping the operands negates the result. *)
Theorem frac_cmp_zero_iff_equal (fuel : nat) (n m : ha_frac) :
  canonical n -> canonical m -> enough fuel n m ->
  (ha_frac_cmp fuel n m = Value 0 <-> n = m)
  /\ (exists c, ha_frac_cmp fuel n m = Value c
                /\ ha_frac_cmp fuel m n = Value (- c)).
Proof.
  intros Cn Cm En.
  pose proof (frac_cmp_total fuel n m Cn Cm En) as H1.
  pose proof (frac_cmp_total fuel m n Cm Cn (enough_sym _ _ _ En)) as H2.
  rewrite H1, H2; split.
  - split.
    + intro E; apply canonical_unique_Q; auto.
      apply Qeq_alt; destruct (frac_Q n ?= frac_Q m)%Q; congruence.
    + intros <-.
      assert (E : (frac_Q n ?= frac_Q n)%Q = Eq) by (apply Qeq_alt; reflexivity).
      rewrite E; reflexivity.
  - eexists; split; [reflexivity |]; f_equal.
    rewrite <- (Qcompare_antisym (frac_Q n) (frac_Q m)).
    destruct (frac_Q n ?= frac_Q m)%Q; reflexivity.
Qed.

Lemma frac_cmp_zero_iff_equal_witness :
  ha_frac_cmp 25 (mk_frac false (lit "3") (lit "4")) (mk_frac false (lit "3") (lit "4"))
  = Value 0.
Proof.
  apply (proj1 (frac_cmp_zero_iff_equal 25 (mk_frac false (lit "3") (lit "4"))
                  (mk_frac false (lit "3") (lit "4"))
                  ltac:(repeat split; try reflexivity; discriminate)
                  ltac:(repeat split; try reflexivity; discriminate)
                  ltac:(split; [lia | vm_compute; reflexivity])));
    reflexivity.
Defined.

(** X20 : [ha_frac_is_frac] tells fractions from integers.  On a canonical
    fraction it returns false exactly when the denominator is 1, that is
    exactly when the value is an integer. *)
Theorem is_frac_false_iff_integer (f : ha_frac) :
  canonical f ->
  (ha_frac_is_frac f = false <-> frac_den f = 1)
  /\ (ha_frac_is_frac f = false <-> exists z : Z, (frac_Q f == inject_Z z)%Q).
Proof.
  intros C; pose proof C as (A & B & S & T & P & G & Z0).
  assert (E : ha_frac_is_frac f = false <-> frac_den f = 1).
  { unfold ha_frac_is_frac, frac_den; split.
    - intro H; apply negb_false_iff, ha_int_eq_true in H; rewrite H; reflexivity.
    - intro H; apply negb_false_iff, ha_int_eq_true, wf_int_unique; auto. }
  split; [exact E |]; rewrite E; split.
  - intro D; exists (frac_num f).
    unfold Qeq, frac_Q, inject_Z; cbn [Qnum Qden]; rewrite D; reflexivity.
  - intros [z Hz]; unfold Qeq, inject_Z in Hz; cbn [Qnum Qden] in Hz.
    rewrite (frac_Q_den f P) in Hz; unfold frac_Q in Hz; cbn [Qnum] in Hz.
    assert (Dv : (frac_den f | to_Z (nume f))).
    { rewrite <- (abs_frac_num f C); apply Z.divide_abs_r.
      exists z; lia. }
    assert (D1 : (frac_den f | 1))
      by (rewrite <- G; apply Z.gcd_greatest; [exact Dv | apply Z.divide_refl]).
    apply Z.divide_1_r_nonneg in D1; [exact D1 | unfold frac_den; lia].
Qed.

Lemma is_frac_false_iff_integer_witness :
  ha_frac_is_frac (mk_frac true (lit "7") (lit "1")) = false
  /\ ha_frac_is_frac (mk_frac true (lit "6") (lit "17")) = true.
Proof.
  split.
  - apply (proj1 (is_frac_false_iff_integer (mk_frac true (lit "7") (lit "1"))
                    ltac:(repeat split; try reflexivity; discriminate)));
      reflexivity.
  - reflexivity.
Defined.

(* ================================================================== *)
(** * Further properties: complex numbers *)
(* ================================================================== *)

Lemma frac_cmp_value (fuel : nat) (n m : ha_frac) :
  canonical n -> canonical m -> enough fuel n m ->
  ha_frac_cmp fuel n m
  = Value (Z.sgn (frac_num n * frac_den m - frac_num m * frac_den n)).
Proof.
  intros Cn Cm [F1 F2].
  destruct (canonical_ok n Cn) as [On Nn]; destruct (canonical_ok m Cm) as [Om _].
  pose proof (ha_frac_cmp_spec fuel n m On Om Nn) as A.
  destruct (ha_frac_cmp fuel n m) as [c | | |]; try contradiction.
  - rewrite A; reflexivity.
  - unfold frac_den in A; lia.
Qed.

Lemma create_zero (fuel : nat) :
  ha_frac_create fuel (cstr "0") (cstr "1")
  = Value (mk_frac false (lit "0") (lit "1")).
Proof. reflexivity. Qed.

Lemma create_one (fuel : nat) :
  ha_frac_create fuel (cstr "1") (cstr "1")
  = Value (mk_frac false (lit "1") (lit "1")).
Proof. reflexivity. Qed.

Lemma create_minus_one (fuel : nat) :
  ha_frac_create fuel (cstr "-1") (cstr "1")
  = Value (mk_frac true (lit "1") (lit "1")).
Proof. reflexivity. Qed.

Lemma canonical_one : canonical (mk_frac false (lit "1") (lit "1")).
Proof. repeat split; try reflexivity; discriminate. Qed.

Lemma canonical_minus_one : canonical (mk_frac true (lit "1") (lit "1")).
Proof. repeat split; try reflexivity; discriminate. Qed.

Lemma frac_sign_value (fuel : nat) (f : ha_frac) :
  canonical f -> fuel_for fuel (frac_den f) ->
  ha_frac_sign fuel f = Value (Z.sgn (frac_num f)).
Proof.
  intros C [F1 F2]; unfold ha_frac_sign, ha_frac_cmp_with_n.
  rewrite create_zero; cbn [use].
  rewrite frac_cmp_value; auto using canonical_zero.
  - f_equal; f_equal.
    change (frac_den (mk_frac false (lit "0") (lit "1"))) with 1.
    change (frac_num (mk_frac false (lit "0") (lit "1"))) with 0.
    ring.
  - split; [exact F1 |].
    change (to_Z (denom (mk_frac false (lit "0") (lit "1")))) with 1.
    unfold frac_den in F2; lia.
Qed.

Lemma frac_cmp_one_value (fuel : nat) (f : ha_frac) :
  canonical f -> fuel_for fuel (frac_den f) ->
  ha_frac_cmp_with_n fuel f (cstr "1")
  = Value (Z.sgn (frac_num f - frac_den f)).
Proof.
  intros C [F1 F2]; unfold ha_frac_cmp_with_n.
  rewrite create_one; cbn [use].
  rewrite frac_cmp_value; auto using canonical_one.
  - f_equal; f_equal.
    change (frac_den (mk_frac false (lit "1") (lit "1"))) with 1.
    change (frac_num (mk_frac false (lit "1") (lit "1"))) with 1.
    ring.
  - split; [exact F1 |].
    change (to_Z (denom (mk_frac false (lit "1") (lit "1")))) with 1.
    unfold frac_den in F2; lia.
Qed.

Lemma frac_cmp_minus_one_value (fuel : nat) (f : ha_frac) :
  canonical f -> fuel_for fuel (frac_den f) ->
  ha_frac_cmp_with_n fuel f (cstr "-1")
  = Value (Z.sgn (frac_num f + frac_den f)).
Proof.
  intros C [F1 F2]; unfold ha_frac_cmp_with_n.
  rewrite create_minus_one; cbn [use].
  rewrite frac_cmp_value; auto using canonical_minus_one.
  - f_equal; f_equal.
    change (frac_den (mk_frac true (lit "1") (lit "1"))) with 1.
    change (frac_num (mk_frac true (lit "1") (lit "1"))) with (-1).
    ring.
  - split; [exact F1 |].
    change (to_Z (denom (mk_frac true (lit "1") (lit "1")))) with 1.
    unfold frac_den in F2; lia.
Qed.

Lemma frac_num_zero (f : ha_frac) :
  canonical f -> (frac_num f = 0 <-> f = mk_frac false (lit "0") (lit "1")).
Proof.
  intro C; split.
  - intro Z; apply canonical_unique; auto using canonical_zero.
    rewrite Z; reflexivity.
  - intros ->; reflexivity.
Qed.

Lemma sgn_zero (z : Z) : (Z.sgn z =? 0) = (z =? 0).
Proof. destruct z; reflexivity. Qed.

Lemma comp_eq (c1 c2 : ha_comp) :
  comp_canonical c1 -> comp_canonical c2 ->
  (frac_Q (real c1) == frac_Q (real c2))%Q ->
  (frac_Q (ima c1) == frac_Q (ima c2))%Q -> c1 = c2.
Proof.
  intros [A1 B1] [A2 B2] Hr Hi.
  destruct c1 as [r1 i1], c2 as [r2 i2]; cbn [real ima] in *.
  f_equal; apply canonical_unique_Q; auto.
Qed.

Lemma comp_add_total (fuel : nat) (n m : ha_comp) :
  comp_canonical n -> comp_canonical m ->
  enough fuel (real n) (real m) -> enough fuel (ima n) (ima m) ->
  exists r,
    ha_comp_add fuel n m = Value r /\ comp_canonical r
    /\ (frac_Q (real r) == frac_Q (real n) + frac_Q (real m))%Q
    /\ (frac_Q (ima r) == frac_Q (ima n) + frac_Q (ima m))%Q.
Proof.
  intros [Cnr Cni] [Cmr Cmi] Er Ei.
  destruct (frac_add_sz fuel _ _ Cnr Cmr Er) as (a & Ha & Ca & Qa & _).
  destruct (frac_add_sz fuel _ _ Cni Cmi Ei) as (b & Hb & Cb & Qb & _).
  exists (mk_comp a b); unfold ha_comp_add; rewrite Ha, Hb; cbn [real ima].
  split; [reflexivity |]; split; [split; assumption |]; split; assumption.
Qed.

Lemma comp_sub_total (fuel : nat) (n m : ha_comp) :
  comp_canonical n -> comp_canonical m ->
  enough fuel (real n) (real m) -> enough fuel (ima n) (ima m) ->
  exists r,
    ha_comp_sub fuel n m = Value r /\ comp_canonical r
    /\ (frac_Q (real r) == frac_Q (real n) - frac_Q (real m))%Q
    /\ (frac_Q (ima r) == frac_Q (ima n) - frac_Q (ima m))%Q.
Proof.
  intros [Cnr Cni] [Cmr Cmi] Er Ei.
  destruct (frac_sub_sz fuel _ _ Cnr Cmr Er) as (a & Ha & Ca & Qa & _).
  destruct (frac_sub_sz fuel _ _ Cni Cmi Ei) as (b & Hb & Cb & Qb & _).
  exists (mk_comp a b); unfold ha_comp_sub; rewrite Ha, Hb; cbn [real ima].
  split; [reflexivity |]; split; [split; assumption |]; split; assumption.
Qed.

Lemma csz_parts (c : ha_comp) :
  comp_canonical c -> 1 <= sz (real c) /\ 1 <= sz (ima c) /\ 1 <= csz c.
Proof.
  intros [A B].
  destruct (canonical_parts _ A) as (_ & _ & ?), (canonical_parts _ B) as (_ & _ & ?).
  unfold csz; nia.
Qed.

Lemma comp_mult_sz (fuel : nat) (n m : ha_comp) :
  comp_canonical n -> comp_canonical m -> fuel_for fuel (csz n * csz m) ->
  exists r,
    ha_comp_mult fuel n m = Value r /\ comp_canonical r
    /\ (frac_Q (real r)
        == frac_Q (real n) * frac_Q (real m) - frac_Q (ima n) * frac_Q (ima m))%Q
    /\ (frac_Q (ima r)
        == frac_Q (real n) * frac_Q (ima m) + frac_Q (ima n) * frac_Q (real m))%Q
    /\ sz (real r) <= csz n * csz m /\ sz (ima r) <= csz n * csz m.
Proof.
  intros Cn Cm F.
  destruct (csz_parts n Cn) as (N1 & N2 & _), (csz_parts m Cm) as (M1 & M2 & _).
  destruct Cn as [Cnr Cni], Cm as [Cmr Cmi].
  unfold csz in *.
  set (a := sz (real n)) in *; set (b := sz (ima n)) in *.
  set (c := sz (real m)) in *; set (d := sz (ima m)) in *.
  assert (Pac : 1 <= a * c) by nia.
  assert (Pbd : 1 <= b * d) by nia.
  assert (Pad : 1 <= a * d) by nia.
  assert (Pbc : 1 <= b * c) by nia.
  assert (Bac : a * c <= a * b * (c * d)) by nia.
  assert (Bbd : b * d <= a * b * (c * d)) by nia.
  assert (Bad : a * d <= a * b * (c * d)) by nia.
  assert (Bbc : b * c <= a * b * (c * d)) by nia.
  assert (Bre : (a * c) * (b * d) <= a * b * (c * d)) by nia.
  assert (Bim : (a * d) * (b * c) <= a * b * (c * d)) by nia.
  destruct (frac_mult_sz fuel (real n) (real m) Cnr Cmr)
    as (rr & Hrr & Crr & Qrr & Srr);
    [apply (enough_le fuel _ _ (a * b * (c * d))); auto |].
  destruct (frac_mult_sz fuel (ima n) (ima m) Cni Cmi)
    as (ii & Hii & Cii & Qii & Sii);
    [apply (enough_le fuel _ _ (a * b * (c * d))); auto |].
  destruct (frac_mult_sz fuel (real n) (ima m) Cnr Cmi)
    as (ri & Hri & Cri & Qri & Sri);
    [apply (enough_le fuel _ _ (a * b * (c * d))); auto |].
  destruct (frac_mult_sz fuel (ima n) (real m) Cni Cmr)
    as (ir & Hir & Cir & Qir & Sir);
    [apply (enough_le fuel _ _ (a * b * (c * d))); auto |].
  fold a b c d in Srr, Sii, Sri, Sir.
  destruct (canonical_parts rr Crr) as (_ & _ & ?).
  destruct (canonical_parts ii Cii) as (_ & _ & ?).
  destruct (canonical_parts ri Cri) as (_ & _ & ?).
  destruct (canonical_parts ir Cir) as (_ & _ & ?).
  assert (Lre : sz rr * sz ii <= a * b * (c * d))
    by (apply (mul_le_bound _ _ (a * c) (b * d)); lia).
  assert (Lim : sz ri * sz ir <= a * b * (c * d))
    by (apply (mul_le_bound _ _ (a * d) (b * c)); lia).
  destruct (frac_sub_sz fuel rr ii Crr Cii) as (x & Hx & Cx & Qx & Sx);
    [apply (enough_le fuel _ _ (a * b * (c * d))); auto |].
  destruct (frac_add_sz fuel ri ir Cri Cir) as (y & Hy & Cy & Qy & Sy);
    [apply (enough_le fuel _ _ (a * b * (c * d))); auto |].
  exists (mk_comp x y); unfold ha_comp_mult.
  rewrite Hrr; cbn [use]; rewrite Hii; cbn [use]; rewrite Hx; cbn [after].
  rewrite Hri; cbn [use]; rewrite Hir; cbn [use]; rewrite Hy.
  cbn [real ima].
  split; [reflexivity |]; split; [split; assumption |].
  split; [rewrite Qx, Qrr, Qii; reflexivity |].
  split; [rewrite Qy, Qri, Qir; reflexivity |].
  split; lia.
Qed.

(** X21 : what [ha_comp_create] returns.  A returned number has two
    canonical parts; NULL means that all four strings are valid decimals
    and one of the denominators is "0"; a failed assertion means that one
    of the four strings is not a valid decimal. *)
Theorem ha_comp_create_outcomes
    (fuel : nat) (real_nume real_denom ima_nume ima_denom : list ascii) :
  (forall c, ha_comp_create fuel real_nume real_denom ima_nume ima_denom = Value c ->
             comp_canonical c
             /\ ha_frac_create fuel real_nume real_denom = Value (real c)
             /\ ha_frac_create fuel ima_nume ima_denom = Value (ima c))
  /\ (ha_comp_create fuel real_nume real_denom ima_nume ima_denom = Null ->
      (valid_decimal real_nume /\ valid_decimal real_denom
       /\ valid_decimal ima_nume /\ valid_decimal ima_denom)
      /\ (real_denom = cstr "0" \/ ima_denom = cstr "0"))
  /\ (ha_comp_create fuel real_nume real_denom ima_nume ima_denom = Aborted ->
      ~ (valid_decimal real_nume /\ valid_decimal real_denom
         /\ valid_decimal ima_nume /\ valid_decimal ima_denom)).
Proof.
  unfold ha_comp_create.
  assert (V : forall s1 s2 f, ha_frac_create fuel s1 s2 = Value f ->
                              valid_decimal s1 /\ valid_decimal s2 /\ canonical f).
  { intros s1 s2 f H.
    apply ha_frac_create_spec in H as (nu & de & E1 & E2 & _ & C & _).
    eauto using create_valid. }
  assert (N : forall s1 s2, ha_frac_create fuel s1 s2 = Null ->
                            valid_decimal s1 /\ valid_decimal s2 /\ s2 = cstr "0").
  { intros s1 s2; unfold ha_frac_create.
    destruct (ha_int_create s1) as [nu |] eqn:E1; [| discriminate].
    destruct (ha_int_create s2) as [de |] eqn:E2; [| discriminate].
    destruct (create_wf _ _ E1) as [W1 _], (create_wf _ _ E2) as [W2 S2].
    rewrite (sign_zero_iff _ W2).
    destruct (Z.eqb_spec (to_Z de) 0) as [Z | Z].
    - intros _; split; [| split]; eauto using create_valid.
      rewrite <- S2; replace de with (lit "0"); [reflexivity |].
      apply wf_int_unique; auto.
    - intro H; pose proof (ha_frac_reduc_spec fuel nu de W1 W2 Z) as R.
      rewrite H in R; contradiction. }
  assert (A : forall s1 s2, ha_frac_create fuel s1 s2 = Aborted ->
                            ~ (valid_decimal s1 /\ valid_decimal s2)).
  { intros s1 s2; unfold ha_frac_create.
    destruct (ha_int_create s1) as [nu |] eqn:E1;
      [| intros _ [V1 _]; apply create_none in E1; auto].
    destruct (ha_int_create s2) as [de |] eqn:E2;
      [| intros _ [_ V2]; apply create_none in E2; auto].
    destruct (create_wf _ _ E1) as [W1 _], (create_wf _ _ E2) as [W2 S2].
    rewrite (sign_zero_iff _ W2).
    destruct (Z.eqb_spec (to_Z de) 0) as [Z | Z]; [discriminate |].
    intro H; pose proof (ha_frac_reduc_spec fuel nu de W1 W2 Z) as R.
    rewrite H in R; contradiction. }
  destruct (ha_frac_create fuel real_nume real_denom) as [r | | |] eqn:Er;
    destruct (ha_frac_create fuel ima_nume ima_denom) as [i | | |] eqn:Ei;
    cbn [after];
    (split; [intros c Hc | split; [intro Hc | intro Hc]]);
    try discriminate.
  - injection Hc as <-; cbn [real ima].
    destruct (V _ _ _ Er) as (_ & _ & ?), (V _ _ _ Ei) as (_ & _ & ?).
    split; [split; assumption | split; reflexivity].
  - destruct (V _ _ _ Er) as (? & ? & _), (N _ _ Ei) as (? & ? & ?); tauto.
  - pose proof (A _ _ Ei); tauto.
  - destruct (N _ _ Er) as (? & ? & ?), (V _ _ _ Ei) as (? & ? & _); tauto.
  - destruct (N _ _ Er) as (? & ? & ?), (N _ _ Ei) as (? & ? & ?); tauto.
  - pose proof (A _ _ Ei); tauto.
  - pose proof (A _ _ Er); tauto.
  - pose proof (A _ _ Er); tauto.
  - pose proof (A _ _ Er); tauto.
  - pose proof (A _ _ Er); tauto.
Qed.

(** X22 : complex addition and subtraction.  On numbers with canonical
    parts, with enough fuel for the two pairs of parts, [ha_comp_add] and
    [ha_comp_sub] return the number whose parts are the canonical fractions
    of the exact sums and differences of the parts; subtracting [m] from
    [n + m] gives back the record [n]. *)
Theorem comp_add_sub_exact (fuel : nat) (n m : ha_comp) :
  comp_canonical n -> comp_canonical m ->
  fuel_for fuel (sz (real n) * sz (real m) * sz (real m)) ->
  fuel_for fuel (sz (ima n) * sz (ima m) * sz (ima m)) ->
  (exists r,
      ha_comp_add fuel n m = Value r /\ comp_canonical r
      /\ (frac_Q (real r) == frac_Q (real n) + frac_Q (real m))%Q
      /\ (frac_Q (ima r) == frac_Q (ima n) + frac_Q (ima m))%Q
      /\ ha_comp_sub fuel r m = Value n)
  /\ (exists r,
        ha_comp_sub fuel n m = Value r /\ comp_canonical r
        /\ (frac_Q (real r) == frac_Q (real n) - frac_Q (real m))%Q
        /\ (frac_Q (ima r) == frac_Q (ima n) - frac_Q (ima m))%Q).
Proof.
  intros Cn Cm Fr Fi.
  destruct (csz_parts n Cn) as (N1 & N2 & _), (csz_parts m Cm) as (M1 & M2 & _).
  pose proof Cn as [Cnr Cni]; pose proof Cm as [Cmr Cmi].
  assert (Er : enough fuel (real n) (real m))
    by (apply (enough_le fuel _ _ (sz (real n) * sz (real m) * sz (real m)));
        auto; nia).
  assert (Ei : enough fuel (ima n) (ima m))
    by (apply (enough_le fuel _ _ (sz (ima n) * sz (ima m) * sz (ima m)));
        auto; nia).
  split; [| apply comp_sub_total; auto].
  destruct (frac_add_sz fuel _ _ Cnr Cmr Er) as (a & Ha & Ca & Qa & Sa).
  destruct (frac_add_sz fuel _ _ Cni Cmi Ei) as (b & Hb & Cb & Qb & Sb).
  destruct (canonical_parts a Ca) as (_ & _ & ?).
  destruct (canonical_parts b Cb) as (_ & _ & ?).
  assert (Ra : ha_comp_add fuel n m = Value (mk_comp a b))
    by (unfold ha_comp_add; rewrite Ha, Hb; reflexivity).
  exists (mk_comp a b); cbn [real ima].
  split; [exact Ra |]; split; [split; assumption |].
  split; [exact Qa |]; split; [exact Qb |].
  destruct (comp_sub_total fuel (mk_comp a b) m) as (s & Hs & Cs & Qsr & Qsi);
    cbn [real ima]; auto.
  - split; assumption.
  - apply (enough_le fuel _ _ (sz (real n) * sz (real m) * sz (real m))); auto.
    apply (mul_le_bound _ _ (sz (real n) * sz (real m)) (sz (real m))); lia.
  - apply (enough_le fuel _ _ (sz (ima n) * sz (ima m) * sz (ima m))); auto.
    apply (mul_le_bound _ _ (sz (ima n) * sz (ima m)) (sz (ima m))); lia.
  - rewrite Hs; f_equal; apply comp_eq; auto.
    + rewrite Qsr; cbn [real]; rewrite Qa; ring.
    + rewrite Qsi; cbn [ima]; rewrite Qb; ring.
Qed.

Lemma comp_add_sub_exact_witness :
  exists r,
    ha_comp_add 30
      (mk_comp (mk_frac false (lit "1") (lit "2")) (mk_frac false (lit "1") (lit "3")))
      (mk_comp (mk_frac false (lit "2") (lit "1")) (mk_frac true (lit "1") (lit "1")))
    = Value r
    /\ ha_comp_sub 30 r
         (mk_comp (mk_frac false (lit "2") (lit "1")) (mk_frac true (lit "1") (lit "1")))
       = Value (mk_comp (mk_frac false (lit "1") (lit "2"))
                  (mk_frac false (lit "1") (lit "3"))).
Proof.
  destruct (comp_add_sub_exact 30
      (mk_comp (mk_frac false (lit "1") (lit "2")) (mk_frac false (lit "1") (lit "3")))
      (mk_comp (mk_frac false (lit "2") (lit "1")) (mk_frac true (lit "1") (lit "1"))))
    as [(r & H1 & _ & _ & _ & H2) _].
  - split; repeat split; try reflexivity; discriminate.
  - split; repeat split; try reflexivity; discriminate.
  - split; [lia | vm_compute; reflexivity].
  - split; [lia | vm_compute; reflexivity].
  - exists r; split; assumption.
Defined.

(** X23 : complex multiplication.  On numbers with canonical parts, with
    fuel above the product of the sizes of the four parts, [ha_comp_mult]
    returns the number whose parts are the canonical fractions of
    [ac - bd] and [ad + bc], and the operands commute. *)
Theorem comp_mult_exact (fuel : nat) (n m : ha_comp) :
  comp_canonical n -> comp_canonical m -> fuel_for fuel (csz n * csz m) ->
  exists r,
    ha_comp_mult fuel n m = Value r /\ comp_canonical r
    /\ (frac_Q (real r)
        == frac_Q (real n) * frac_Q (real m) - frac_Q (ima n) * frac_Q (ima m))%Q
    /\ (frac_Q (ima r)
        == frac_Q (real n) * frac_Q (ima m) + frac_Q (ima n) * frac_Q (real m))%Q
    /\ ha_comp_mult fuel m n = Value r.
Proof.
  intros Cn Cm F.
  destruct (comp_mult_sz fuel n m Cn Cm F) as (r & Hr & Cr & Qr & Qi & _).
  destruct (comp_mult_sz fuel m n Cm Cn) as (r' & Hr' & Cr' & Qr' & Qi' & _);
    [rewrite Z.mul_comm; exact F |].
  exists r; split; [exact Hr |]; split; [exact Cr |].
  split; [exact Qr |]; split; [exact Qi |].
  rewrite Hr'; f_equal; apply comp_eq; auto.
  - rewrite Qr, Qr'; ring.
  - rewrite Qi, Qi'; ring.
Qed.

Lemma comp_mult_exact_witness :
  exists r,
    ha_comp_mult 150
      (mk_comp (mk_frac false (lit "1") (lit "2")) (mk_frac false (lit "1") (lit "3")))
      (mk_comp (mk_frac false (lit "2") (lit "1")) (mk_frac true (lit "1") (lit "1")))
    = Value r
    /\ comp_canonical r.
Proof.
  destruct (comp_mult_exact 150
      (mk_comp (mk_frac false (lit "1") (lit "2")) (mk_frac false (lit "1") (lit "3")))
      (mk_comp (mk_frac false (lit "2") (lit "1")) (mk_frac true (lit "1") (lit "1"))))
    as (r & H1 & H2 & _).
  - split; repeat split; try reflexivity; discriminate.
  - split; repeat split; try reflexivity; discriminate.
  - split; [lia | vm_compute; reflexivity].
  - exists r; split; assumption.
Defined.

Lemma comp_is_zero_value (fuel : nat) (c : ha_comp) :
  comp_canonical c ->
  fuel_for fuel (frac_den (real c)) -> fuel_for fuel (frac_den (ima c)) ->
  ha_comp_is_zero fuel c
  = Value ((frac_num (real c) =? 0) && (frac_num (ima c) =? 0)).
Proof.
  intros [Cr Ci] Fr Fi; unfold ha_comp_is_zero.
  rewrite (frac_sign_value fuel _ Cr Fr); cbn [use].
  rewrite !sgn_zero.
  destruct (frac_num (real c) =? 0); cbn [negb andb]; [| reflexivity].
  rewrite (frac_sign_value fuel _ Ci Fi); cbn [use]; rewrite !sgn_zero.
  destruct (frac_num (ima c) =? 0); reflexivity.
Qed.

Lemma comp_is_one_value (fuel : nat) (c : ha_comp) :
  comp_canonical c ->
  fuel_for fuel (frac_den (real c)) -> fuel_for fuel (frac_den (ima c)) ->
  ha_comp_is_one fuel c
  = Value ((frac_num (ima c) =? 0)
           && (frac_num (real c) - frac_den (real c) =? 0)).
Proof.
  intros [Cr Ci] Fr Fi; unfold ha_comp_is_one.
  rewrite (frac_sign_value fuel _ Ci Fi); cbn [use].
  rewrite !sgn_zero.
  destruct (frac_num (ima c) =? 0); cbn [negb andb]; [| reflexivity].
  rewrite (frac_cmp_one_value fuel _ Cr Fr); cbn [use]; rewrite !sgn_zero.
  destruct (frac_num (real c) - frac_den (real c) =? 0); reflexivity.
Qed.

Lemma frac_num_one (f : ha_frac) :
  canonical f ->
  (frac_num f - frac_den f = 0 <-> f = mk_frac false (lit "1") (lit "1")).
Proof.
  intro C; split.
  - intro Z; apply canonical_unique; auto using canonical_one.
    change (frac_den (mk_frac false (lit "1") (lit "1"))) with 1.
    change (frac_num (mk_frac false (lit "1") (lit "1"))) with 1.
    lia.
  - intros ->; reflexivity.
Qed.

(** X24 : [ha_comp_is_zero] and [ha_comp_is_one].  On a number with
    canonical parts, with fuel above the two denominators, the first
    returns true exactly for the record 0 + 0i and the second exactly for
    the record 1 + 0i. *)
Theorem comp_is_zero_is_one (fuel : nat) (c : ha_comp) :
  comp_canonical c ->
  fuel_for fuel (frac_den (real c)) -> fuel_for fuel (frac_den (ima c)) ->
  (exists b, ha_comp_is_zero fuel c = Value b
             /\ (b = true <-> c = mk_comp (mk_frac false (lit "0") (lit "1"))
                                    (mk_frac false (lit "0") (lit "1"))))
  /\ (exists b, ha_comp_is_one fuel c = Value b
                /\ (b = true <-> c = mk_comp (mk_frac false (lit "1") (lit "1"))
                                       (mk_frac false (lit "0") (lit "1")))).
Proof.
  intros C Fr Fi; pose proof C as [Cr Ci].
  rewrite (comp_is_zero_value fuel c C Fr Fi), (comp_is_one_value fuel c C Fr Fi).
  split; eexists; (split; [reflexivity |]);
    rewrite andb_true_iff, !Z.eqb_eq.
  - rewrite (frac_num_zero _ Cr), (frac_num_zero _ Ci).
    destruct c as [r i]; cbn [real ima]; split.
    + intros [-> ->]; reflexivity.
    + intro E; injection E as -> ->; auto.
  - rewrite (frac_num_zero _ Ci), (frac_num_one _ Cr).
    destruct c as [r i]; cbn [real ima]; split.
    + intros [-> ->]; reflexivity.
    + intro E; injection E as -> ->; auto.
Qed.

Lemma comp_is_zero_is_one_witness :
  exists b,
    ha_comp_is_one 9
      (mk_comp (mk_frac false (lit "1") (lit "1")) (mk_frac false (lit "0") (lit "1")))
    = Value b
    /\ (b = true
        <-> mk_comp (mk_frac false (lit "1") (lit "1")) (mk_frac false (lit "0") (lit "1"))
            = mk_comp (mk_frac false (lit "1") (lit "1"))
                (mk_frac false (lit "0") (lit "1"))).
Proof.
  apply (comp_is_zero_is_one 9
           (mk_comp (mk_frac false (lit "1") (lit "1"))
              (mk_frac false (lit "0") (lit "1")))).
  - split; repeat split; try reflexivity; discriminate.
  - split; [lia | vm_compute; reflexivity].
  - split; [lia | vm_compute; reflexivity].
Defined.

Lemma Q_sum_squares (a b : Q) :
  (a * a + b * b == 0)%Q -> (a == 0)%Q /\ (b == 0)%Q.
Proof.
  destruct a as [an ad], b as [bn bd]; unfold Qeq, Qplus, Qmult; cbn [Qnum Qden].
  rewrite !Z.mul_1_r, !Pos2Z.inj_mul.
  pose proof (Pos2Z.is_pos ad); pose proof (Pos2Z.is_pos bd).
  intro E.
  assert (0 <= an * an * (Z.pos bd * Z.pos bd)) by nia.
  assert (0 <= bn * bn * (Z.pos ad * Z.pos ad)) by nia.
  split; nia.
Qed.

Lemma complex_div_Q (a b c d r1 r2 : Q) :
  (~ c * c + d * d == 0 ->
   r1 * (c * c + d * d) == a * c + b * d ->
   r2 * (c * c + d * d) == b * c - a * d ->
   r1 * c - r2 * d == a /\ r1 * d + r2 * c == b)%Q.
Proof.
  intros D H1 H2; split; apply (Qmult_inj_r _ _ (c * c + d * d)%Q D).
  - setoid_replace ((r1 * c - r2 * d) * (c * c + d * d))%Q
      with ((r1 * (c * c + d * d)) * c - (r2 * (c * c + d * d)) * d)%Q by ring.
    rewrite H1, H2; ring.
  - setoid_replace ((r1 * d + r2 * c) * (c * c + d * d))%Q
      with ((r1 * (c * c + d * d)) * d + (r2 * (c * c + d * d)) * c)%Q by ring.
    rewrite H1, H2; ring.
Qed.

Lemma le_mul_l (a b : Z) : 0 <= a -> 1 <= b -> a <= b * a.
Proof. intros; nia. Qed.

Lemma le_mul_r (a b : Z) : 0 <= a -> 1 <= b -> a <= a * b.
Proof. intros; nia. Qed.

Lemma den_le_sz (f : ha_frac) : canonical f -> 1 <= frac_den f <= sz f.
Proof.
  intro C; destruct (canonical_parts f C) as (? & ? & ?).
  unfold frac_den, sz; lia.
Qed.

Lemma num_le_sz (f : ha_frac) : canonical f -> 0 <= to_Z (nume f) <= sz f.
Proof.
  intro C; destruct (canonical_parts f C) as (? & ? & ?).
  unfold sz; lia.
Qed.

(** X25 : complex division.  [ha_comp_div] asserts that the divisor is not
    zero: on the record 0 + 0i the call aborts.  On any other divisor with
    canonical parts, with enough fuel, it returns the number [r] with
    canonical parts such that [r * m] is exactly [n]. *)
Theorem comp_div_exact (fuel : nat) (n m : ha_comp) :
  comp_canonical n -> comp_canonical m ->
  fuel_for fuel (csz n * csz m * (csz m * csz m)) ->
  (m = mk_comp (mk_frac false (lit "0") (lit "1")) (mk_frac false (lit "0") (lit "1")) ->
   ha_comp_div fuel n m = Aborted)
  /\ (m <> mk_comp (mk_frac false (lit "0") (lit "1"))
             (mk_frac false (lit "0") (lit "1")) ->
      exists r,
        ha_comp_div fuel n m = Value r /\ comp_canonical r
        /\ (frac_Q (real r) * frac_Q (real m) - frac_Q (ima r) * frac_Q (ima m)
            == frac_Q (real n))%Q
        /\ (frac_Q (real r) * frac_Q (ima m) + frac_Q (ima r) * frac_Q (real m)
            == frac_Q (ima n))%Q).
Proof.
  intros Cn Cm F.
  destruct (csz_parts n Cn) as (N1 & N2 & N3), (csz_parts m Cm) as (M1 & M2 & M3).
  pose proof Cn as [Cnr Cni]; pose proof Cm as [Cmr Cmi].
  pose proof (den_le_sz _ Cmr) as Dr; pose proof (den_le_sz _ Cmi) as Di.
  assert (Pmm : 1 <= csz m * csz m) by nia.
  assert (Pnm : 1 <= csz n * csz m) by nia.
  assert (Bmm : csz m * csz m <= csz n * csz m * (csz m * csz m))
    by (apply le_mul_l; lia).
  assert (Bnm : csz n * csz m <= csz n * csz m * (csz m * csz m))
    by (apply le_mul_r; lia).
  assert (Bm : csz m <= csz n * csz m * (csz m * csz m))
    by (apply Z.le_trans with (csz m * csz m); [apply le_mul_r; lia | exact Bmm]).
  assert (Bc : sz (real m) <= csz m) by (unfold csz; nia).
  assert (Bd : sz (ima m) <= csz m) by (unfold csz; nia).
  assert (Fr : fuel_for fuel (frac_den (real m)))
    by (apply (fuel_for_le fuel _ (csz n * csz m * (csz m * csz m))); [lia | exact F]).
  assert (Fi : fuel_for fuel (frac_den (ima m)))
    by (apply (fuel_for_le fuel _ (csz n * csz m * (csz m * csz m))); [lia | exact F]).
  unfold ha_comp_div; rewrite (comp_is_zero_value fuel m Cm Fr Fi); cbn [use].
  split.
  - intros ->; reflexivity.
  - intro Hm.
    assert (Nz : (frac_num (real m) =? 0) && (frac_num (ima m) =? 0) = false).
    { apply not_true_is_false; intro E.
      apply andb_true_iff in E as [E1 E2]; apply Z.eqb_eq in E1, E2.
      apply (frac_num_zero _ Cmr) in E1; apply (frac_num_zero _ Cmi) in E2.
      apply Hm; destruct m as [r i]; cbn [real ima] in *; congruence. }
    rewrite Nz; cbn [negb]; rewrite create_zero; cbn [use].
    destruct (frac_sub_sz fuel _ (ima m) canonical_zero Cmi)
      as (e & He & Ce & Qe & Se).
    { destruct Fi as [F1 F2]; split; [exact F1 |].
      change (to_Z (denom (mk_frac false (lit "0") (lit "1")))) with 1.
      unfold frac_den in F2; lia. }
    change (sz (mk_frac false (lit "0") (lit "1"))) with 1 in Se.
    rewrite He; cbn [after].
    rewrite (frac_copy_value fuel (real m) Cmr (proj1 Fr) (proj2 Fr)).
    cbn [ha_comp_create_with_ha_frac after use].
    set (mc := mk_comp (real m) e).
    assert (Cmc : comp_canonical mc) by (split; assumption).
    destruct (canonical_parts e Ce) as (_ & _ & E3).
    assert (Smc : 1 <= csz mc <= csz m) by (unfold csz, mc; cbn [real ima]; nia).
    destruct (comp_mult_sz fuel m mc Cm Cmc)
      as (mm & Hmm & [Cmmr Cmmi] & Qmmr & _ & Smmr & _).
    { apply (fuel_for_le fuel _ (csz n * csz m * (csz m * csz m))); [| exact F].
      apply Z.le_trans with (csz m * csz m); [| exact Bmm].
      apply Z.mul_le_mono_nonneg; lia. }
    destruct (comp_mult_sz fuel n mc Cn Cmc)
      as (nm & Hnm & [Cnmr Cnmi] & Qnmr & Qnmi & Snmr & Snmi).
    { apply (fuel_for_le fuel _ (csz n * csz m * (csz m * csz m))); [| exact F].
      apply Z.le_trans with (csz n * csz m); [| exact Bnm].
      apply Z.mul_le_mono_nonneg; lia. }
    rewrite Hmm; cbn [use]; rewrite Hnm; cbn [use].
    unfold mc in Qmmr, Qnmr, Qnmi; cbn [real ima] in Qmmr, Qnmr, Qnmi.
    rewrite Qe, frac_Q_canonical_zero in Qmmr, Qnmr, Qnmi.
    assert (Dz : ~ (frac_Q (real m) * frac_Q (real m)
                    + frac_Q (ima m) * frac_Q (ima m) == 0)%Q).
    { intro E; apply Q_sum_squares in E as [E1 E2].
      apply (frac_Q_zero _ Cmr) in E1; apply (frac_Q_zero _ Cmi) in E2.
      apply andb_false_iff in Nz as [Z | Z]; apply Z.eqb_neq in Z; apply Z.
      - pose proof (abs_frac_num _ Cmr); lia.
      - pose proof (abs_frac_num _ Cmi); lia. }
    assert (Qdv : (frac_Q (real mm)
                   == frac_Q (real m) * frac_Q (real m)
                      + frac_Q (ima m) * frac_Q (ima m))%Q)
      by (rewrite Qmmr; ring).
    assert (Hdv : to_Z (nume (real mm)) <> 0).
    { intro E; apply (frac_Q_zero _ Cmmr) in E; apply Dz; rewrite <- Qdv; exact E. }
    pose proof (den_le_sz _ Cnmr) as D1; pose proof (den_le_sz _ Cnmi) as D2.
    pose proof (num_le_sz _ Cmmr) as D3.
    assert (Smm : sz (real mm) <= csz m * csz m).
    { apply Z.le_trans with (csz m * csz mc); [exact Smmr |].
      apply Z.mul_le_mono_nonneg; lia. }
    assert (Snm : csz n * csz mc <= csz n * csz m)
      by (apply Z.mul_le_mono_nonneg; lia).
    assert (L1 : to_Z (denom (real nm)) * to_Z (nume (real mm))
                 <= csz n * csz m * (csz m * csz m))
      by (unfold frac_den in D1; apply Z.mul_le_mono_nonneg; lia).
    assert (L2 : to_Z (denom (ima nm)) * to_Z (nume (real mm))
                 <= csz n * csz m * (csz m * csz m))
      by (unfold frac_den in D2; apply Z.mul_le_mono_nonneg; lia).
    destruct (frac_div_sz fuel (real nm) (real mm) Cnmr Cmmr Hdv (proj1 F))
      as (r1 & Hr1 & Cr1 & Qr1 & _); [destruct F; lia |].
    destruct (frac_div_sz fuel (ima nm) (real mm) Cnmi Cmmr Hdv (proj1 F))
      as (r2 & Hr2 & Cr2 & Qr2 & _); [destruct F; lia |].
    rewrite Hr1, Hr2; cbn [after ha_comp_create_with_ha_frac].
    exists (mk_comp r1 r2); cbn [real ima].
    split; [reflexivity |]; split; [split; assumption |].
    rewrite Qdv in Qr1, Qr2.
    apply complex_div_Q; auto.
    + rewrite Qr1, Qnmr; ring.
    + rewrite Qr2, Qnmi; ring.
Qed.

Lemma comp_div_exact_witness :
  ha_comp_div 40
    (mk_comp (mk_frac false (lit "1") (lit "2")) (mk_frac false (lit "0") (lit "1")))
    (mk_comp (mk_frac false (lit "0") (lit "1")) (mk_frac false (lit "0") (lit "1")))
  = Aborted
  /\ exists r,
      ha_comp_div 40
        (mk_comp (mk_frac false (lit "1") (lit "2")) (mk_frac false (lit "0") (lit "1")))
        (mk_comp (mk_frac false (lit "0") (lit "1")) (mk_frac false (lit "1") (lit "1")))
      = Value r
      /\ comp_canonical r.
Proof.
  split.
  - apply (proj1 (comp_div_exact 40
      (mk_comp (mk_frac false (lit "1") (lit "2")) (mk_frac false (lit "0") (lit "1")))
      (mk_comp (mk_frac false (lit "0") (lit "1")) (mk_frac false (lit "0") (lit "1")))
      ltac:(split; repeat split; try reflexivity; discriminate)
      ltac:(split; repeat split; try reflexivity; discriminate)
      ltac:(split; [lia | vm_compute; reflexivity])));
      reflexivity.
  - destruct (proj2 (comp_div_exact 40
      (mk_comp (mk_frac false (lit "1") (lit "2")) (mk_frac false (lit "0") (lit "1")))
      (mk_comp (mk_frac false (lit "0") (lit "1")) (mk_frac false (lit "1") (lit "1")))
      ltac:(split; repeat split; try reflexivity; discriminate)
      ltac:(split; repeat split; try reflexivity; discriminate)
      ltac:(split; [lia | vm_compute; reflexivity])))
      as (r & H1 & H2 & _).
    + vm_compute; discriminate.
    + exists r; split; assumption.
Defined.

(* ================================================================== *)
(** * Further properties: printing and reading *)
(* ================================================================== *)

Lemma print_digits_firstn (d : list ascii) (k : nat) :
  (k <= length d)%nat -> print_digits d k = rev (firstn k d).
Proof.
  induction k as [| k IH]; intro H; [reflexivity |].
  cbn [print_digits]; rewrite IH by lia.
  rewrite (firstn_S_nth d k chnul) by lia.
  rewrite rev_app_distr; reflexivity.
Qed.

Lemma ha_int_print_to_str (n : ha_int) (newline : bool) :
  ha_int_print n newline
  = ha_int_to_str n ++ (if newline then [chnl] else []).
Proof.
  unfold ha_int_print, ha_int_to_str.
  rewrite print_digits_firstn, firstn_all by lia.
  destruct (sign n); cbn [negb]; rewrite <- ?app_assoc; reflexivity.
Qed.

Lemma frac_print_form (f : ha_frac) (newline : bool) :
  wf_int (denom f) = true ->
  ha_frac_print f newline
  = real_form (nega f) (ha_int_to_str (nume f)) (den_opt f)
    ++ (if newline then [chnl] else []).
Proof.
  intro W; unfold ha_frac_print, real_form, den_opt, minus_if, frac_den.
  rewrite !ha_int_print_to_str, !app_nil_r.
  rewrite (ha_int_cmp_val _ _ (proj1 lit_1) W), (proj2 lit_1), sgn_zero.
  replace (1 - to_Z (denom f) =? 0) with (to_Z (denom f) =? 1)
    by (destruct (Z.eqb_spec (to_Z (denom f)) 1), (Z.eqb_spec (1 - to_Z (denom f)) 0);
        auto; lia).
  destruct (to_Z (denom f) =? 1); cbn [negb opt_denom];
    rewrite <- ?app_assoc; reflexivity.
Qed.

(** ** Characters of the written forms *)

Lemma digit_not (c x : ascii) :
  is_digit c = true -> is_digit x = false -> char_eq c x = false.
Proof. intros H1 H2; apply char_eq_false; intros ->; congruence. Qed.

Lemma forallb_digit_impl (P : ascii -> bool) (l : list ascii) :
  (forall c, is_digit c = true -> P c = true) ->
  forallb is_digit l = true -> forallb P l = true.
Proof.
  intros HP; induction l as [| c tl IH]; cbn [forallb]; auto.
  intro H; apply andb_true_iff in H as [H1 H2].
  rewrite (HP c H1), (IH H2); reflexivity.
Qed.

Lemma forallb_opt_denom (P : ascii -> bool) (d : option (list ascii)) :
  (forall c, is_digit c = true -> P c = true) -> P chslash = true ->
  denom_ok d -> forallb P (opt_denom d) = true.
Proof.
  intros HP Hs; destruct d as [D |]; cbn [opt_denom denom_ok forallb]; auto.
  intros [_ HD]; rewrite Hs, (forallb_digit_impl P D HP HD); reflexivity.
Qed.

Lemma forallb_minus_if (P : ascii -> bool) (b : bool) :
  P chminus = true -> forallb P (minus_if b) = true.
Proof. intro H; destruct b; cbn [minus_if forallb]; rewrite ?H; reflexivity. Qed.

Lemma forallb_ima_body (P : ascii -> bool) (paren : bool) (N : list ascii)
    (d : option (list ascii)) :
  (forall c, is_digit c = true -> P c = true) -> P chslash = true ->
  P chlpar = true -> P chrpar = true ->
  ima_ok paren N d -> forallb P (ima_body paren N d) = true.
Proof.
  intros HP Hs Hl Hr (HN & Hd & _); unfold ima_body.
  rewrite !forallb_app, (forallb_digit_impl P N HP HN),
    (forallb_opt_denom P d HP Hs Hd).
  destruct paren; cbn [forallb]; rewrite ?Hl, ?Hr; reflexivity.
Qed.

(** ** The loops of read-input.c on lists *)

Lemma c_str_map_all (g : ascii -> ascii) (l : list ascii) :
  forallb (fun c => char_eq (g c) c && negb (char_eq c chnul)) l = true ->
  ReadInput.c_str (map g l) = l.
Proof.
  induction l as [| c tl IH]; cbn [map ReadInput.c_str forallb]; auto.
  intro H; apply andb_true_iff in H as [H1 H2].
  apply andb_true_iff in H1 as [H1 H3].
  apply char_eq_true in H1; rewrite H1.
  apply negb_true_iff in H3; rewrite H3, (IH H2); reflexivity.
Qed.

Lemma c_str_map_stop (g : ascii -> ascii) (l r : list ascii) (x : ascii) :
  forallb (fun c => char_eq (g c) c && negb (char_eq c chnul)) l = true ->
  g x = chnul ->
  ReadInput.c_str (map g (l ++ x :: r)) = l.
Proof.
  intros H Hx; induction l as [| c tl IH];
    cbn [map ReadInput.c_str forallb app] in *.
  - rewrite Hx; reflexivity.
  - apply andb_true_iff in H as [H1 H2].
    apply andb_true_iff in H1 as [H1 H3].
    apply char_eq_true in H1; rewrite H1.
    apply negb_true_iff in H3; rewrite H3, (IH H2); reflexivity.
Qed.

Lemma skip_slash_none (l : list ascii) :
  forallb (fun c => negb (char_eq c chslash)) l = true ->
  ReadInput.skip_slash l = [].
Proof.
  induction l as [| c tl IH]; cbn [ReadInput.skip_slash forallb]; auto.
  intro H; apply andb_true_iff in H as [H1 H2].
  apply negb_true_iff in H1; rewrite H1; auto.
Qed.

Lemma skip_slash_stop (l r : list ascii) :
  forallb (fun c => negb (char_eq c chslash)) l = true ->
  ReadInput.skip_slash (l ++ chslash :: r) = r.
Proof.
  induction l as [| c tl IH]; cbn [ReadInput.skip_slash forallb app]; auto.
  intro H; apply andb_true_iff in H as [H1 H2].
  apply negb_true_iff in H1; rewrite H1; auto.
Qed.

Lemma skip_to_sign_stop (l r : list ascii) (neg : bool) :
  forallb (fun c => negb (char_eq c chplus) && negb (char_eq c chminus)) l = true ->
  ReadInput.skip_to_sign (l ++ (if neg then chminus else chplus) :: r)
  = minus_if neg ++ r.
Proof.
  induction l as [| c tl IH]; cbn [ReadInput.skip_to_sign forallb app].
  - intros _; destruct neg; reflexivity.
  - intro H; apply andb_true_iff in H as [H1 H2].
    apply andb_true_iff in H1 as [H1 H3].
    apply negb_true_iff in H1, H3; rewrite H1, H3; auto.
Qed.

Lemma filter_all {A : Type} (P : A -> bool) (l : list A) :
  forallb P l = true -> filter P l = l.
Proof.
  induction l as [| c tl IH]; cbn [filter forallb]; auto.
  intro H; apply andb_true_iff in H as [H1 H2].
  rewrite H1, (IH H2); reflexivity.
Qed.

Lemma existsb_none {A : Type} (P : A -> bool) (l : list A) :
  forallb (fun c => negb (P c)) l = true -> existsb P l = false.
Proof.
  induction l as [| c tl IH]; cbn [existsb forallb]; auto.
  intro H; apply andb_true_iff in H as [H1 H2].
  apply negb_true_iff in H1; rewrite H1, (IH H2); reflexivity.
Qed.

Lemma at_app_length (l r : list ascii) (x : ascii) :
  at_ (l ++ x :: r) (length l) = x.
Proof. unfold at_; rewrite app_nth2, Nat.sub_diag by lia; reflexivity. Qed.

Lemma find_i_stop (pre post done : list ascii) (k : nat) :
  forallb (fun c => negb (char_eq c chi)) pre = true ->
  ReadInput.find_i (done ++ pre ++ chi :: post) (length pre + S k) (length done)
  = (length done + length pre)%nat.
Proof.
  revert done; induction pre as [| c tl IH]; intros done H.
  - cbn [length app Nat.add ReadInput.find_i].
    rewrite at_app_length; cbn; lia.
  - cbn [forallb] in H; apply andb_true_iff in H as [H1 H2].
    apply negb_true_iff in H1.
    cbn [length app Nat.add ReadInput.find_i].
    rewrite at_app_length, H1.
    replace (done ++ c :: tl ++ chi :: post)
      with ((done ++ [c]) ++ tl ++ chi :: post)
      by (rewrite <- app_assoc; reflexivity).
    replace (S (length done)) with (length (done ++ [c]))
      by (rewrite length_app; cbn; lia).
    rewrite (IH _ H2), length_app; cbn; lia.
Qed.

Lemma scan_back_skip (p q rest : list ascii) :
  forallb (fun c => negb (char_eq c chplus) && negb (char_eq c chminus)) q = true ->
  ReadInput.scan_back (p ++ q ++ rest) (length p + length q)
  = ReadInput.scan_back (p ++ q ++ rest) (length p).
Proof.
  revert rest; induction q as [| x q IH] using rev_ind; intros rest H.
  - cbn [length]; rewrite Nat.add_0_r; reflexivity.
  - rewrite forallb_app in H; apply andb_true_iff in H as [H1 H2].
    cbn [forallb] in H2; rewrite andb_true_r in H2.
    apply andb_true_iff in H2 as [H2 H3]; apply negb_true_iff in H2, H3.
    rewrite length_app; cbn [length].
    replace (length p + (length q + 1))%nat with (S (length p + length q)) by lia.
    cbn [ReadInput.scan_back].
    replace (p ++ (q ++ [x]) ++ rest) with ((p ++ q) ++ x :: rest)
      by (rewrite <- !app_assoc; reflexivity).
    replace (length p + length q)%nat with (length (p ++ q))
      by (rewrite length_app; reflexivity).
    rewrite at_app_length, H2, H3.
    rewrite length_app, <- app_assoc.
    apply (IH (x :: rest) H1).
Qed.

(** ** The parts of a written form *)

Lemma digit_str_cons (N : list ascii) :
  digit_str N ->
  exists n0 N', N = n0 :: N' /\ is_digit n0 = true /\ forallb is_digit N' = true.
Proof.
  intros [H1 H2]; destruct N as [| n0 N']; [contradiction |].
  cbn [forallb] in H2; apply andb_true_iff in H2 as [H2 H3].
  exists n0, N'; auto.
Qed.

Lemma forallb_signed (P : ascii -> bool) (neg : bool) (N : list ascii) :
  (forall c, is_digit c = true -> P c = true) -> P chminus = true ->
  forallb is_digit N = true -> forallb P (minus_if neg ++ N) = true.
Proof.
  intros HP Hm HN.
  rewrite forallb_app, (forallb_minus_if P neg Hm), (forallb_digit_impl P N HP HN).
  reflexivity.
Qed.

Lemma forallb_real_form (P : ascii -> bool) (neg : bool) (N : list ascii)
    (d : option (list ascii)) :
  (forall c, is_digit c = true -> P c = true) -> P chminus = true ->
  P chslash = true ->
  forallb is_digit N = true -> denom_ok d ->
  forallb P (real_form neg N d) = true.
Proof.
  intros HP Hm Hs HN Hd; unfold real_form.
  rewrite !forallb_app, (forallb_minus_if P neg Hm),
    (forallb_digit_impl P N HP HN), (forallb_opt_denom P d HP Hs Hd).
  reflexivity.
Qed.

Lemma coefficient_real_form (neg : bool) (N : list ascii) (d : option (list ascii)) :
  digit_str N -> denom_ok d ->
  ReadInput.coefficient (real_form neg N d) = real_form neg N d.
Proof.
  intros HN Hd; pose proof HN as [_ HN'].
  destruct (digit_str_cons N HN) as (n0 & N' & -> & H0 & H1).
  unfold ReadInput.coefficient.
  assert (C1 : char_eq (at_ (real_form neg (n0 :: N') d) 0) chi = false)
    by (destruct neg; [reflexivity | apply digit_not; auto]).
  assert (C2 : char_eq (at_ (real_form neg (n0 :: N') d) 0) chminus
               && char_eq (at_ (real_form neg (n0 :: N') d) 1) chi = false).
  { destruct neg; cbn [real_form minus_if app at_ nth].
    - rewrite (digit_not n0 chi H0 eq_refl); apply andb_false_r.
    - rewrite (digit_not n0 chminus H0 eq_refl); reflexivity. }
  rewrite C1, andb_false_r, <- andb_assoc, C2, andb_false_r.
  apply filter_all, forallb_real_form; auto.
  intros c Hc.
  rewrite (digit_not c chlpar Hc eq_refl), (digit_not c chrpar Hc eq_refl),
    (digit_not c chi Hc eq_refl); reflexivity.
Qed.

Lemma coefficient_ima_form (neg paren : bool) (N : list ascii)
    (d : option (list ascii)) :
  ima_ok paren N d ->
  ReadInput.coefficient (minus_if neg ++ ima_form paren N d)
  = real_form neg (ima_nume N) d.
Proof.
  intros (HN & Hd & He).
  destruct N as [| n0 N'].
  - destruct (He eq_refl) as [-> ->]; destruct neg; reflexivity.
  - cbn [forallb] in HN; apply andb_true_iff in HN as [H0 H1].
    unfold ReadInput.coefficient.
    set (s := minus_if neg ++ ima_form paren (n0 :: N') d).
    assert (C1 : char_eq (at_ s 0) chi = false)
      by (destruct neg; [reflexivity |];
          destruct paren; [reflexivity | apply digit_not; auto]).
    assert (C2 : char_eq (at_ s 0) chminus && char_eq (at_ s 1) chi = false).
    { unfold s, ima_form, ima_body.
      destruct neg, paren; cbn [minus_if app at_ nth]; try reflexivity.
      - rewrite (digit_not n0 chi H0 eq_refl); apply andb_false_r.
      - rewrite (digit_not n0 chminus H0 eq_refl); reflexivity. }
    rewrite C1, andb_false_r, <- andb_assoc, C2, andb_false_r.
    assert (P : forall c, is_digit c = true ->
                          negb (char_eq c chlpar || char_eq c chrpar || char_eq c chi)
                          = true).
    { intros c Hc.
      rewrite (digit_not c chlpar Hc eq_refl), (digit_not c chrpar Hc eq_refl),
        (digit_not c chi Hc eq_refl); reflexivity. }
    unfold s, ima_form, ima_body, real_form; cbn [ima_nume].
    rewrite !filter_app.
    rewrite (filter_all _ (minus_if neg)) by (destruct neg; reflexivity).
    rewrite (filter_all _ (n0 :: N'))
      by (cbn [forallb]; rewrite (P n0 H0); apply forallb_digit_impl; auto).
    rewrite (filter_all _ (opt_denom d)) by (apply forallb_opt_denom; auto).
    destruct paren; cbn [filter]; rewrite ?app_nil_r; reflexivity.
Qed.

Lemma numerator_of_coe (s : list ascii) (neg : bool) (N : list ascii)
    (d : option (list ascii)) :
  ReadInput.coefficient s = real_form neg N d ->
  digit_str N -> denom_ok d ->
  ReadInput.numerator s = minus_if neg ++ N
  /\ ReadInput.denominator s = denom_or_1 d.
Proof.
  intros Hc HN Hd; pose proof HN as [Hne HN'].
  unfold ReadInput.numerator, ReadInput.denominator; rewrite Hc.
  assert (K : forallb
                (fun c => char_eq (if char_eq c chslash then chnul else c) c
                          && negb (char_eq c chnul)) (minus_if neg ++ N) = true).
  { apply forallb_signed; auto.
    intros c Hx; rewrite (digit_not c chslash Hx eq_refl),
      (digit_not c chnul Hx eq_refl).
    unfold char_eq; rewrite Ascii.eqb_refl; reflexivity. }
  assert (S : forallb (fun c => negb (char_eq c chslash)) (minus_if neg ++ N) = true).
  { apply forallb_signed; auto.
    intros c Hx; rewrite (digit_not c chslash Hx eq_refl); reflexivity. }
  assert (L : (length (minus_if neg ++ N) =? 0)%nat = false).
  { apply Nat.eqb_neq; rewrite length_app.
    destruct N; [contradiction | cbn [length]; lia]. }
  unfold real_form; rewrite app_assoc.
  destruct d as [D |]; cbn [opt_denom denom_or_1 denom_ok] in *.
  - rewrite (c_str_map_stop _ _ D chslash K eq_refl), L.
    rewrite (skip_slash_stop _ _ S).
    destruct Hd as [HD _]; destruct D; [contradiction | split; reflexivity].
  - rewrite app_nil_r, (c_str_map_all _ _ K), L, (skip_slash_none _ S).
    split; reflexivity.
Qed.

Lemma numerator_empty :
  ReadInput.numerator [] = [ch0] /\ ReadInput.denominator [] = [ch1].
Proof. split; reflexivity. Qed.

Lemma only_real_real_form (neg : bool) (N : list ascii) (d : option (list ascii)) :
  forallb is_digit N = true -> denom_ok d ->
  ReadInput.only_real (real_form neg N d) = true.
Proof.
  intros HN Hd; unfold ReadInput.only_real.
  rewrite existsb_none; [reflexivity |].
  apply forallb_real_form; auto.
  intros c Hc; rewrite (digit_not c chi Hc eq_refl); reflexivity.
Qed.

Lemma only_real_with_i (pre : list ascii) :
  ReadInput.only_real (pre ++ [chi]) = false.
Proof.
  unfold ReadInput.only_real; rewrite existsb_app; cbn [existsb].
  change (char_eq chi chi) with true; rewrite orb_true_r; reflexivity.
Qed.

Lemma find_i_form (pre : list ascii) :
  forallb (fun c => negb (char_eq c chi)) pre = true ->
  ReadInput.find_i (pre ++ [chi]) (length (pre ++ [chi])) 0 = length pre.
Proof.
  intro H; rewrite length_app; cbn [length].
  replace (length pre + 1)%nat with (length pre + 1)%nat by reflexivity.
  apply (find_i_stop pre [] [] 0 H).
Qed.

Lemma no_sign_digit (c : ascii) :
  is_digit c = true ->
  negb (char_eq c chplus) && negb (char_eq c chminus) = true.
Proof.
  intro H; rewrite (digit_not c chplus H eq_refl), (digit_not c chminus H eq_refl).
  reflexivity.
Qed.

Lemma no_i_digit (c : ascii) : is_digit c = true -> negb (char_eq c chi) = true.
Proof. intro H; rewrite (digit_not c chi H eq_refl); reflexivity. Qed.

Lemma only_imaginary_ima_form (neg paren : bool) (N : list ascii)
    (d : option (list ascii)) :
  ima_ok paren N d ->
  ReadInput.only_imaginary (minus_if neg ++ ima_form paren N d) = true.
Proof.
  intro H; unfold ReadInput.only_imaginary, ima_form.
  rewrite app_assoc, only_real_with_i, find_i_form.
  - rewrite <- app_assoc, length_app.
    rewrite scan_back_skip.
    + destruct neg; reflexivity.
    + apply forallb_ima_body; auto using no_sign_digit.
  - rewrite forallb_app, forallb_minus_if by reflexivity.
    apply forallb_ima_body; auto using no_i_digit.
Qed.

Lemma real_form_cons (neg : bool) (N : list ascii) (d : option (list ascii)) :
  digit_str N -> denom_ok d ->
  exists c l0,
    real_form neg N d = c :: l0
    /\ char_eq c chnul = false /\ char_eq c chi = false
    /\ forall P : ascii -> bool,
         (forall x, is_digit x = true -> P x = true) -> P chslash = true ->
         forallb P l0 = true.
Proof.
  intros HN Hd.
  destruct (digit_str_cons N HN) as (n0 & N' & -> & H0 & H1).
  destruct neg; cbn [real_form minus_if app].
  - exists chminus, (n0 :: N' ++ opt_denom d).
    split; [reflexivity |]; split; [reflexivity |]; split; [reflexivity |].
    intros P HP Hs; cbn [forallb].
    rewrite (HP n0 H0), forallb_app, (forallb_digit_impl P N' HP H1),
      (forallb_opt_denom P d HP Hs Hd); reflexivity.
  - exists n0, (N' ++ opt_denom d).
    split; [reflexivity |].
    split; [apply digit_not; auto |]; split; [apply digit_not; auto |].
    intros P HP Hs.
    rewrite forallb_app, (forallb_digit_impl P N' HP H1),
      (forallb_opt_denom P d HP Hs Hd); reflexivity.
Qed.

Lemma mixed_form_split (neg1 neg2 paren : bool) (N1 N2 : list ascii)
    (d1 d2 : option (list ascii)) :
  digit_str N1 -> denom_ok d1 -> ima_ok paren N2 d2 ->
  let num := real_form neg1 N1 d1
             ++ [if neg2 then chminus else chplus] ++ ima_form paren N2 d2 in
  ReadInput.real num = real_form neg1 N1 d1
  /\ ReadInput.imaginary num = minus_if neg2 ++ ima_form paren N2 d2.
Proof.
  intros HN Hd Hi num.
  destruct (real_form_cons neg1 N1 d1 HN Hd) as (c & l0 & E & C0 & Ci & Pl).
  assert (R : ReadInput.only_real num = false).
  { unfold num, ima_form; rewrite !app_assoc; apply only_real_with_i. }
  assert (I : ReadInput.only_imaginary num = false).
  { unfold ReadInput.only_imaginary; rewrite R.
    unfold num, ima_form.
    replace (real_form neg1 N1 d1 ++ [if neg2 then chminus else chplus]
             ++ ima_body paren N2 d2 ++ [chi])
      with ((real_form neg1 N1 d1 ++ [if neg2 then chminus else chplus]
             ++ ima_body paren N2 d2) ++ [chi])
      by (rewrite <- !app_assoc; reflexivity).
    rewrite find_i_form.
    - replace ((real_form neg1 N1 d1 ++ [if neg2 then chminus else chplus]
                ++ ima_body paren N2 d2) ++ [chi])
        with ((real_form neg1 N1 d1 ++ [if neg2 then chminus else chplus])
              ++ ima_body paren N2 d2 ++ [chi])
        by (rewrite <- !app_assoc; reflexivity).
      rewrite (app_assoc (real_form neg1 N1 d1)
                 [if neg2 then chminus else chplus] (ima_body paren N2 d2)),
        (length_app (_ ++ _) (ima_body paren N2 d2)).
      rewrite scan_back_skip
        by (apply forallb_ima_body; auto using no_sign_digit).
      rewrite length_app; cbn [length].
      replace (length (real_form neg1 N1 d1) + 1)%nat
        with (S (length (real_form neg1 N1 d1))) by lia.
      cbn [ReadInput.scan_back].
      rewrite <- (app_assoc (real_form neg1 N1 d1)); cbn [app].
      rewrite at_app_length, E.
      destruct neg2; reflexivity.
    - rewrite !forallb_app; cbn [forallb].
      rewrite E; cbn [forallb]; rewrite Ci.
      rewrite (Pl (fun x => negb (char_eq x chi)) no_i_digit eq_refl).
      rewrite (forallb_ima_body _ paren N2 d2 no_i_digit eq_refl eq_refl eq_refl Hi).
      destruct neg2; reflexivity. }
  unfold ReadInput.real, ReadInput.imaginary; rewrite R, I.
  unfold num; rewrite E; cbn [app tl]; split.
  - cbn [ReadInput.c_str]; rewrite C0; f_equal.
    apply c_str_map_stop; [| destruct neg2; reflexivity].
    apply Pl; [| reflexivity].
    intros x Hx; rewrite (digit_not x chplus Hx eq_refl),
      (digit_not x chminus Hx eq_refl), (digit_not x chnul Hx eq_refl).
    unfold char_eq; cbn [orb]; rewrite Ascii.eqb_refl; reflexivity.
  - apply skip_to_sign_stop.
    apply Pl; [exact no_sign_digit | reflexivity].
Qed.

Lemma digit_str_ima_nume (N : list ascii) :
  forallb is_digit N = true -> digit_str (ima_nume N).
Proof.
  intro H; destruct N as [| n0 N']; cbn [ima_nume].
  - split; [discriminate | reflexivity].
  - split; [discriminate | exact H].
Qed.

(** the three written forms, as [read_input] hands them to [ha_comp_create] *)
Lemma read_forms (fuel : nat) (neg1 neg2 paren : bool) (N1 N2 : list ascii)
    (d1 d2 : option (list ascii)) :
  digit_str N1 -> denom_ok d1 -> ima_ok paren N2 d2 ->
  ReadInput.read_input fuel (real_form neg1 N1 d1)
  = ha_comp_create fuel (minus_if neg1 ++ N1) (denom_or_1 d1) [ch0] [ch1]
  /\ ReadInput.read_input fuel (minus_if neg2 ++ ima_form paren N2 d2)
     = ha_comp_create fuel [ch0] [ch1] (minus_if neg2 ++ ima_nume N2)
         (denom_or_1 d2)
  /\ ReadInput.read_input fuel
       (real_form neg1 N1 d1
        ++ [if neg2 then chminus else chplus] ++ ima_form paren N2 d2)
     = ha_comp_create fuel (minus_if neg1 ++ N1) (denom_or_1 d1)
         (minus_if neg2 ++ ima_nume N2) (denom_or_1 d2).
Proof.
  intros HN Hd Hi; pose proof Hi as (HN2 & Hd2 & _).
  destruct (numerator_of_coe _ neg1 N1 d1 (coefficient_real_form neg1 N1 d1 HN Hd)
              HN Hd) as [A1 A2].
  destruct (numerator_of_coe _ neg2 (ima_nume N2) d2
              (coefficient_ima_form neg2 paren N2 d2 Hi)
              (digit_str_ima_nume N2 HN2) Hd2) as [B1 B2].
  destruct numerator_empty as [E1 E2].
  split; [| split]; unfold ReadInput.read_input.
  - assert (R : ReadInput.real (real_form neg1 N1 d1) = real_form neg1 N1 d1)
      by (unfold ReadInput.real;
          rewrite (only_real_real_form neg1 N1 d1 (proj2 HN) Hd); reflexivity).
    assert (I : ReadInput.imaginary (real_form neg1 N1 d1) = []).
    { unfold ReadInput.imaginary, ReadInput.only_imaginary.
      rewrite (only_real_real_form neg1 N1 d1 (proj2 HN) Hd); reflexivity. }
    rewrite R, I, A1, A2, E1, E2; reflexivity.
  - assert (O : ReadInput.only_real (minus_if neg2 ++ ima_form paren N2 d2) = false)
      by (unfold ima_form; rewrite app_assoc; apply only_real_with_i).
    unfold ReadInput.real, ReadInput.imaginary.
    rewrite O, (only_imaginary_ima_form neg2 paren N2 d2 Hi).
    rewrite B1, B2, E1, E2; reflexivity.
  - destruct (mixed_form_split neg1 neg2 paren N1 N2 d1 d2 HN Hd Hi) as [R I].
    rewrite R, I, A1, A2, B1, B2; reflexivity.
Qed.

(** ** The text of a canonical fraction *)

Lemma to_str_digit_str (n : ha_int) :
  wf_int n = true -> sign n = true -> digit_str (ha_int_to_str n).
Proof.
  intros W S; apply wf_int_parts in W as [Nn _].
  apply norm_parts in Nn as (L & D & _).
  unfold ha_int_to_str; rewrite S; cbn [app]; split.
  - intro E; apply (f_equal (@length ascii)) in E.
    rewrite length_rev in E; cbn [length] in E; lia.
  - rewrite forallb_rev; exact D.
Qed.

Lemma denom_ok_den_opt (f : ha_frac) : canonical f -> denom_ok (den_opt f).
Proof.
  intros (_ & B & _ & T & _); unfold den_opt.
  destruct (frac_den f =? 1); cbn [denom_ok]; auto using to_str_digit_str.
Qed.

Lemma denom_or_1_den_opt (f : ha_frac) :
  canonical f -> denom_or_1 (den_opt f) = ha_int_to_str (denom f).
Proof.
  intros (_ & B & _); unfold den_opt, frac_den.
  destruct (Z.eqb_spec (to_Z (denom f)) 1) as [E | E]; [| reflexivity].
  replace (denom f) with (lit "1"); [reflexivity |].
  apply wf_int_unique; auto.
Qed.

Lemma frac_of_text (fuel : nat) (f : ha_frac) :
  canonical f -> fuel_for fuel (frac_den f) ->
  ha_frac_create fuel (minus_if (nega f) ++ ha_int_to_str (nume f))
    (denom_or_1 (den_opt f))
  = Value f.
Proof.
  intros C [F1 F2]; pose proof C as (A & B & S & T & P & G & Z0).
  rewrite (denom_or_1_den_opt f C).
  assert (N : exists nu,
             ha_int_create (minus_if (nega f) ++ ha_int_to_str (nume f)) = Some nu
             /\ to_Z nu = frac_num f).
  { unfold frac_num; destruct (nega f) eqn:Ng; cbn [minus_if app].
    - exists (mk_int false (digits (nume f))).
      destruct (canonical_ok f C) as [_ Nz]; specialize (Nz Ng).
      pose proof (wf_int_parts _ A) as [Nn _].
      assert (W : wf_int (mk_int false (digits (nume f))) = true).
      { apply wf_int_intro; auto.
        intros _ E; apply Nz; unfold to_Z; rewrite S; exact E. }
      split.
      + rewrite <- (create_to_str _ W); unfold ha_int_to_str; cbn [sign digits].
        rewrite S; reflexivity.
      + unfold to_Z; cbn [sign digits]; rewrite S; reflexivity.
    - exists (nume f); split; [apply create_to_str; auto | reflexivity]. }
  destruct N as (nu & Hnu & Vnu).
  destruct (frac_create_total fuel _ _ nu (denom f) Hnu (create_to_str _ B))
    as (r & Hr & Cr & Dr); [lia | exact F1 | unfold frac_den in F2; lia |].
  rewrite Hr; f_equal; apply canonical_unique; auto.
  unfold denotes in Dr; rewrite Vnu in Dr; exact Dr.
Qed.

Lemma frac_negate (fuel : nat) (f : ha_frac) :
  canonical f -> nega f = true -> fuel_for fuel (frac_den f) ->
  ha_frac_sub fuel (mk_frac false (lit "0") (lit "1")) f
  = Value (mk_frac false (nume f) (denom f)).
Proof.
  intros C Ng [F1 F2]; pose proof C as (A & B & S & T & P & G & Z0).
  destruct (frac_sub_sz fuel _ f canonical_zero C) as (r & Hr & Cr & Qr & _).
  { split; [exact F1 |].
    change (to_Z (denom (mk_frac false (lit "0") (lit "1")))) with 1.
    unfold frac_den in F2; lia. }
  rewrite Hr; f_equal; apply canonical_unique_Q; auto.
  - unfold canonical; cbn [nume denom nega].
    split; [exact A |]; split; [exact B |]; split; [exact S |];
      split; [exact T |]; split; [exact P |]; split; [exact G |].
    intro Z; destruct (Z0 Z); auto.
  - rewrite Qr, frac_Q_canonical_zero.
    unfold frac_Q, frac_num, frac_den; cbn [nega nume denom]; rewrite Ng.
    unfold Qeq, Qminus, Qplus, Qopp; cbn [Qnum Qden]; lia.
Qed.

Lemma frac_num_eqb (f : ha_frac) : (frac_num f =? 0) = (to_Z (nume f) =? 0).
Proof.
  unfold frac_num; destruct (nega f); auto.
  destruct (Z.eqb_spec (- to_Z (nume f)) 0), (Z.eqb_spec (to_Z (nume f)) 0);
    auto; lia.
Qed.

Lemma is_frac_value (f : ha_frac) :
  wf_int (denom f) = true -> ha_frac_is_frac f = negb (frac_den f =? 1).
Proof.
  intro W; unfold ha_frac_is_frac, frac_den.
  rewrite (ha_int_eq_val _ _ W (proj1 lit_1)), (proj2 lit_1); reflexivity.
Qed.

Lemma unit_test (f : ha_frac) :
  canonical f ->
  (to_Z (nume f) =? 1) && (frac_den f =? 1) = (to_Z (nume f) =? frac_den f).
Proof.
  intros (A & B & S & T & P & G & Z0); unfold frac_den.
  destruct (Z.eqb_spec (to_Z (nume f)) (to_Z (denom f))) as [E | E].
  - rewrite E, Z.gcd_diag, Z.abs_eq in G by lia.
    rewrite E, G; reflexivity.
  - destruct (Z.eqb_spec (to_Z (nume f)) 1), (Z.eqb_spec (to_Z (denom f)) 1);
      auto; lia.
Qed.

Lemma comp_print_value (fuel : nat) (c : ha_comp) (newline : bool) :
  comp_canonical c ->
  fuel_for fuel (frac_den (real c)) -> fuel_for fuel (frac_den (ima c)) ->
  ha_comp_print fuel c newline
  = Value (comp_text c ++ (if newline then [chnl] else [])).
Proof.
  intros [Cr Ci] Fr Fi.
  pose proof Cr as (Ar & Br & _); pose proof Ci as (Ai & Bi & _).
  destruct (canonical_parts _ Ci) as (Ni & Di & _).
  unfold ha_comp_print, comp_text.
  rewrite (frac_sign_value fuel _ Cr Fr); cbn [use].
  rewrite (frac_sign_value fuel _ Ci Fi); cbn [use].
  rewrite !sgn_zero, !frac_num_eqb.
  destruct (Z.eqb_spec (to_Z (nume (ima c))) 0) as [Zi | Zi]; cbn [negb andb use].
  - destruct (Z.eqb_spec (to_Z (nume (real c))) 0) as [Zr | Zr]; cbn [negb andb].
    + assert (E : real c = mk_frac false (lit "0") (lit "1"))
        by (apply frac_num_zero; auto; unfold frac_num; rewrite Zr;
            destruct (nega (real c)); reflexivity).
      rewrite E; reflexivity.
    + rewrite (frac_print_form _ false Br), !app_nil_r; reflexivity.
  - assert (Sg : Z.sgn (frac_num (ima c)) = if nega (ima c) then -1 else 1)
      by (unfold frac_num; destruct (nega (ima c));
          [apply Z.sgn_neg | apply Z.sgn_pos]; lia).
    assert (E1 : (frac_num (ima c) - frac_den (ima c) =? 0)
                 = negb (nega (ima c))
                   && ((to_Z (nume (ima c)) =? 1) && (frac_den (ima c) =? 1))).
    { rewrite (unit_test _ Ci); unfold frac_num, frac_den.
      destruct (nega (ima c)); cbn [negb andb].
      - apply Z.eqb_neq; lia.
      - destruct (Z.eqb_spec (to_Z (nume (ima c))) (to_Z (denom (ima c))));
          [apply Z.eqb_eq | apply Z.eqb_neq]; lia. }
    assert (E2 : (frac_num (ima c) + frac_den (ima c) =? 0)
                 = nega (ima c)
                   && ((to_Z (nume (ima c)) =? 1) && (frac_den (ima c) =? 1))).
    { rewrite (unit_test _ Ci); unfold frac_num, frac_den.
      destruct (nega (ima c)); cbn [negb andb].
      - destruct (Z.eqb_spec (to_Z (nume (ima c))) (to_Z (denom (ima c))));
          [apply Z.eqb_eq | apply Z.eqb_neq]; lia.
      - apply Z.eqb_neq; lia. }
    rewrite Sg, (frac_cmp_one_value fuel _ Ci Fi); cbn [use].
    rewrite (frac_cmp_minus_one_value fuel _ Ci Fi); cbn [use].
    rewrite !sgn_zero, E1, E2.
    rewrite (is_frac_value _ Bi), (frac_print_form _ false Br).
    rewrite (frac_print_form _ false Bi), create_zero; cbn [use].
    pose proof (frac_negate fuel (ima c) Ci) as Hneg.
    unfold ima_form, ima_body, real_form.
    destruct (nega (ima c)) eqn:Ng;
      [rewrite (Hneg eq_refl Fi); cbn [use];
       rewrite (frac_print_form (mk_frac false (nume (ima c)) (denom (ima c)))
                  false Bi) |];
      destruct (to_Z (nume (ima c)) =? 1) eqn:N1;
      destruct (frac_den (ima c) =? 1) eqn:D1;
      destruct (to_Z (nume (real c)) =? 0) eqn:Zr;
      cbn [negb andb orb use]; eval_cmp; cbn [use].
    all: unfold real_form, den_opt, minus_if; cbn [nega nume denom].
    all: try (change (frac_den (mk_frac false (nume (ima c)) (denom (ima c))))
                with (frac_den (ima c))).
    all: rewrite ?D1; cbn [opt_denom].
    all: rewrite <- ?app_assoc; cbn [app]; rewrite <- ?app_assoc; cbn [app].
    all: reflexivity.
Qed.

Lemma ima_text_ok (f : ha_frac) :
  canonical f ->
  let N := if (to_Z (nume f) =? 1) && (frac_den f =? 1) then []
           else ha_int_to_str (nume f) in
  ima_ok (negb (frac_den f =? 1)) N (den_opt f)
  /\ ima_nume N = ha_int_to_str (nume f).
Proof.
  intros C N; pose proof C as (A & B & S & T & _).
  destruct (to_str_digit_str _ A S) as [Hne Hd].
  unfold N, den_opt.
  destruct (Z.eqb_spec (to_Z (nume f)) 1) as [E1 | E1];
    destruct (frac_den f =? 1); cbn [andb negb].
  - split; [repeat split; auto |].
    replace (nume f) with (lit "1"); [reflexivity |].
    apply wf_int_unique; auto.
  - split; [| destruct (ha_int_to_str (nume f)); [contradiction | reflexivity]].
    split; [exact Hd |]; split; [apply to_str_digit_str; auto | contradiction].
  - split; [| destruct (ha_int_to_str (nume f)); [contradiction | reflexivity]].
    split; [exact Hd |]; split; [exact I | contradiction].
  - split; [| destruct (ha_int_to_str (nume f)); [contradiction | reflexivity]].
    split; [exact Hd |]; split; [apply to_str_digit_str; auto | contradiction].
Qed.

Lemma read_comp_text (fuel : nat) (c : ha_comp) :
  comp_canonical c ->
  fuel_for fuel (frac_den (real c)) -> fuel_for fuel (frac_den (ima c)) ->
  ReadInput.read_input fuel (comp_text c) = Value c.
Proof.
  intros [Cr Ci] Fr Fi.
  pose proof Cr as (Ar & Br & Sr & _).
  destruct (ima_text_ok _ Ci) as [Hi Hn].
  destruct (read_forms fuel (nega (real c)) (nega (ima c))
              (negb (frac_den (ima c) =? 1))
              (ha_int_to_str (nume (real c))) _
              (den_opt (real c)) (den_opt (ima c))
              (to_str_digit_str _ Ar Sr) (denom_ok_den_opt _ Cr) Hi)
    as (F1 & F2 & F3).
  pose proof (frac_of_text fuel _ Cr Fr) as Tr.
  pose proof (frac_of_text fuel _ Ci Fi) as Ti.
  pose proof (create_zero fuel) as T0.
  change (cstr "0") with [ch0] in T0; change (cstr "1") with [ch1] in T0.
  unfold comp_text.
  destruct (Z.eqb_spec (to_Z (nume (ima c))) 0) as [Zi | Zi].
  - rewrite F1; unfold ha_comp_create; rewrite Tr, T0; cbn [after].
    assert (E : ima c = mk_frac false (lit "0") (lit "1"))
      by (apply frac_num_zero; auto; unfold frac_num; rewrite Zi;
          destruct (nega (ima c)); reflexivity).
    rewrite <- E; destruct c; reflexivity.
  - destruct (Z.eqb_spec (to_Z (nume (real c))) 0) as [Zr | Zr].
    + rewrite F2, Hn; unfold ha_comp_create; rewrite Ti, T0; cbn [after].
      assert (E : real c = mk_frac false (lit "0") (lit "1"))
        by (apply frac_num_zero; auto; unfold frac_num; rewrite Zr;
            destruct (nega (real c)); reflexivity).
      rewrite <- E; destruct c; reflexivity.
    + rewrite F3, Hn; unfold ha_comp_create; rewrite Tr, Ti; cbn [after].
      destruct c; reflexivity.
Qed.

(** X26 : what [ha_comp_print] writes.  For a number with canonical parts,
    with fuel above the two denominators, the call returns and has written
    exactly [comp_text]: the real part unless it is zero, then the
    imaginary part unless it is zero, with "+" between the two only when
    the imaginary part is positive, "-" for a negative one, parentheses
    around a coefficient that is not an integer, no coefficient at all
    when it is 1 or -1, and "0" when both parts are zero; then the newline
    if asked for. *)
Theorem comp_print_writes_text (fuel : nat) (c : ha_comp) (newline : bool) :
  comp_canonical c ->
  fuel_for fuel (frac_den (real c)) -> fuel_for fuel (frac_den (ima c)) ->
  ha_comp_print fuel c newline
  = Value (comp_text c ++ (if newline then [chnl] else [])).
Proof. apply comp_print_value. Qed.

Lemma comp_print_writes_text_witness :
  ha_comp_print 18
    (mk_comp (mk_frac false (lit "6") (lit "17")) (mk_frac false (lit "1") (lit "2")))
    false
  = Value (cstr "6/17+(1/2)i")
  /\ ha_comp_print 9
       (mk_comp (mk_frac true (lit "1") (lit "2")) (mk_frac true (lit "1") (lit "1")))
       true
     = Value (cstr "-1/2-i" ++ [chnl]).
Proof.
  split.
  - apply (comp_print_writes_text 18
             (mk_comp (mk_frac false (lit "6") (lit "17"))
                (mk_frac false (lit "1") (lit "2"))) false).
    + split; repeat split; try reflexivity; discriminate.
    + split; [lia | vm_compute; reflexivity].
    + split; [lia | vm_compute; reflexivity].
  - apply (comp_print_writes_text 9
             (mk_comp (mk_frac true (lit "1") (lit "2"))
                (mk_frac true (lit "1") (lit "1"))) true).
    + split; repeat split; try reflexivity; discriminate.
    + split; [lia | vm_compute; reflexivity].
    + split; [lia | vm_compute; reflexivity].
Defined.

(** X27 : reading back what was printed.  For a number with canonical
    parts, with fuel above the two denominators, [ha_comp_print] returns,
    and [read_input] on the characters it wrote returns the same record. *)
Theorem print_then_read_is_identity (fuel : nat) (c : ha_comp) :
  comp_canonical c ->
  fuel_for fuel (frac_den (real c)) -> fuel_for fuel (frac_den (ima c)) ->
  exists out,
    ha_comp_print fuel c false = Value out
    /\ ReadInput.read_input fuel out = Value c.
Proof.
  intros C Fr Fi; exists (comp_text c); split.
  - rewrite (comp_print_value fuel c false C Fr Fi), app_nil_r; reflexivity.
  - apply read_comp_text; auto.
Qed.

Lemma print_then_read_is_identity_witness :
  exists out,
    ha_comp_print 18
      (mk_comp (mk_frac true (lit "6") (lit "17")) (mk_frac true (lit "2") (lit "3")))
      false
    = Value out
    /\ ReadInput.read_input 18 out
       = Value (mk_comp (mk_frac true (lit "6") (lit "17"))
                  (mk_frac true (lit "2") (lit "3"))).
Proof.
  apply (print_then_read_is_identity 18
           (mk_comp (mk_frac true (lit "6") (lit "17"))
              (mk_frac true (lit "2") (lit "3")))).
  - split; repeat split; try reflexivity; discriminate.
  - split; [lia | vm_compute; reflexivity].
  - split; [lia | vm_compute; reflexivity].
Defined.

(** X28 : the written forms [read_input] understands.  With [N1], [N2] and
    the optional denominators strings of digits, a real part alone
    ("12", "-2/3"), an imaginary part alone ("i", "-3i", "(2/3)i"), and a
    real part followed by "+" or "-" and an imaginary part
    ("-1/2-(3/4)i") are split into the four strings numerator and
    denominator of each part, a missing part read as 0/1, a missing
    denominator as 1 and a missing coefficient of i as 1, and handed to
    [ha_comp_create]. *)
Theorem read_input_forms (fuel : nat) (neg1 neg2 paren : bool) (N1 N2 : list ascii)
    (d1 d2 : option (list ascii)) :
  digit_str N1 -> denom_ok d1 -> ima_ok paren N2 d2 ->
  ReadInput.read_input fuel (real_form neg1 N1 d1)
  = ha_comp_create fuel (minus_if neg1 ++ N1) (denom_or_1 d1) [ch0] [ch1]
  /\ ReadInput.read_input fuel (minus_if neg2 ++ ima_form paren N2 d2)
     = ha_comp_create fuel [ch0] [ch1] (minus_if neg2 ++ ima_nume N2)
         (denom_or_1 d2)
  /\ ReadInput.read_input fuel
       (real_form neg1 N1 d1
        ++ [if neg2 then chminus else chplus] ++ ima_form paren N2 d2)
     = ha_comp_create fuel (minus_if neg1 ++ N1) (denom_or_1 d1)
         (minus_if neg2 ++ ima_nume N2) (denom_or_1 d2).
Proof. apply read_forms. Qed.

Lemma read_input_forms_witness :
  ReadInput.read_input 9 (cstr "-1/2-(3/4)i")
  = ha_comp_create 9 (cstr "-1") (cstr "2") (cstr "-3") (cstr "4").
Proof.
  destruct (read_input_forms 9 true true true (cstr "1") (cstr "3")
              (Some (cstr "2")) (Some (cstr "4"))) as (_ & _ & H).
  - split; [discriminate | reflexivity].
  - split; [discriminate | reflexivity].
  - split; [reflexivity |]; split; [split; [discriminate | reflexivity] |].
    discriminate.
  - exact H.
Defined.

(** X29 : [ha_int_print] and [ha_frac_print].  [ha_int_print] writes the
    string [ha_int_to_str] returns, so that [ha_int_create] reads a
    well-formed BigInt back from what was printed; [ha_frac_print] writes
    "-" for a negative fraction, the numerator, and "/" and the denominator
    unless the denominator is 1; and [ha_frac_create], given the numerator
    and the denominator that read-input.c cuts out of that text, returns
    the fraction that was printed. *)
Theorem int_and_frac_print (fuel : nat) (f : ha_frac) :
  canonical f -> fuel_for fuel (frac_den f) ->
  (forall (n : ha_int) (newline : bool),
      ha_int_print n newline
      = ha_int_to_str n ++ (if newline then [chnl] else []))
  /\ (forall n : ha_int,
        wf_int n = true -> ha_int_create (ha_int_print n false) = Some n)
  /\ ha_frac_print f false
     = minus_if (nega f) ++ ha_int_to_str (nume f)
       ++ (if ha_frac_is_frac f then chslash :: ha_int_to_str (denom f) else [])
  /\ ha_frac_create fuel (ReadInput.numerator (ha_frac_print f false))
       (ReadInput.denominator (ha_frac_print f false))
     = Value f.
Proof.
  intros C F; pose proof C as (A & B & S & T & _).
  split; [exact ha_int_print_to_str |].
  split; [intros n W; rewrite ha_int_print_to_str, app_nil_r;
          apply create_to_str; exact W |].
  rewrite (frac_print_form f false B), app_nil_r, (is_frac_value f B).
  split.
  - unfold real_form, den_opt; destruct (frac_den f =? 1); reflexivity.
  - destruct (numerator_of_coe _ (nega f) (ha_int_to_str (nume f)) (den_opt f)
                (coefficient_real_form _ _ _ (to_str_digit_str _ A S)
                   (denom_ok_den_opt f C))
                (to_str_digit_str _ A S) (denom_ok_den_opt f C)) as [E1 E2].
    rewrite E1, E2; apply frac_of_text; auto.
Qed.

Lemma int_and_frac_print_witness :
  ha_frac_print (mk_frac true (lit "6") (lit "17")) false = cstr "-6/17"
  /\ ha_frac_create 18
       (ReadInput.numerator (ha_frac_print (mk_frac true (lit "6") (lit "17")) false))
       (ReadInput.denominator (ha_frac_print (mk_frac true (lit "6") (lit "17")) false))
     = Value (mk_frac true (lit "6") (lit "17")).
Proof.
  destruct (int_and_frac_print 18 (mk_frac true (lit "6") (lit "17")))
    as (_ & _ & H1 & H2).
  - repeat split; try reflexivity; discriminate.
  - split; [lia | vm_compute; reflexivity].
  - split; [exact H1 | exact H2].
Defined.

(* ================================================================== *)
(** * Further properties: the magnitude helpers *)
(* ================================================================== *)

(** X30 : the helpers on magnitudes.  On normal digit buffers [abs_gt]
    compares the magnitudes, [abs_add] returns the normal buffer of their
    sum and [abs_big_sub_small] that of the absolute value of their
    difference, whichever operand comes first; and
    [remove_leading_zeros] turns any non-empty buffer of digits into the
    normal buffer of the same value, leaving a normal buffer as it is. *)
Theorem magnitude_helpers (n m : ha_int) :
  norm (digits n) = true -> norm (digits m) = true ->
  abs_gt n m = (abs_val (digits m) <? abs_val (digits n))
  /\ (norm (digits (abs_add n m)) = true
      /\ abs_val (digits (abs_add n m)) = abs_val (digits n) + abs_val (digits m))
  /\ (norm (digits (abs_big_sub_small n m)) = true
      /\ abs_val (digits (abs_big_sub_small n m))
         = Z.abs (abs_val (digits n) - abs_val (digits m))
      /\ abs_big_sub_small n m = abs_big_sub_small m n)
  /\ (forall num : list ascii,
         (1 <= length num)%nat -> forallb is_digit num = true ->
         norm (remove_leading_zeros num) = true
         /\ abs_val (remove_leading_zeros num) = abs_val num
         /\ (norm num = true -> remove_leading_zeros num = num)).
Proof.
  intros Hn Hm.
  split; [apply abs_gt_val; auto |].
  split; [apply abs_add_spec; auto |].
  split.
  - destruct (abs_big_sub_small_spec n m Hn Hm) as [N1 V1].
    destruct (abs_big_sub_small_spec m n Hm Hn) as [N2 V2].
    split; [exact N1 |]; split; [exact V1 |].
    assert (E : digits (abs_big_sub_small n m) = digits (abs_big_sub_small m n))
      by (apply norm_unique; auto; rewrite V1, V2; lia).
    unfold abs_big_sub_small in *; cbn [digits] in E; rewrite E; reflexivity.
  - intros num L D.
    destruct (remove_leading_zeros_spec num L D) as [N V].
    split; [exact N |]; split; [exact V |].
    intro Nn; apply norm_unique; auto.
Qed.

Lemma magnitude_helpers_witness :
  abs_big_sub_small (lit "-999") (lit "1000")
  = abs_big_sub_small (lit "1000") (lit "-999")
  /\ remove_leading_zeros (rev (cstr "00120")) = rev (cstr "120").
Proof.
  destruct (magnitude_helpers (lit "-999") (lit "1000") eq_refl eq_refl)
    as (_ & _ & (_ & _ & H) & R).
  split; [exact H |].
  destruct (R (rev (cstr "00120"))) as (_ & _ & _); [cbn; lia | reflexivity |].
  reflexivity.
Defined.
